(** * Variable resolver service

    A verification development for
    [packages/variable-resolver/src/browser/variable-resolver-service.ts]:
    the class [VariableResolverService] and its nested class [Context].

    JavaScript strings are sequences of UTF-16 code units, the static
    [VAR_REGEXP] is a shared object with a mutable [lastIndex], the
    [Context] owns a [Map], and the registry is an external collaborator
    whose calls may throw.  All of this is written out as a state and
    error monad over an explicit [State].

    The service is modelled twice.  Over trees, where an array is the list
    of its elements and an object the list of its properties: this is where
    what [resolve] returns is stated.  Over a heap, where arrays and
    objects are held by reference and built by allocation and assignment:
    this is where what [resolve] writes to is stated.  [heap_refines_tree]
    relates the two.

    A theorem about [resolve] is about one call, run from the state it
    finds to its end.  [VAR_REGEXP] is one object for all calls and its
    [lastIndex] is part of that state: it is 0 between calls, and it is
    the end of the last match while a scan awaits the Context, so a call
    made at that moment starts from a state in which it is not 0.  The
    call stack has an end: the traversal is modelled a third time with the
    depth of its calls counted, and related to the traversal over the
    heap.  A registry that calls back into the service is outside this
    development, and so are values that are not data: functions,
    accessor properties, proxies. *)

From stdpp Require Import gmap list strings.

(** ** Strings *)

(** A JavaScript string: its UTF-16 code units. *)
Abbreviation JsString := (list N).

(** Writes an ASCII literal as a JavaScript string. *)
Definition js (s : string) : JsString :=
  map Ascii.N_of_ascii (String.list_ascii_of_string s).

Definition DOLLAR : N := 36.
Definition LBRACE : N := 123.
Definition RBRACE : N := 125.
Definition LF : N := 10.
Definition CR : N := 13.
Definition LS : N := 8232.
Definition PS : N := 8233.

(** The code units that [.] refuses in a pattern without the [s] flag:
    the ECMAScript LineTerminator production. *)
Definition isLineTerminator (c : N) : bool :=
  (c =? LF)%N || (c =? CR)%N || (c =? LS)%N || (c =? PS)%N.

(** ** The pattern [/\$\{(.*?)\}/g] *)

(** [(.*?)\}] against [s]: the lazy quantifier tries the shortest capture
    first, so the capture stops at the first [}]; a line terminator met
    before it makes the attempt fail.  Returns the capture and what follows
    the closing brace. *)
Fixpoint lazy_capture (s : JsString) : option (JsString * JsString) :=
  match s with
  | [] => None
  | c :: s' =>
      if (c =? RBRACE)%N then Some ([], s')
      else if isLineTerminator c then None
      else match lazy_capture s' with
           | Some (name, rest) => Some (c :: name, rest)
           | None => None
           end
  end.

(** The whole pattern anchored at the head of [s]. *)
Definition match_at (s : JsString) : option (JsString * JsString) :=
  match s with
  | c1 :: c2 :: s' =>
      if (c1 =? DOLLAR)%N && (c2 =? LBRACE)%N then lazy_capture s' else None
  | _ => None
  end.

(** What [exec] returns for a match: [match.index], [match[0]], [match[1]]. *)
Record MatchResult := mkMatch {
  index : nat;
  matched : JsString;
  group1 : JsString
}.

(** The search of RegExpBuiltinExec for a pattern that is not sticky: the
    pattern is tried at [i], then at [i + 1], ... up to the end of the
    subject.  [s] is the subject from position [i] on.  Returns the match and
    the index that follows it. *)
Fixpoint search (s : JsString) (i : nat) : option (MatchResult * nat) :=
  match match_at s with
  | Some (name, _) =>
      let e := i + (3 + length name) in
      Some ({| index := i; matched := take (3 + length name) s; group1 := name |}, e)
  | None =>
      match s with
      | [] => None
      | _ :: s' => search s' (S i)
      end
  end.

(** [String.prototype.substring] for [from <= to]. *)
Definition substring (from to : nat) (s : JsString) : JsString :=
  take (to - from) (drop from s).

(** The assembling loop of [RegExp.prototype[Symbol.replace]]: [results]
    pairs each match with its replacement text. *)
Fixpoint assemble (str : JsString) (results : list (MatchResult * JsString))
    (nextSourcePosition : nat) (accumulatedResult : JsString) : JsString :=
  match results with
  | [] => accumulatedResult ++ drop nextSourcePosition str
  | (m, replacement) :: results' =>
      if decide (nextSourcePosition <= index m) then
        assemble str results' (index m + length (matched m))
          (accumulatedResult ++ substring nextSourcePosition (index m) str ++ replacement)
      else assemble str results' nextSourcePosition accumulatedResult
  end.

(** ** Tokens, declaratively *)

(** A piece of a scanned string: one code unit outside every token, or a
    token [${name}]. *)
Inductive Piece :=
  | Chr (c : N)
  | Tok (name : JsString).

(** The text of the token named [name], delimiters included. *)
Definition token_text (name : JsString) : JsString :=
  DOLLAR :: LBRACE :: name ++ [RBRACE].

(** What a captured name can be: no closing brace and no line terminator. *)
Definition token_name (name : JsString) : Prop :=
  Forall (fun c => c <> RBRACE /\ isLineTerminator c = false) name.

(** A token starts at the head of [s]. *)
Definition token_at (s : JsString) : Prop :=
  exists name rest, token_name name /\ s = token_text name ++ rest.

(** [Tokens s ps]: [ps] is the left-to-right decomposition of [s] into
    tokens that do not overlap, each taken at the leftmost position where
    one starts, and the code units between them. *)
Inductive Tokens : JsString -> list Piece -> Prop :=
  | Tokens_nil : Tokens [] []
  | Tokens_tok name rest ps :
      token_name name ->
      Tokens rest ps ->
      Tokens (token_text name ++ rest) (Tok name :: ps)
  | Tokens_chr c s ps :
      ~ token_at (c :: s) ->
      Tokens s ps ->
      Tokens (c :: s) (Chr c :: ps).

(** The names of the tokens of a decomposition, in order. *)
Fixpoint names (ps : list Piece) : list JsString :=
  match ps with
  | [] => []
  | Chr _ :: ps' => names ps'
  | Tok name :: ps' => name :: names ps'
  end.

(** The decomposition written back as a string, each token replaced by the
    value [get] has for its name and kept as it is where [get] has none. *)
Fixpoint substitute (get : JsString -> option JsString) (ps : list Piece) : JsString :=
  match ps with
  | [] => []
  | Chr c :: ps' => c :: substitute get ps'
  | Tok name :: ps' =>
      match get name with
      | Some v => v
      | None => token_text name
      end ++ substitute get ps'
  end.

(** The matches [exec] reports for a decomposition that starts at offset
    [off] of the subject. *)
Fixpoint matches_of (ps : list Piece) (off : nat) : list MatchResult :=
  match ps with
  | [] => []
  | Chr _ :: ps' => matches_of ps' (S off)
  | Tok name :: ps' =>
      {| index := off; matched := token_text name; group1 := name |}
        :: matches_of ps' (off + (3 + length name))
  end.

(** The decomposition computed: [skip] code units of a token already
    listed are passed over. *)
Fixpoint pieces_from (s : JsString) (skip : nat) : list Piece :=
  match s with
  | [] => []
  | c :: s' =>
      match skip with
      | S skip' => pieces_from s' skip'
      | 0 =>
          match match_at s with
          | Some (name, _) => Tok name :: pieces_from s' (2 + length name)
          | None => Chr c :: pieces_from s' 0
          end
      end
  end.

Definition pieces (s : JsString) : list Piece := pieces_from s 0.

(** The pieces that follow the first token. *)
Fixpoint after_first (ps : list Piece) : list Piece :=
  match ps with
  | [] => []
  | Chr _ :: ps' => after_first ps'
  | Tok _ :: ps' => ps'
  end.

(** ** Values *)

(** A property key: a string or a symbol. *)
Inductive PropertyKey :=
  | StringKey (name : JsString)
  | SymbolKey (id : nat).

Global Instance PropertyKey_eq_dec : EqDecision PropertyKey.
Proof. solve_decision. Defined.

(** An own data property.  The resolver only reads properties, so of the
    attributes only [enumerable] matters. *)
Record Property (V : Type) := mkProperty {
  key : PropertyKey;
  enumerable : bool;
  value : V
}.
Arguments mkProperty {V} _ _ _.
Arguments key {V} _.
Arguments enumerable {V} _.
Arguments value {V} _.

(** The [[Prototype]] of an object: [Object.prototype] (what [{}] has),
    [null], the prototype object of a class ([Date.prototype],
    [Map.prototype], a user class, ...), or an object that is itself a
    value of the model. *)
Inductive Prototype (V : Type) :=
  | ObjectPrototype
  | NullPrototype
  | ClassPrototype (name : string)
  | ValuePrototype (v : V).
Arguments ObjectPrototype {V}.
Arguments NullPrototype {V}.
Arguments ClassPrototype {V} name.
Arguments ValuePrototype {V} v.

(** The values [resolve] is given: data.  A number is the bit pattern of its
    binary64.  An array is its elements in index order (a hole reads as
    [undefined]).  An object that is not an array has a prototype, possibly
    internal state (the [[DateValue]] of a Date, the [[MapData]] of a Map,
    ..., named here by a number), and its own properties in the order
    [[OwnPropertyKeys]] lists them.  Objects that run code when they are
    read (accessor properties, proxies) and callable objects are left out. *)
#[warnings="-register-all"]
Inductive JsValue :=
  | JsUndefined
  | JsNull
  | JsBoolean (b : bool)
  | JsNumber (bits : Z)
  | JsBigInt (n : Z)
  | JsSymbol (id : nat)
  | JsStr (s : JsString)
  | JsArray (elements : list JsValue)
  | JsObject (proto : Prototype JsValue) (internal : option nat)
      (properties : list (Property JsValue)).

(** The same values as the program holds them: an array or an object is a
    reference into the heap, where the elements and the property values are
    such values again.  Two references to one location are one object. *)
Inductive Value :=
  | Undefined
  | Null
  | Boolean (b : bool)
  | Number (bits : Z)
  | BigInt (n : Z)
  | Symbol (id : nat)
  | Str (s : JsString)
  | Ref (l : nat).

Inductive HeapObject :=
  | ArrayObject (elements : list Value)
  | OrdinaryObject (proto : Prototype Value) (internal : option nat)
      (properties : list (Property Value)).

(** *** Own properties of an ordinary object *)

Definition digit (c : N) : option N :=
  if (48 <=? c)%N && (c <=? 57)%N then Some (c - 48)%N else None.

Fixpoint decimal (s : JsString) (acc : N) : option N :=
  match s with
  | [] => Some acc
  | c :: s' =>
      match digit c with
      | Some d => decimal s' (acc * 10 + d)%N
      | None => None
      end
  end.

(** An array index: a canonical numeric string below 2^32 - 1. *)
Definition array_index (name : JsString) : option N :=
  match name with
  | [] => None
  | c :: s' =>
      if (c =? 48)%N && negb (bool_decide (s' = [])) then None
      else match decimal name 0 with
           | Some n => if (n <? 4294967295)%N then Some n else None
           | None => None
           end
  end.

(** [Object.keys]: the own enumerable string keys, in order. *)
Fixpoint Object_keys {V} (props : list (Property V)) : list JsString :=
  match props with
  | [] => []
  | p :: props' =>
      match key p with
      | StringKey name => if enumerable p then name :: Object_keys props' else Object_keys props'
      | SymbolKey _ => Object_keys props'
      end
  end.

(** [obj[name]] where [name] is an own property. *)
Fixpoint Object_get {V} (props : list (Property V)) (name : JsString) : option V :=
  match props with
  | [] => None
  | p :: props' =>
      if decide (key p = StringKey name) then Some (value p) else Object_get props' name
  end.

Definition has_own_property {V} (props : list (Property V)) (name : JsString) : bool :=
  bool_decide (StringKey name ∈ map key props).

(** [k] is listed before a new property [name]: array indices in ascending
    order come first, then the other strings in creation order, then the
    symbols. *)
Definition listed_before (k : PropertyKey) (name : JsString) : bool :=
  match k with
  | SymbolKey _ => false
  | StringKey n =>
      match array_index name with
      | Some i =>
          match array_index n with
          | Some j => (j <? i)%N
          | None => false
          end
      | None => true
      end
  end.

(** CreateDataProperty of a key the object does not have. *)
Fixpoint insert_property {V} (name : JsString) (v : V) (props : list (Property V))
    : list (Property V) :=
  match props with
  | [] => [mkProperty (StringKey name) true v]
  | p :: props' =>
      if listed_before (key p) name then p :: insert_property name v props'
      else mkProperty (StringKey name) true v :: p :: props'
  end.

(** The value of an own property replaced; place and attributes stay. *)
Definition update_property {V} (name : JsString) (v : V) (props : list (Property V))
    : list (Property V) :=
  map (fun p => if decide (key p = StringKey name)
                then mkProperty (key p) (enumerable p) v else p) props.

Definition PROTO : JsString := js "__proto__".

(** [result[name] = v] on an object made by [{}] and only written through
    this assignment.  An own property is updated.  For a new name the
    prototype chain is asked: as long as the object has the prototype [{}]
    gave it, [__proto__] finds the accessor of [Object.prototype], whose
    setter changes the prototype when [v] is an object or [null] and does
    nothing otherwise, and creates no property (ECMAScript, "set
    Object.prototype.__proto__"); every other name is created as an own
    property.  [as_prototype v] is the prototype [v] makes. *)
Definition Object_set {V} (as_prototype : V -> option (Prototype V))
    (result : Prototype V * list (Property V)) (name : JsString) (v : V)
    : Prototype V * list (Property V) :=
  let '(proto, props) := result in
  if has_own_property props name then (proto, update_property name v props)
  else
    match proto with
    | ObjectPrototype =>
        if decide (name = PROTO) then
          match as_prototype v with
          | Some proto' => (proto', props)
          | None => (proto, props)
          end
        else (proto, insert_property name v props)
    | _ => (proto, insert_property name v props)
    end.

(** The prototype a value makes when it is assigned to [__proto__]. *)
Definition JsValue_as_prototype (v : JsValue) : option (Prototype JsValue) :=
  match v with
  | JsNull => Some NullPrototype
  | JsArray _ | JsObject _ _ _ => Some (ValuePrototype v)
  | _ => None
  end.

(** What the loop of [doResolveObject] does with one property: only the
    own enumerable string-keyed ones are visited. *)
Definition visited {A} (p : Property JsValue) (f : JsString -> JsValue -> A)
    (otherwise : A) : A :=
  match p with
  | mkProperty (StringKey name) true v => f name v
  | _ => otherwise
  end.

(** *** Shape, plain data *)

(** The own enumerable string-keyed properties: the names [Object.keys]
    lists, each with its value. *)
Fixpoint Object_entries {V} (props : list (Property V)) : list (JsString * V) :=
  match props with
  | [] => []
  | mkProperty (StringKey name) true v :: props' => (name, v) :: Object_entries props'
  | _ :: props' => Object_entries props'
  end.

(** The properties [{}] gets when the entries are assigned to it one
    after the other. *)
Definition entries_props {V} (es : list (JsString * V)) : list (Property V) :=
  map (fun e => mkProperty (StringKey e.1) true e.2) es.

(** [names] can be the own string keys of an object, in the order
    [[OwnPropertyKeys]] lists them after the keys [seen]: no key twice, the
    array indices first and ascending. *)
Fixpoint ordered_keys (seen names : list JsString) : bool :=
  match names with
  | [] => true
  | name :: names' =>
      forallb (fun n => listed_before (StringKey n) name) seen
      && bool_decide (name ∉ seen)
      && ordered_keys (seen ++ [name]) names'
  end.

(** Numbers, booleans, [undefined], [null] and the like: what is neither a
    string, nor an array, nor an object. *)
Definition is_scalar (v : JsValue) : bool :=
  match v with
  | JsStr _ | JsArray _ | JsObject _ _ _ => false
  | _ => true
  end.

(** Same kind, same keys in the same order, same length and order of
    elements; a scalar that is not a string is the same. *)
#[warnings="-register-all"]
Inductive same_shape : JsValue -> JsValue -> Prop :=
  | shape_scalar v : is_scalar v = true -> same_shape v v
  | shape_string s s' : same_shape (JsStr s) (JsStr s')
  | shape_array vs vs' :
      Forall2 same_shape vs vs' -> same_shape (JsArray vs) (JsArray vs')
  | shape_object proto internal props proto' internal' props' :
      Forall2 (fun e e' => e.1 = e'.1 /\ same_shape e.2 e'.2)
        (Object_entries props) (Object_entries props') ->
      same_shape (JsObject proto internal props) (JsObject proto' internal' props').

(** Every object the traversal visits lists its keys in order and has no
    own enumerable property named [__proto__]. *)
Fixpoint copyable (v : JsValue) : bool :=
  match v with
  | JsArray values => forallb copyable values
  | JsObject _ _ props =>
      ordered_keys [] (Object_keys props)
      && bool_decide (PROTO ∉ Object_keys props)
      && forallb (fun p => visited p (fun _ v' => copyable v') true) props
  | _ => true
  end.

(** Plain data: scalars, strings, arrays, and objects made by [{}] or
    [JSON.parse], which have the prototype [Object.prototype], no internal
    state, and only enumerable string-keyed properties. *)
Fixpoint plain_data (v : JsValue) : bool :=
  match v with
  | JsArray values => forallb plain_data values
  | JsObject ObjectPrototype None props =>
      forallb (fun p => visited p (fun _ v' => plain_data v') false) props
  | JsObject _ _ _ => false
  | _ => true
  end.

(** ** The registry, the state and the monad *)

(** How a call into the registry completes. *)
Inductive Completion (Error A : Type) :=
  | Normal (a : A)
  | Throw (e : Error).
Arguments Normal {Error A} a.
Arguments Throw {Error A} e.

(** Modelled from the spec: the interface [Variable] of [./variable], which
    "exposes [resolve() -> Promise<string | absent>]".  [RS] is the state of
    the registry and of its variables, [Error] what they throw or reject
    with. *)
Record RegisteredVariable (RS Error : Type) := mkVariable {
  Variable_resolve : RS -> Completion Error (option JsString) * RS
}.
Arguments mkVariable {RS Error} _.
Arguments Variable_resolve {RS Error} _ _.

(** How a promise settles; [Pending] is a loop that ran out of fuel. *)
Inductive Outcome (Error A : Type) :=
  | Fulfilled (a : A)
  | Rejected (e : Error)
  | Pending.
Arguments Fulfilled {Error A} a.
Arguments Rejected {Error A} e.
Arguments Pending {Error A}.

(** Everything the service reads and writes. *)
Record State (RS Error : Type) := mkState {
  heap : list HeapObject;
    (* the arrays and objects of the program, by location *)
  lastIndex : nat;
    (* VariableResolverService.VAR_REGEXP.lastIndex *)
  resolved : gmap JsString (option JsString);
    (* Context.resolved of the call in progress *)
  registry : RS;
    (* the state behind this.variableRegistry *)
  lookups : list JsString;
    (* the names getVariable was called with, oldest first *)
  console : list (JsString * Error)
    (* what console.error was called with, oldest first *)
}.
Arguments mkState {RS Error} _ _ _ _ _ _.
Arguments heap {RS Error} _.
Arguments lastIndex {RS Error} _.
Arguments resolved {RS Error} _.
Arguments registry {RS Error} _.
Arguments lookups {RS Error} _.
Arguments console {RS Error} _.

(** One field of the state changed. *)
Section Setters.

Context {RS Error : Type}.
Implicit Types (st : State RS Error).

Definition with_heap (h : list HeapObject) st : State RS Error :=
  mkState h (lastIndex st) (resolved st) (registry st) (lookups st) (console st).

Definition with_lastIndex (i : nat) st : State RS Error :=
  mkState (heap st) i (resolved st) (registry st) (lookups st) (console st).

Definition with_resolved (m : gmap JsString (option JsString)) st : State RS Error :=
  mkState (heap st) (lastIndex st) m (registry st) (lookups st) (console st).

Definition with_registry (rs : RS) st : State RS Error :=
  mkState (heap st) (lastIndex st) (resolved st) rs (lookups st) (console st).

Definition with_lookups (names : list JsString) st : State RS Error :=
  mkState (heap st) (lastIndex st) (resolved st) (registry st) names (console st).

Definition with_console (errors : list (JsString * Error)) st : State RS Error :=
  mkState (heap st) (lastIndex st) (resolved st) (registry st) (lookups st) errors.

End Setters.

Declare Scope js_scope.
Delimit Scope js_scope with js_m.

Section Service.

Context {RS Error : Type}.

(** Modelled from the spec: the registry of [./variable], "exposing
    [getVariable(name: string) -> Promise<Variable | absent>]". *)
Variable getVariable :
  JsString -> RS -> Completion Error (option (RegisteredVariable RS Error)) * RS.

Definition M (A : Type) : Type := State RS Error -> Outcome Error A * State RS Error.

Definition ret {A} (a : A) : M A := fun st => (Fulfilled a, st).

Definition bind {A B} (m : M A) (k : A -> M B) : M B := fun st =>
  match m st with
  | (Fulfilled a, st') => k a st'
  | (Rejected e, st') => (Rejected e, st')
  | (Pending, st') => (Pending, st')
  end.

Definition pending {A} : M A := fun st => (Pending, st).

(** [try { body } catch (e) { handler e }] *)
Definition try_catch {A} (body : M A) (handler : Error -> M A) : M A := fun st =>
  match body st with
  | (Rejected e, st') => handler e st'
  | r => r
  end.

Local Notation "x <- c1 ;; c2" := (bind c1 (fun x => c2))
  (at level 100, c1 at next level, right associativity) : js_scope.
Local Notation "c1 ;;; c2" := (bind c1 (fun _ => c2))
  (at level 100, right associativity) : js_scope.
Local Open Scope js_scope.

Definition set_lastIndex (i : nat) : M unit := fun st =>
  (Fulfilled tt, with_lastIndex i st).

(** [await] of a call into the registry: a throw or a rejection becomes a
    rejection here. *)
Definition await {A} (call : RS -> Completion Error A * RS) : M A := fun st =>
  let '(c, rs) := call (registry st) in
  let st' := with_registry rs st in
  match c with
  | Normal a => (Fulfilled a, st')
  | Throw e => (Rejected e, st')
  end.

(** [this.variableRegistry.getVariable(name)], the call noted in [lookups]. *)
Definition registry_getVariable (name : JsString)
  : M (option (RegisteredVariable RS Error)) := fun st =>
  await (getVariable name) (with_lookups (lookups st ++ [name]) st).

Definition console_error (name : JsString) (e : Error) : M unit := fun st =>
  (Fulfilled tt, with_console (console st ++ [(name, e)]) st).

(** [VAR_REGEXP.exec(str)]: RegExpBuiltinExec of a global pattern. *)
Definition RegExp_exec (str : JsString) : M (option MatchResult) := fun st =>
  match search (drop (lastIndex st) str) (lastIndex st) with
  | Some (m, e) => (Fulfilled (Some m), with_lastIndex e st)
  | None => (Fulfilled None, with_lastIndex 0 st)
  end.

(** The collecting loop of [RegExp.prototype[Symbol.replace]]: [exec] until
    it returns [null]. *)
Fixpoint collect_matches (fuel : nat) (str : JsString) : M (list MatchResult) :=
  match fuel with
  | 0 => pending
  | S fuel' =>
      result <- RegExp_exec str ;;
      match result with
      | None => ret []
      | Some m => results <- collect_matches fuel' str ;; ret (m :: results)
      end
  end.

(** Calls [replaceValue(match, p1)] for each collected match. *)
Fixpoint replacements (replaceValue : JsString -> JsString -> M JsString)
    (results : list MatchResult) : M (list (MatchResult * JsString)) :=
  match results with
  | [] => ret []
  | m :: results' =>
      replacement <- replaceValue (matched m) (group1 m) ;;
      rest <- replacements replaceValue results' ;;
      ret ((m, replacement) :: rest)
  end.

(** [str.replace(VAR_REGEXP, replaceValue)] with a function [replaceValue]:
    [lastIndex] is set to 0, every match is collected, then the function
    is called for each and the result assembled. *)
Definition String_replace (str : JsString)
    (replaceValue : JsString -> JsString -> M JsString) : M JsString :=
  set_lastIndex 0 ;;;
  results <- collect_matches (S (length str)) str ;;
  rs <- replacements replaceValue results ;;
  ret (assemble str rs 0 []).

(** *** class Context *)

(** [new VariableResolverService.Context(this.variableRegistry)] *)
Definition Context_new : M unit := fun st =>
  (Fulfilled tt, with_resolved ∅ st).

Definition Map_has (name : JsString) : M bool := fun st =>
  (Fulfilled (bool_decide (is_Some (resolved st !! name))), st).

Definition Map_set (name : JsString) (value : option JsString) : M unit := fun st =>
  (Fulfilled tt, with_resolved (<[name := value]> (resolved st)) st).

(** [get(name)]: [undefined] for a name that is not in the map and for a
    name kept with the value [undefined]. *)
Definition Context_get (name : JsString) : M (option JsString) := fun st =>
  (Fulfilled (mjoin (resolved st !! name)), st).

Definition Context_resolve (name : JsString) : M unit :=
  has <- Map_has name ;;
  if has then ret tt
  else
    try_catch
      (variable <- registry_getVariable name ;;
       value <- match variable with
                | None => ret None
                | Some v => await (Variable_resolve v)
                end ;;
       Map_set name value)
      (fun e =>
         console_error name e ;;;
         Map_set name None).

(** *** class VariableResolverService, strings *)

Fixpoint resolveVariables_loop (fuel : nat) (value : JsString) : M unit :=
  match fuel with
  | 0 => pending
  | S fuel' =>
      match_ <- RegExp_exec value ;;
      match match_ with
      | None => ret tt
      | Some m =>
          let variableName := group1 m in
          Context_resolve variableName ;;;
          resolveVariables_loop fuel' value
      end
  end.

(** Every iteration but the last moves [lastIndex] forward by at least
    three, so the loop body runs at most [length value + 1] times. *)
Definition resolveVariables (value : JsString) : M unit :=
  resolveVariables_loop (S (length value)) value.

Definition doResolveString (value : JsString) : M JsString :=
  resolveVariables value ;;;
  String_replace value (fun match_ varName =>
    varValue <- Context_get varName ;;
    ret (match varValue with
         | Some v => v
         | None => match_
         end)).

(** *** class VariableResolverService, containers *)

Section Traversal.

Variable doResolve : JsValue -> M JsValue.

(** The loop of [doResolveArray]; [result] is the array built so far. *)
Fixpoint doResolveArray_loop (values result : list JsValue) : M JsValue :=
  match values with
  | [] => ret (JsArray result)
  | value :: values' =>
      resolved <- doResolve value ;;
      doResolveArray_loop values' (result ++ [resolved])
  end.

(** The loop of [doResolveObject] over the own enumerable string-keyed
    properties, that is over the names [Object.keys(obj)] lists, each
    with the value [obj[name]] reads; [result] is the object built so
    far. *)
Fixpoint doResolveObject_loop (props : list (Property JsValue))
    (result : Prototype JsValue * list (Property JsValue)) : M JsValue :=
  match props with
  | [] => ret (JsObject result.1 None result.2)
  | mkProperty (StringKey name) true value :: props' =>
      resolved <- doResolve value ;;
      doResolveObject_loop props' (Object_set JsValue_as_prototype result name resolved)
  | _ :: props' => doResolveObject_loop props' result
  end.

(** [const result = []], then the loop. *)
Definition doResolveArray (values : list JsValue) : M JsValue :=
  doResolveArray_loop values [].

(** [const result = {}], then the loop over the properties of [obj]. *)
Definition doResolveObject (props : list (Property JsValue)) : M JsValue :=
  doResolveObject_loop props (ObjectPrototype, []).

End Traversal.

Fixpoint doResolve (value : JsValue) : M JsValue :=
  match value with
  | JsUndefined | JsNull => ret value
  | JsStr s => s' <- doResolveString s ;; ret (JsStr s')
  | JsArray values => doResolveArray doResolve values
  | JsObject _ _ props => doResolveObject doResolve props
  | _ => ret value
  end.

Definition resolve (value : JsValue) : M JsValue :=
  Context_new ;;;
  resolved <- doResolve value ;;
  ret resolved.

Definition resolveArray (value : list JsString) : M JsValue :=
  resolve (JsArray (map JsStr value)).

End Service.

(** ** The service over the heap *)

(** The same methods with arrays and objects held by reference: [{}] and
    [[]] allocate, [push] and the assignment to a property write to the
    object allocated, and the traversal of an object that contains itself
    does not end, which the fuel stands for.  The call stack is taken to
    have no end; [Stack], further down, counts the calls. *)
Module Heap.

Section Service.

Context {RS Error : Type}.

Variable getVariable :
  JsString -> RS -> Completion Error (option (RegisteredVariable RS Error)) * RS.

Local Notation "x <- c1 ;; c2" := (bind c1 (fun x => c2))
  (at level 100, c1 at next level, right associativity) : js_scope.
Local Notation "c1 ;;; c2" := (bind c1 (fun _ => c2))
  (at level 100, right associativity) : js_scope.
Local Open Scope js_scope.

(** A new object, at a location nothing refers to yet. *)
Definition allocate (o : HeapObject) : @M RS Error nat := fun st =>
  (Fulfilled (length (heap st)), with_heap (heap st ++ [o]) st).

Definition read (l : nat) : @M RS Error (option HeapObject) := fun st =>
  (Fulfilled (heap st !! l), st).

Definition write (l : nat) (o : HeapObject) : @M RS Error unit := fun st =>
  (Fulfilled tt, with_heap (<[l := o]> (heap st)) st).

(** The prototype a value makes when it is assigned to [__proto__]. *)
Definition as_prototype (v : Value) : option (Prototype Value) :=
  match v with
  | Null => Some NullPrototype
  | Ref _ => Some (ValuePrototype v)
  | _ => None
  end.

(** [result.push(resolved)] *)
Definition Array_push (result : nat) (v : Value) : @M RS Error unit :=
  o <- read result ;;
  match o with
  | Some (ArrayObject elements) => write result (ArrayObject (elements ++ [v]))
  | _ => ret tt
  end.

(** [result[name] = resolved] *)
Definition Object_assign (result : nat) (name : JsString) (v : Value)
  : @M RS Error unit :=
  o <- read result ;;
  match o with
  | Some (OrdinaryObject proto internal props) =>
      let r := Object_set as_prototype (proto, props) name v in
      write result (OrdinaryObject r.1 internal r.2)
  | _ => ret tt
  end.

Section Traversal.

Variable doResolve : Value -> @M RS Error Value.

(** [for (const value of values)]: the iterator of the array reads
    the length and the element anew at each step. *)
Fixpoint doResolveArray_loop (fuel : nat) (values i result : nat)
  : @M RS Error Value :=
  match fuel with
  | 0 => pending
  | S fuel' =>
      o <- read values ;;
      match o with
      | Some (ArrayObject elements) =>
          match elements !! i with
          | Some value =>
              resolved <- doResolve value ;;
              Array_push result resolved ;;;
              doResolveArray_loop fuel' values (S i) result
          | None => ret (Ref result)
          end
      | _ => ret (Ref result)
      end
  end.

Definition doResolveArray (fuel : nat) (values : nat) : @M RS Error Value :=
  result <- allocate (ArrayObject []) ;;
  doResolveArray_loop fuel values 0 result.

(** [for (const name of Object.keys(obj))]: the names are listed once,
    [obj[name]] is read at each step. *)
Fixpoint doResolveObject_loop (names : list JsString) (obj result : nat)
  : @M RS Error Value :=
  match names with
  | [] => ret (Ref result)
  | name :: names' =>
      o <- read obj ;;
      let value :=
        match o with
        | Some (OrdinaryObject _ _ props) => default Undefined (Object_get props name)
        | _ => Undefined
        end in
      resolved <- doResolve value ;;
      Object_assign result name resolved ;;;
      doResolveObject_loop names' obj result
  end.

Definition doResolveObject (obj : nat) : @M RS Error Value :=
  result <- allocate (OrdinaryObject ObjectPrototype None []) ;;
  o <- read obj ;;
  let names :=
    match o with
    | Some (OrdinaryObject _ _ props) => Object_keys props
    | _ => []
    end in
  doResolveObject_loop names obj result.

End Traversal.

(** A reference to a location that holds no object is not a value of
    the program; the traversal of one does not return. *)
Fixpoint doResolve (fuel : nat) (value : Value) : @M RS Error Value :=
  match fuel with
  | 0 => pending
  | S fuel' =>
      match value with
      | Undefined | Null => ret value
      | Str s => s' <- doResolveString getVariable s ;; ret (Str s')
      | Ref l =>
          o <- read l ;;
          match o with
          | Some (ArrayObject _) => doResolveArray (doResolve fuel') fuel' l
          | Some (OrdinaryObject _ _ _) => doResolveObject (doResolve fuel') l
          | None => pending
          end
      | _ => ret value
      end
  end.

Definition resolve (fuel : nat) (value : Value) : @M RS Error Value :=
  Context_new ;;;
  resolved <- doResolve fuel value ;;
  ret resolved.

End Service.

End Heap.


(** *** Locations *)

(** The reference, if [v] is one, is to a location from [n] on. *)
Definition above (n : nat) (v : Value) : Prop :=
  match v with
  | Ref l => n <= l
  | _ => True
  end.

(** Every reference an object holds, to an element, to a property value or
    to its prototype, is to a location from [n] on. *)
Definition object_above (n : nat) (o : HeapObject) : Prop :=
  match o with
  | ArrayObject elements => Forall (above n) elements
  | OrdinaryObject proto _ props =>
      match proto with
      | ValuePrototype v => above n v
      | _ => True
      end /\ Forall (fun p => above n (value p)) props
  end.

(** The objects from location [n] on refer to no object below [n]. *)
Definition region_above {RS Error} (n : nat) (st : State RS Error) : Prop :=
  forall l o, n <= l -> heap st !! l = Some o -> object_above n o.

(** From [st] to [st'] the heap has grown, the objects below [n] are as
    they were, and the objects from [n] on still refer to none below. *)
Definition kept {RS Error} (n : nat) (st st' : State RS Error) : Prop :=
  length (heap st) <= length (heap st') /\
  (forall l, l < n -> heap st' !! l = heap st !! l) /\
  (region_above n st -> region_above n st').

(** [reachable h v l]: the object at [l] is [v] or is reached from [v]
    through elements, property values and prototypes. *)
Inductive reachable (h : list HeapObject) : Value -> nat -> Prop :=
  | reachable_here l : reachable h (Ref l) l
  | reachable_element l elements v l' :
      h !! l = Some (ArrayObject elements) ->
      v ∈ elements ->
      reachable h v l' ->
      reachable h (Ref l) l'
  | reachable_property l proto internal props p l' :
      h !! l = Some (OrdinaryObject proto internal props) ->
      p ∈ props ->
      reachable h (value p) l' ->
      reachable h (Ref l) l'
  | reachable_prototype l v internal props l' :
      h !! l = Some (OrdinaryObject (ValuePrototype v) internal props) ->
      reachable h v l' ->
      reachable h (Ref l) l'.

(** *** Reading a value out of the heap *)

(** Prototypes of the same kind, with related values. *)
Inductive prototype_rel {A B} (R : A -> B -> Prop) : Prototype A -> Prototype B -> Prop :=
  | prototype_rel_object : prototype_rel R ObjectPrototype ObjectPrototype
  | prototype_rel_null : prototype_rel R NullPrototype NullPrototype
  | prototype_rel_class name : prototype_rel R (ClassPrototype name) (ClassPrototype name)
  | prototype_rel_value a b : R a b -> prototype_rel R (ValuePrototype a) (ValuePrototype b).

(** Properties with the same key and attribute, and related values. *)
Definition property_rel {A B} (R : A -> B -> Prop) (p : Property A) (q : Property B) : Prop :=
  key p = key q /\ enumerable p = enumerable q /\ R (value p) (value q).

(** [represents lo hi h v t]: read through the heap [h], the value [v] is
    the tree [t]; the objects read lie at the locations from [lo] to
    [hi - 1], and no object has a key twice. *)
#[warnings="-register-all"]
Inductive represents (lo hi : nat) (h : list HeapObject) : Value -> JsValue -> Prop :=
  | represents_undefined : represents lo hi h Undefined JsUndefined
  | represents_null : represents lo hi h Null JsNull
  | represents_boolean b : represents lo hi h (Boolean b) (JsBoolean b)
  | represents_number bits : represents lo hi h (Number bits) (JsNumber bits)
  | represents_bigint n : represents lo hi h (BigInt n) (JsBigInt n)
  | represents_symbol id : represents lo hi h (Symbol id) (JsSymbol id)
  | represents_string s : represents lo hi h (Str s) (JsStr s)
  | represents_array l elements values :
      lo <= l < hi ->
      h !! l = Some (ArrayObject elements) ->
      Forall2 (represents lo hi h) elements values ->
      represents lo hi h (Ref l) (JsArray values)
  | represents_object l proto internal props proto' props' :
      lo <= l < hi ->
      h !! l = Some (OrdinaryObject proto internal props) ->
      NoDup (map key props) ->
      prototype_rel (represents lo hi h) proto proto' ->
      Forall2 (property_rel (represents lo hi h)) props props' ->
      represents lo hi h (Ref l) (JsObject proto' internal props').

(** Fuel with which the traversal of the heap returns for the tree [t]:
    one unit for each level, and at each array enough for its loop. *)
Fixpoint fuel_for (t : JsValue) : nat :=
  match t with
  | JsArray values => S (max (S (length values)) (list_max (map fuel_for values)))
  | JsObject _ _ props =>
      S (list_max (map (fun p => visited p (fun _ v => fuel_for v) 0) props))
  | _ => 1
  end.

(** ** What a run amounts to *)

Section Summaries.

Context {RS Error : Type}.
Variable getVariable :
  JsString -> RS -> Completion Error (option (RegisteredVariable RS Error)) * RS.

(** What the [try] block of [Context.resolve] comes to for [name]: the
    value kept for the name, the error caught if there is one, and the
    registry afterwards. *)
Definition lookup (name : JsString) (rs : RS) : option JsString * list Error * RS :=
  match getVariable name rs with
  | (Normal None, rs1) => (None, [], rs1)
  | (Normal (Some v), rs1) =>
      match Variable_resolve v rs1 with
      | (Normal value, rs2) => (value, [], rs2)
      | (Throw e, rs2) => (None, [e], rs2)
      end
  | (Throw e, rs1) => (None, [e], rs1)
  end.

(** The state after [Context.resolve(name)]. *)
Definition cache_step (st : State RS Error) (name : JsString) : State RS Error :=
  match resolved st !! name with
  | Some _ => st
  | None =>
      let '(value, errors, rs) := lookup name (registry st) in
      mkState (heap st) (lastIndex st) (<[name := value]> (resolved st)) rs
        (lookups st ++ [name]) (console st ++ map (pair name) errors)
  end.

(** The value the substitution pass reads for a name. *)
Definition cached (st : State RS Error) (name : JsString) : option JsString :=
  mjoin (resolved st !! name).

(** The registry answers [name] with a variable that resolves to [V],
    whatever its state. *)
Definition resolves_to (name V : JsString) : Prop :=
  forall rs, exists var rs1 rs2,
    getVariable name rs = (Normal (Some var), rs1) /\
    Variable_resolve var rs1 = (Normal (Some V), rs2).

(** The registry has no value for [name], whatever its state: the
    variable is unknown, it resolves to [undefined], or the lookup
    fails. *)
Definition unresolvable (name : JsString) : Prop :=
  forall rs, (lookup name rs).1.1 = None.

(** The token names the traversal of a value asks the Context for, in the
    order of the traversal. *)
Fixpoint value_names (v : JsValue) : list JsString :=
  match v with
  | JsStr s => names (pieces s)
  | JsArray values => flat_map value_names values
  | JsObject _ _ props =>
      flat_map (fun p => visited p (fun _ v' => value_names v') []) props
  | _ => []
  end.

(** The value the traversal builds when every token is replaced by what
    [get] has for its name. *)
Fixpoint substitute_value (get : JsString -> option JsString) (v : JsValue) : JsValue :=
  match v with
  | JsStr s => JsStr (substitute get (pieces s))
  | JsArray values => JsArray (map (substitute_value get) values)
  | JsObject _ _ props =>
      let result :=
        foldl (fun result p =>
                 visited p (fun name v' =>
                   Object_set JsValue_as_prototype result name (substitute_value get v'))
                   result)
          (ObjectPrototype, []) props in
      JsObject result.1 None result.2
  | _ => v
  end.

(** [Context.resolve] for each name of a list, in order. *)
Fixpoint request_all (ns : list JsString) : @M RS Error unit :=
  match ns with
  | [] => ret tt
  | name :: ns' => bind (Context_resolve getVariable name) (fun _ => request_all ns')
  end.

(** The state [resolve] starts the traversal from: a new Context. *)
Definition fresh_context (st : State RS Error) : State RS Error :=
  with_resolved ∅ st.

(** The lookup of [name] fails with [e] in the state [rs]: [getVariable]
    throws or rejects, or the variable's [resolve] does. *)
Definition fails (name : JsString) (rs : RS) (e : Error) : Prop :=
  (exists rs1, getVariable name rs = (Throw e, rs1)) \/
  (exists var rs1 rs2,
     getVariable name rs = (Normal (Some var), rs1) /\
     Variable_resolve var rs1 = (Throw e, rs2)).

(** The text the callback [doResolveString] passes to [replace] returns for
    a match. *)
Definition replacement_of (st : State RS Error) (m : MatchResult) : JsString :=
  match cached st (group1 m) with
  | Some v => v
  | None => matched m
  end.

(** [st'] is [st] after some requests to the Context, [lastIndex] apart. *)
Definition reached (st st' : State RS Error) : Prop :=
  exists i ns, st' = with_lastIndex i (foldl cache_step st ns).

(** With [fuel], the traversal of the heap does for every value that reads
    as [t] what the traversal of the tree does for [t]: it returns, with
    the same requests to the Context, a value that reads as the tree
    returned, out of objects allocated on the way. *)
Definition refines (fuel : nat) (t : JsValue) : Prop :=
  forall v st nin h0,
    nin <= length (heap st) ->
    represents 0 nin (heap st) v t ->
    exists v' t' st',
      Heap.doResolve getVariable fuel v st = (Fulfilled v', st') /\
      doResolve getVariable t (with_heap h0 st) =
        (Fulfilled t', with_heap h0 st') /\
      represents (length (heap st)) (length (heap st')) (heap st') v' t'.

End Summaries.

(** ** What a call asks the registry for *)

(** The names of [ns] that are not in [seen], each once, in the order in
    which they first occur. *)
Fixpoint first_occurrences (seen ns : list JsString) : list JsString :=
  match ns with
  | [] => []
  | n :: ns' =>
      if decide (n ∈ seen) then first_occurrences seen ns'
      else n :: first_occurrences (n :: seen) ns'
  end.

(** *** What the traversal of the heap descends into *)

(** [child h v v']: the traversal of [v] calls [doResolve] on [v'], an
    element of the array [v] refers to, or the value [obj[name]] of a name
    that [Object.keys] lists for the object [v] refers to. *)
Inductive child (h : list HeapObject) : Value -> Value -> Prop :=
  | child_element l elements v' :
      h !! l = Some (ArrayObject elements) ->
      v' ∈ elements ->
      child h (Ref l) v'
  | child_property l proto internal props name v' :
      h !! l = Some (OrdinaryObject proto internal props) ->
      name ∈ Object_keys props ->
      Object_get props name = Some v' ->
      child h (Ref l) v'.

(** *** What a container refers to *)

(** The locations the values of a list refer to, in order. *)
Definition refs (vs : list Value) : list nat :=
  omap (fun v => match v with Ref l => Some l | _ => None end) vs.

(** The locations an object made by [doResolveObject] refers to: through
    its prototype, then through its properties. *)
Definition object_refs (proto : Prototype Value) (props : list (Property Value)) : list nat :=
  match proto with
  | ValuePrototype v => refs [v]
  | _ => []
  end ++ refs (map value props).

(** ** A registry to run the service against *)

(** The registry counts its calls.  It knows [X], which resolves to ["V"];
    [undef], which resolves to [undefined]; [fail], whose [resolve]
    rejects; and it throws when asked for [broken].  Every other name is
    unknown. *)
Definition sample_getVariable (name : JsString) (calls : nat)
    : Completion JsString (option (RegisteredVariable nat JsString)) * nat :=
  if decide (name = js "X") then
    (Normal (Some (mkVariable (fun calls => (Normal (Some (js "V")), S calls)))), S calls)
  else if decide (name = js "undef") then
    (Normal (Some (mkVariable (fun calls => (Normal None, S calls)))), S calls)
  else if decide (name = js "fail") then
    (Normal (Some (mkVariable (fun calls => (Throw (js "rejected"), S calls)))), S calls)
  else if decide (name = js "broken") then (Throw (js "thrown"), S calls)
  else (Normal None, S calls).

(** The state before the first call: [VAR_REGEXP] as the class
    initialiser leaves it, nothing logged. *)
Definition initial_state : State nat JsString := mkState [] 0 ∅ 0 [] [].

(** An object literal: the prototype of [{}] and enumerable properties. *)
Definition object_literal (props : list (string * JsValue)) : JsValue :=
  JsObject ObjectPrototype None
    (map (fun p => mkProperty (StringKey (js p.1)) true p.2) props).

(** A heap with [{a: "${X}", b: shared, c: shared}] at location 0, where
    [shared] is the array [["${X}", "${Y}", 42, null]] at location 1. *)
Definition sample_heap : list HeapObject :=
  [OrdinaryObject ObjectPrototype None
     [mkProperty (StringKey (js "a")) true (Str (js "${X}"));
      mkProperty (StringKey (js "b")) true (Ref 1);
      mkProperty (StringKey (js "c")) true (Ref 1)];
   ArrayObject [Str (js "${X}"); Str (js "${Y}"); Number 42; Null]].

Definition sample_heap_state : State nat JsString := mkState sample_heap 0 ∅ 0 [] [].

(** A heap with a cycle: the array at location 0 holds the object at
    location 1, whose property [self] is the array. *)
Definition cyclic_heap : list HeapObject :=
  [ArrayObject [Str (js "${X}"); Ref 1];
   OrdinaryObject ObjectPrototype None
     [mkProperty (StringKey (js "self")) true (Ref 0)]].

(** ** The service on a call stack that has an end *)

(** [Heap.doResolve] takes the call stack to have no end: there the
    traversal of a value that leads back to itself goes on for ever and no
    nesting is too deep.  Here the stack has room for [limit] nested calls
    of [doResolve].

    [doResolve] is an ordinary method, [doResolveArray] and
    [doResolveObject] are async: a call runs on the stack of its caller up
    to its first [await], and what follows an [await] runs on a new stack.
    So the calls of [doResolve] nest on one stack along the first elements
    and the first properties, and only along them.  The calls a string
    needs below [doResolve] are taken to fit.  The call that finds no room
    throws [RangeError]; it is made from the body of an async method,
    whose promise is rejected with it, and with that promise every promise
    that awaits it, up to the one [resolve] returned. *)
Module Stack.

Section Service.

Context {RS Error : Type}.

Variable getVariable :
  JsString -> RS -> Completion Error (option (RegisteredVariable RS Error)) * RS.

Variable limit : nat.
Variable RangeError : Error.

Local Notation "x <- c1 ;; c2" := (bind c1 (fun x => c2))
  (at level 100, c1 at next level, right associativity) : js_scope.
Local Notation "c1 ;;; c2" := (bind c1 (fun _ => c2))
  (at level 100, right associativity) : js_scope.
Local Open Scope js_scope.

Definition throw {A} (e : Error) : @M RS Error A := fun st => (Rejected e, st).

Section Traversal.

(** [doResolve depth value]: the call is the [depth]-th on its stack. *)
Variable doResolve : nat -> Value -> @M RS Error Value.

(** [calls] is the number of calls of [doResolve] on the stack on which
    the loop runs: those of the caller in the first iteration, none after
    the first [await]. *)
Fixpoint doResolveArray_loop (fuel : nat) (calls : nat) (values i result : nat)
  : @M RS Error Value :=
  match fuel with
  | 0 => pending
  | S fuel' =>
      o <- Heap.read values ;;
      match o with
      | Some (ArrayObject elements) =>
          match elements !! i with
          | Some value =>
              resolved <- doResolve (S calls) value ;;
              Heap.Array_push result resolved ;;;
              doResolveArray_loop fuel' 0 values (S i) result
          | None => ret (Ref result)
          end
      | _ => ret (Ref result)
      end
  end.

Definition doResolveArray (fuel : nat) (calls : nat) (values : nat) : @M RS Error Value :=
  result <- Heap.allocate (ArrayObject []) ;;
  doResolveArray_loop fuel calls values 0 result.

Fixpoint doResolveObject_loop (keys : list JsString) (calls : nat) (obj result : nat)
  : @M RS Error Value :=
  match keys with
  | [] => ret (Ref result)
  | name :: keys' =>
      o <- Heap.read obj ;;
      let value :=
        match o with
        | Some (OrdinaryObject _ _ props) => default Undefined (Object_get props name)
        | _ => Undefined
        end in
      resolved <- doResolve (S calls) value ;;
      Heap.Object_assign result name resolved ;;;
      doResolveObject_loop keys' 0 obj result
  end.

Definition doResolveObject (calls : nat) (obj : nat) : @M RS Error Value :=
  result <- Heap.allocate (OrdinaryObject ObjectPrototype None []) ;;
  o <- Heap.read obj ;;
  let keys :=
    match o with
    | Some (OrdinaryObject _ _ props) => Object_keys props
    | _ => []
    end in
  doResolveObject_loop keys calls obj result.

End Traversal.

Fixpoint doResolve (fuel : nat) (depth : nat) (value : Value) : @M RS Error Value :=
  match fuel with
  | 0 => pending
  | S fuel' =>
      if decide (limit < depth) then throw RangeError
      else
        match value with
        | Undefined | Null => ret value
        | Str s => s' <- doResolveString getVariable s ;; ret (Str s')
        | Ref l =>
            o <- Heap.read l ;;
            match o with
            | Some (ArrayObject _) => doResolveArray (doResolve fuel') fuel' depth l
            | Some (OrdinaryObject _ _ _) => doResolveObject (doResolve fuel') depth l
            | None => pending
            end
        | _ => ret value
        end
  end.

(** [resolve] is called on a stack of its own. *)
Definition resolve (fuel : nat) (value : Value) : @M RS Error Value :=
  Context_new ;;;
  resolved <- doResolve fuel 1 value ;;
  ret resolved.

End Service.

End Stack.

(** How deep a value is nested: 1 for what is neither an array nor an
    object, and one more than the deepest element or visited property
    value for an array or an object. *)
Fixpoint nesting (t : JsValue) : nat :=
  match t with
  | JsArray values => S (list_max (map nesting values))
  | JsObject _ _ props =>
      S (list_max (map (fun p => visited p (fun _ v => nesting v) 0) props))
  | _ => 1
  end.

(** The arrays [[[...[]...]]], [n] deep around the empty one: location
    [i] holds the array whose one element is the array at [i + 1]. *)
Definition nested_arrays (n : nat) : list HeapObject :=
  map (fun i => ArrayObject [Ref (S i)]) (seq 0 n) ++ [ArrayObject []].

(** The tree [nested_arrays n] reads as. *)
Fixpoint nested_tree (n : nat) : JsValue :=
  match n with
  | 0 => JsArray []
  | S n' => JsArray [nested_tree n']
  end.

(** An object that is its own property and holds no string:
    [a = {}; a.self = a]. *)
Definition self_object : HeapObject :=
  OrdinaryObject ObjectPrototype None
    [mkProperty (StringKey (js "self")) true (Ref 0)].

Definition self_heap : list HeapObject := [self_object].

(** A heap with [{a: "${broken}", b: shared, c: shared}] at location 0,
    where [shared] is the array [["${X}", "${fail}", 42, null]] at
    location 1. *)
Definition failing_heap : list HeapObject :=
  [OrdinaryObject ObjectPrototype None
     [mkProperty (StringKey (js "a")) true (Str (js "${broken}"));
      mkProperty (StringKey (js "b")) true (Ref 1);
      mkProperty (StringKey (js "c")) true (Ref 1)];
   ArrayObject [Str (js "${X}"); Str (js "${fail}"); Number 42; Null]].

(** * Properties *)

(** ** The pattern and the decomposition into tokens *)

Lemma lazy_capture_Some s name rest :
  lazy_capture s = Some (name, rest) ->
  token_name name /\ s = name ++ RBRACE :: rest.
Proof.
  revert name. induction s as [|c s IH]; intros name H; simpl in H; [done|].
  destruct (c =? RBRACE)%N eqn:Hc.
  - apply N.eqb_eq in Hc. inversion H; subst. split; [constructor | done].
  - destruct (isLineTerminator c) eqn:Hl; [done|].
    destruct (lazy_capture s) as [[n r]|] eqn:Hs; [|done].
    inversion H; subst. destruct (IH n eq_refl) as [Hn ->].
    split; [|done]. constructor; [|done].
    split; [|done]. by apply N.eqb_neq.
Qed.

Lemma lazy_capture_token name rest :
  token_name name -> lazy_capture (name ++ RBRACE :: rest) = Some (name, rest).
Proof.
  induction 1 as [|c name [Hc Hl] _ IH]; simpl; [done|].
  apply N.eqb_neq in Hc. by rewrite Hc, Hl, IH.
Qed.

Lemma match_at_Some s name rest :
  match_at s = Some (name, rest) <->
  token_name name /\ s = token_text name ++ rest.
Proof.
  split.
  - destruct s as [|c1 [|c2 s]]; simpl; [done..|].
    destruct (c1 =? DOLLAR)%N eqn:H1; [|done].
    destruct (c2 =? LBRACE)%N eqn:H2; [|done]. simpl.
    apply N.eqb_eq in H1, H2. subst. intros H.
    apply lazy_capture_Some in H as [Hn ->]. split; [done|].
    unfold token_text. simpl. by rewrite <- app_assoc.
  - intros [Hn ->]. unfold token_text. simpl.
    rewrite <- app_assoc. simpl. by apply lazy_capture_token.
Qed.

Lemma match_at_None s : match_at s = None <-> ~ token_at s.
Proof.
  split.
  - intros H (name & rest & Hn & ->).
    assert (match_at (token_text name ++ rest) = Some (name, rest)) as E
      by by apply match_at_Some.
    congruence.
  - intros H. destruct (match_at s) as [[name rest]|] eqn:E; [|done].
    apply match_at_Some in E as [Hn ->]. destruct H. by exists name, rest.
Qed.

Lemma token_at_dec s : {token_at s} + {~ token_at s}.
Proof.
  destruct (match_at s) as [[name rest]|] eqn:E.
  - left. apply match_at_Some in E as [Hn ->]. by exists name, rest.
  - right. by apply match_at_None.
Qed.

Lemma length_token_text name : length (token_text name) = 3 + length name.
Proof. unfold token_text. simpl. rewrite length_app. simpl. lia. Qed.

(** Every string has a decomposition... *)
Lemma Tokens_total s : exists ps, Tokens s ps.
Proof.
  remember (length s) as n eqn:Hn. revert s Hn.
  induction n as [n IH] using lt_wf_ind. intros s ->.
  destruct s as [|c s]; [exists []; constructor|].
  destruct (token_at_dec (c :: s)) as [(name & rest & Hname & E)|Hno].
  - destruct (IH (length rest)) with (s := rest) as [ps Hps]; [|done|].
    + rewrite E, length_app, length_token_text. lia.
    + exists (Tok name :: ps). rewrite E. by constructor.
  - destruct (IH (length s)) with (s := s) as [ps Hps]; [simpl; lia|done|].
    exists (Chr c :: ps). by constructor.
Qed.

Lemma Tokens_inv s ps :
  Tokens s ps ->
  match match_at s with
  | Some (name, rest) => exists ps', ps = Tok name :: ps' /\ Tokens rest ps'
  | None =>
      match s with
      | [] => ps = []
      | c :: s' => exists ps', ps = Chr c :: ps' /\ Tokens s' ps'
      end
  end.
Proof.
  destruct 1 as [|name rest ps Hn Hps|c s ps Hno Hps].
  - done.
  - rewrite (proj2 (match_at_Some _ name rest)) by done. eauto.
  - rewrite (proj2 (match_at_None _)) by done. eauto.
Qed.

(** ... and only one. *)
Lemma Tokens_functional s ps1 ps2 : Tokens s ps1 -> Tokens s ps2 -> ps1 = ps2.
Proof.
  intros H1. revert ps2.
  induction H1 as [|name rest ps Hn _ IH|c s ps Hno _ IH]; intros ps2 H2;
    apply Tokens_inv in H2.
  - done.
  - rewrite (proj2 (match_at_Some _ name rest)) in H2 by done.
    destruct H2 as (ps' & -> & H2). f_equal. by apply IH.
  - rewrite (proj2 (match_at_None _)) in H2 by done.
    destruct H2 as (ps' & -> & H2). f_equal. by apply IH.
Qed.

Lemma pieces_from_skip pre rest :
  pieces_from (pre ++ rest) (length pre) = pieces_from rest 0.
Proof.
  induction pre as [|c pre IH]; [|done].
  simpl. by destruct rest.
Qed.

Lemma pieces_from_cons s c t :
  s = c :: t ->
  pieces_from s 0 =
    match match_at s with
    | Some (name, _) => Tok name :: pieces_from t (2 + length name)
    | None => Chr c :: pieces_from t 0
    end.
Proof. by intros ->. Qed.

Lemma pieces_from_token name rest :
  token_name name ->
  pieces_from (token_text name ++ rest) 0 = Tok name :: pieces_from rest 0.
Proof.
  intros Hn.
  pose proof (proj2 (match_at_Some _ name rest) (conj Hn eq_refl)) as E.
  rewrite (pieces_from_cons _ DOLLAR ((LBRACE :: name ++ [RBRACE]) ++ rest)) by done.
  rewrite E. f_equal.
  rewrite <- (pieces_from_skip (LBRACE :: name ++ [RBRACE]) rest). f_equal.
  simpl. rewrite length_app. simpl. lia.
Qed.

(** [pieces] computes the decomposition. *)
Lemma Tokens_pieces s : Tokens s (pieces s).
Proof.
  destruct (Tokens_total s) as [ps H]. unfold pieces.
  induction H as [|name rest ps Hn _ IH|c s ps Hno _ IH].
  - constructor.
  - rewrite pieces_from_token by done. by constructor.
  - rewrite (pieces_from_cons _ c s), (proj2 (match_at_None _)) by done.
    by constructor.
Qed.

Lemma Tokens_pieces_eq s ps : Tokens s ps -> ps = pieces s.
Proof. intros H. exact (Tokens_functional _ _ _ H (Tokens_pieces s)). Qed.

(** A decomposition has no token exactly when the pattern matches at no
    position of the string. *)
Lemma no_token_iff s ps :
  Tokens s ps -> names ps = [] <-> forall i, match_at (drop i s) = None.
Proof.
  induction 1 as [|name rest ps Hn _ _|c s ps Hno _ IH].
  - split; [|done]. intros _ i. by rewrite drop_nil.
  - split; [done|]. intros H. specialize (H 0). rewrite drop_0 in H.
    by rewrite (proj2 (match_at_Some _ name rest)) in H.
  - simpl. rewrite IH. split.
    + intros H [|i]; [by apply match_at_None|apply H].
    + intros H i. apply (H (S i)).
Qed.

Lemma Tokens_names_length s ps : Tokens s ps -> length (names ps) <= length s.
Proof.
  induction 1; [done| |simpl; lia].
  rewrite length_app, length_token_text. simpl. lia.
Qed.

Lemma search_unfold s i :
  search s i =
    match match_at s with
    | Some (name, _) =>
        Some ({| index := i; matched := take (3 + length name) s; group1 := name |},
              i + (3 + length name))
    | None => match s with [] => None | _ :: s' => search s' (S i) end
    end.
Proof. by destruct s. Qed.

Lemma search_Tokens s ps i :
  Tokens s ps ->
  search s i =
    match matches_of ps i with
    | [] => None
    | m :: _ => Some (m, index m + length (matched m))
    end.
Proof.
  intros H. revert i. induction H as [|name rest ps Hn _ _|c s ps Hno _ IH]; intros i.
  - done.
  - rewrite search_unfold, (proj2 (match_at_Some _ name rest)) by done.
    cbn [matches_of index matched].
    by rewrite <- !length_token_text, take_app_length.
  - rewrite search_unfold, (proj2 (match_at_None _)) by done. apply IH.
Qed.

Lemma matches_of_first s ps i m ms :
  Tokens s ps ->
  matches_of ps i = m :: ms ->
  let e := index m + length (matched m) in
  i <= index m /\
  ms = matches_of (after_first ps) e /\
  names ps = group1 m :: names (after_first ps) /\
  Tokens (drop (e - i) s) (after_first ps).
Proof.
  intros H. revert i. induction H as [|name rest ps Hn Hps _|c s ps Hno _ IH];
    intros i Hm; cbn [matches_of after_first names] in *.
  - done.
  - inversion Hm; subst; cbn [index matched group1].
    rewrite length_token_text.
    split; [lia|]. split; [done|]. split; [done|].
    replace (i + (3 + length name) - i) with (length (token_text name))
      by (rewrite length_token_text; lia).
    by rewrite drop_app_length.
  - destruct (IH _ Hm) as (Hi & -> & Hnames & HT).
    split; [lia|]. split; [done|]. split; [done|].
    replace (index m + length (matched m) - i)
      with (S (index m + length (matched m) - S i)) by lia.
    done.
Qed.

Lemma matches_of_nil ps i : matches_of ps i = [] -> names ps = [].
Proof.
  revert i. induction ps as [|[c|name] ps IH]; intros i H; simpl in *; eauto; done.
Qed.

(** ** The Context *)

Section ContextFacts.

Context {RS Error : Type}.
Variable getVariable :
  JsString -> RS -> Completion Error (option (RegisteredVariable RS Error)) * RS.

Implicit Types (st : State RS Error) (name : JsString).

Lemma Context_resolve_eq name st :
  Context_resolve getVariable name st = (Fulfilled tt, cache_step getVariable st name).
Proof.
  unfold Context_resolve, cache_step, lookup, bind, Map_has, try_catch,
    registry_getVariable, await, Map_set, console_error, ret.
  destruct st as [h li res rs lk co]; simpl.
  destruct (res !! name) as [v|] eqn:E; simpl.
  - done.
  - destruct (getVariable name rs) as [[[var|]|e] rs1]; simpl.
    + destruct (Variable_resolve var rs1) as [[value|e] rs2]; simpl.
      * by rewrite app_nil_r.
      * done.
    + by rewrite app_nil_r.
    + done.
Qed.

Lemma cache_step_lastIndex st name :
  lastIndex (cache_step getVariable st name) = lastIndex st.
Proof.
  unfold cache_step. destruct (resolved st !! name); [done|].
  by destruct (lookup getVariable name (registry st)) as [[? ?] ?].
Qed.

Lemma cache_step_with_lastIndex i st name :
  cache_step getVariable (with_lastIndex i st) name =
  with_lastIndex i (cache_step getVariable st name).
Proof.
  unfold cache_step, with_lastIndex. simpl.
  destruct (resolved st !! name); [done|].
  by destruct (lookup getVariable name (registry st)) as [[? ?] ?].
Qed.

Lemma cache_steps_with_lastIndex i st ns :
  foldl (cache_step getVariable) (with_lastIndex i st) ns =
  with_lastIndex i (foldl (cache_step getVariable) st ns).
Proof.
  revert st. induction ns as [|n ns IH]; intros st; simpl; [done|].
  by rewrite cache_step_with_lastIndex, IH.
Qed.

Lemma with_lastIndex_same st : with_lastIndex (lastIndex st) st = st.
Proof. by destruct st. Qed.

Lemma with_lastIndex_twice i j st :
  with_lastIndex i (with_lastIndex j st) = with_lastIndex i st.
Proof. done. Qed.

End ContextFacts.

(** ** Scanning and substituting one string *)

Section StringFacts.

Context {RS Error : Type}.
Variable getVariable :
  JsString -> RS -> Completion Error (option (RegisteredVariable RS Error)) * RS.

Implicit Types (st : State RS Error) (name str : JsString).

Lemma RegExp_exec_Tokens str st ps :
  Tokens (drop (lastIndex st) str) ps ->
  RegExp_exec str st =
    match matches_of ps (lastIndex st) with
    | [] => (Fulfilled None, with_lastIndex 0 st)
    | m :: _ => (Fulfilled (Some m), with_lastIndex (index m + length (matched m)) st)
    end.
Proof.
  intros H. unfold RegExp_exec. rewrite (search_Tokens _ ps) by done.
  by destruct (matches_of ps (lastIndex st)).
Qed.

(** The scan loop asks the Context for the name of every token, in order,
    and leaves [lastIndex] at 0. *)
Lemma resolveVariables_loop_eq fuel str st ps :
  Tokens (drop (lastIndex st) str) ps ->
  length (names ps) < fuel ->
  resolveVariables_loop getVariable fuel str st =
    (Fulfilled tt, with_lastIndex 0 (foldl (cache_step getVariable) st (names ps))).
Proof.
  revert st ps. induction fuel as [|fuel IH]; intros st ps HT Hfuel; [lia|].
  cbn [resolveVariables_loop]. unfold bind at 1.
  rewrite (RegExp_exec_Tokens _ _ ps) by done.
  destruct (matches_of ps (lastIndex st)) as [|m ms] eqn:Hm.
  - by rewrite (matches_of_nil _ _ Hm).
  - destruct (matches_of_first _ _ _ _ _ HT Hm) as (Hi & _ & Hn & HT').
    unfold bind. rewrite Context_resolve_eq.
    rewrite cache_step_with_lastIndex.
    rewrite (IH _ (after_first ps)).
    + rewrite Hn. cbn [foldl].
      by rewrite cache_steps_with_lastIndex, with_lastIndex_twice.
    + simpl. rewrite drop_drop in HT'.
      by replace (lastIndex st + (index m + length (matched m) - lastIndex st))
        with (index m + length (matched m)) in HT' by lia.
    + rewrite Hn in Hfuel. simpl in Hfuel. lia.
Qed.

Lemma collect_matches_eq fuel str st ps :
  Tokens (drop (lastIndex st) str) ps ->
  length (names ps) < fuel ->
  collect_matches fuel str st =
    (Fulfilled (matches_of ps (lastIndex st)), with_lastIndex 0 st).
Proof.
  revert st ps. induction fuel as [|fuel IH]; intros st ps HT Hfuel; [lia|].
  cbn [collect_matches]. unfold bind at 1.
  rewrite (RegExp_exec_Tokens _ _ ps) by done.
  destruct (matches_of ps (lastIndex st)) as [|m ms] eqn:Hm; [done|].
  destruct (matches_of_first _ _ _ _ _ HT Hm) as (Hi & -> & Hn & HT').
  unfold bind. rewrite (IH _ (after_first ps)).
  + done.
  + simpl. rewrite drop_drop in HT'.
    by replace (lastIndex st + (index m + length (matched m) - lastIndex st))
      with (index m + length (matched m)) in HT' by lia.
  + rewrite Hn in Hfuel. simpl in Hfuel. lia.
Qed.

Lemma replacements_eq st ms :
  replacements
    (fun match_ varName =>
       bind (Context_get varName) (fun varValue =>
       ret (match varValue with Some v => v | None => match_ end)))
    ms st =
  (Fulfilled (map (fun m => (m, replacement_of st m)) ms), st).
Proof.
  induction ms as [|m ms IH]; [done|].
  cbn [replacements]. unfold bind at 1. unfold bind at 1.
  unfold Context_get at 1, ret at 1. unfold bind at 1. by rewrite IH.
Qed.

Lemma substring_snoc from to str c s :
  from <= to -> drop to str = c :: s ->
  substring from (S to) str = substring from to str ++ [c].
Proof.
  intros Hle Hd. unfold substring.
  replace (S to - from) with (S (to - from)) by lia.
  apply take_S_r. rewrite lookup_drop.
  replace (from + (to - from)) with to by lia.
  rewrite <- (Nat.add_0_r to), <- lookup_drop, Hd. done.
Qed.

Lemma assemble_Tokens get s ps :
  Tokens s ps ->
  forall str off nsp acc,
    drop off str = s -> nsp <= off ->
    assemble str
      (map (fun m => (m, match get (group1 m) with
                         | Some v => v
                         | None => matched m
                         end)) (matches_of ps off)) nsp acc =
    acc ++ substring nsp off str ++ substitute get ps.
Proof.
  induction 1 as [|name rest ps Hn _ IH|c s ps Hno _ IH]; intros str off nsp acc Hd Hle.
  - simpl. rewrite app_nil_r. unfold substring. f_equal.
    rewrite take_ge; [done|]. rewrite length_drop.
    apply (f_equal length) in Hd. rewrite length_drop in Hd. simpl in Hd. lia.
  - cbn [matches_of map assemble index matched group1 substitute].
    rewrite decide_True by done.
    rewrite length_token_text. rewrite IH; [| |lia].
    + unfold substring at 2. rewrite Nat.sub_diag, take_0.
      by rewrite <- !app_assoc.
    + rewrite <- length_token_text, <- drop_drop, Hd. apply drop_app_length.
  - cbn [matches_of substitute].
    rewrite (IH str (S off) nsp acc); [| |lia].
    + rewrite (substring_snoc _ _ _ c s) by done. by rewrite <- app_assoc.
    + replace (S off) with (off + 1) by lia. by rewrite <- drop_drop, Hd.
Qed.

(** [doResolveString] from any state: the scan starts where [lastIndex]
    points, the substitution pass at 0. *)
Lemma doResolveString_eq value st ps0 ps :
  Tokens (drop (lastIndex st) value) ps0 ->
  Tokens value ps ->
  let st' := with_lastIndex 0 (foldl (cache_step getVariable) st (names ps0)) in
  doResolveString getVariable value st =
    (Fulfilled (substitute (cached st') ps), st').
Proof.
  intros H0 H st'. unfold doResolveString, resolveVariables.
  unfold bind at 1. rewrite (resolveVariables_loop_eq _ _ _ ps0); [|done|].
  2: { apply Tokens_names_length in H0. rewrite length_drop in H0. lia. }
  fold st'. unfold String_replace. unfold bind at 1. unfold set_lastIndex at 1.
  unfold bind at 1. rewrite (collect_matches_eq _ _ _ ps); [|done|].
  2: { apply Tokens_names_length in H. simpl. lia. }
  unfold bind at 1.
  rewrite replacements_eq. unfold ret.
  change (with_lastIndex 0 st') with st'. f_equal.
  change (lastIndex st') with 0. unfold replacement_of.
  by rewrite (assemble_Tokens (cached (with_lastIndex 0 st')) value ps H value 0 0 []).
Qed.

End StringFacts.

(** ** The traversal *)

(** Induction over values, the elements of an array and the property values
    of an object included. *)
Lemma JsValue_nested_ind (P : JsValue -> Prop) :
  P JsUndefined -> P JsNull ->
  (forall b, P (JsBoolean b)) -> (forall bits, P (JsNumber bits)) ->
  (forall n, P (JsBigInt n)) -> (forall id, P (JsSymbol id)) ->
  (forall s, P (JsStr s)) ->
  (forall values, Forall P values -> P (JsArray values)) ->
  (forall proto internal props,
     Forall (fun p => P (value p)) props -> P (JsObject proto internal props)) ->
  forall v, P v.
Proof.
  intros Hu Hn Hb Hnum Hbig Hsym Hs Ha Ho.
  fix IH 1. intros [| |b|bits|n|id|s|values|proto internal props].
  - exact Hu.
  - exact Hn.
  - apply Hb.
  - apply Hnum.
  - apply Hbig.
  - apply Hsym.
  - apply Hs.
  - apply Ha. induction values as [|v values IHv]; constructor; [apply IH|exact IHv].
  - apply Ho. induction props as [|[k e v] props IHp]; constructor; [apply IH|exact IHp].
Qed.

Section CacheFacts.

Context {RS Error : Type}.
Variable getVariable :
  JsString -> RS -> Completion Error (option (RegisteredVariable RS Error)) * RS.

Implicit Types (st : State RS Error) (name n : JsString) (ns : list JsString).

Local Abbreviation step := (cache_step getVariable).

Lemma cache_step_kept st n' n x :
  resolved st !! n = Some x -> resolved (step st n') !! n = Some x.
Proof.
  intros H. unfold cache_step. destruct (resolved st !! n') eqn:E; [done|].
  destruct (lookup getVariable n' (registry st)) as [[v errs] rs]. simpl.
  rewrite lookup_insert_ne; [done|]. intros ->. congruence.
Qed.

Lemma cache_step_present st n : is_Some (resolved (step st n) !! n).
Proof.
  unfold cache_step. destruct (resolved st !! n) eqn:E; [by rewrite E|].
  destruct (lookup getVariable n (registry st)) as [[v errs] rs]. simpl.
  rewrite lookup_insert_eq. eauto.
Qed.

Lemma cache_step_absent st n' n :
  n <> n' -> resolved st !! n = None -> resolved (step st n') !! n = None.
Proof.
  intros Hne H. unfold cache_step. destruct (resolved st !! n') eqn:E; [done|].
  destruct (lookup getVariable n' (registry st)) as [[v errs] rs]. simpl.
  by rewrite lookup_insert_ne.
Qed.

Lemma cache_steps_kept st ns n x :
  resolved st !! n = Some x -> resolved (foldl step st ns) !! n = Some x.
Proof.
  revert st. induction ns as [|n' ns IH]; intros st H; [done|].
  simpl. apply IH. by apply cache_step_kept.
Qed.

Lemma cache_steps_present st ns n :
  n ∈ ns -> is_Some (resolved (foldl step st ns) !! n).
Proof.
  revert st. induction ns as [|n' ns IH]; intros st H; [by apply elem_of_nil in H|].
  apply elem_of_cons in H as [->|H]; simpl; [|by apply IH].
  destruct (cache_step_present st n') as [x Hx].
  exists x. by apply cache_steps_kept.
Qed.

Lemma cache_steps_lastIndex st ns : lastIndex (foldl step st ns) = lastIndex st.
Proof.
  revert st. induction ns as [|n ns IH]; intros st; [done|].
  simpl. by rewrite IH, cache_step_lastIndex.
Qed.

Lemma cached_kept st ns n :
  is_Some (resolved st !! n) -> cached (foldl step st ns) n = cached st n.
Proof.
  intros [x Hx]. unfold cached. by rewrite (cache_steps_kept _ _ _ _ Hx), Hx.
Qed.

(** A name that is not in the cache and is asked for gets the value its
    lookup yields, provided the lookup yields it in every state of the
    registry. *)
Lemma cache_steps_value st ns n v :
  resolved st !! n = None -> n ∈ ns ->
  (forall rs, (lookup getVariable n rs).1.1 = v) ->
  cached (foldl step st ns) n = v.
Proof.
  intros Hnone Hin Hv. revert st Hnone.
  induction ns as [|n' ns IH]; intros st Hnone; [by apply elem_of_nil in Hin|].
  simpl. destruct (decide (n = n')) as [<-|Hne].
  - assert (resolved (step st n) !! n = Some v) as Hs.
    { unfold cache_step. rewrite Hnone. specialize (Hv (registry st)).
      destruct (lookup getVariable n (registry st)) as [[v' errs] rs].
      simpl in *. subst. apply lookup_insert_eq. }
    unfold cached. by rewrite (cache_steps_kept _ _ _ _ Hs).
  - apply elem_of_cons in Hin as [?|Hin]; [done|].
    apply IH; [done|]. by apply cache_step_absent.
Qed.

(** The calls to [getVariable] a sequence of requests makes: one for each
    name that was not in the cache, and no name twice. *)
Lemma cache_steps_lookups st ns :
  exists new,
    lookups (foldl step st ns) = lookups st ++ new /\
    NoDup new /\
    (forall n, n ∈ new <-> n ∈ ns /\ resolved st !! n = None).
Proof.
  revert st. induction ns as [|n' ns IH]; intros st.
  - exists []. rewrite app_nil_r. split; [done|]. split; [constructor|].
    intros n. rewrite !elem_of_nil. tauto.
  - simpl. destruct (IH (step st n')) as (new & Hl & Hnd & Hin).
    destruct (resolved st !! n') as [x|] eqn:E.
    + assert (step st n' = st) as Hst by (unfold cache_step; by rewrite E).
      rewrite Hst in *. exists new. split; [done|]. split; [done|].
      intros n. rewrite Hin, elem_of_cons. split; [tauto|].
      intros [[->|?] ?]; [congruence|tauto].
    + assert (lookups (step st n') = lookups st ++ [n']) as Hlk.
      { unfold cache_step. rewrite E.
        by destruct (lookup getVariable n' (registry st)) as [[? ?] ?]. }
      exists (n' :: new). rewrite Hl, Hlk, <- app_assoc. split; [done|].
      split.
      * constructor; [|done]. rewrite Hin. intros [_ Hn].
        destruct (cache_step_present st n') as [x Hx]. congruence.
      * intros n. rewrite elem_of_cons, Hin, elem_of_cons.
        split.
        -- intros [->|[Hn Hnone]]; [tauto|]. split; [tauto|].
           destruct (resolved st !! n) as [x|] eqn:En; [|done].
           by rewrite (cache_step_kept _ _ _ _ En) in Hnone.
        -- intros [[->|Hn] Hnone]; [tauto|].
           destruct (decide (n = n')) as [->|Hne]; [tauto|].
           right. split; [done|]. by apply cache_step_absent.
Qed.

Lemma request_all_eq ns st :
  request_all getVariable ns st = (Fulfilled tt, foldl step st ns).
Proof.
  revert st. induction ns as [|n ns IH]; intros st; [done|].
  cbn [request_all]. unfold bind. by rewrite Context_resolve_eq, IH.
Qed.

End CacheFacts.

Section TraversalFacts.

Context {RS Error : Type}.
Variable getVariable :
  JsString -> RS -> Completion Error (option (RegisteredVariable RS Error)) * RS.

Implicit Types (st : State RS Error) (name n : JsString) (ns : list JsString).
Implicit Types (get : JsString -> option JsString).

Local Abbreviation step := (cache_step getVariable).

Lemma substitute_ext get1 get2 ps :
  (forall n, n ∈ names ps -> get1 n = get2 n) ->
  substitute get1 ps = substitute get2 ps.
Proof.
  induction ps as [|[c|name] ps IH]; intros H; simpl in *; [done| |].
  - f_equal. by apply IH.
  - rewrite (H name) by (apply elem_of_cons; by left). f_equal. apply IH.
    intros n Hn. apply H, elem_of_cons. by right.
Qed.

Lemma substitute_value_ext get1 get2 v :
  (forall n, n ∈ value_names v -> get1 n = get2 n) ->
  substitute_value get1 v = substitute_value get2 v.
Proof.
  induction v as [| | | | | |s|values IH|proto internal props IH]
    using JsValue_nested_ind; intros H; try done.
  - simpl. f_equal. by apply substitute_ext.
  - simpl. f_equal. simpl in H. induction IH as [|v values Hv _ IHvs]; [done|].
    simpl in *. f_equal.
    + apply Hv. intros n Hn. apply H, elem_of_app. by left.
    + apply IHvs. intros n Hn. apply H, elem_of_app. by right.
  - cbn [substitute_value]. cbn [value_names] in H.
    generalize (@ObjectPrototype JsValue, @nil (Property JsValue)).
    induction IH as [|p props Hp _ IHps]; intros result; [done|].
    cbn [foldl flat_map] in *.
    assert (forall n, n ∈ flat_map (fun p => visited p (fun _ v' => value_names v') []) props
              -> get1 n = get2 n) as Hrest.
    { intros n Hn. apply H, elem_of_app. by right. }
    specialize (IHps Hrest).
    destruct p as [[name|id] [|] v]; cbn [visited] in *; try apply IHps.
    simpl in Hp. rewrite Hp; [apply IHps|].
    intros n Hn. apply H, elem_of_app. by left.
Qed.

(** The loop of [doResolveArray], when every element satisfies the
    equation of the traversal. *)
Lemma doResolveArray_loop_eq values :
  Forall (fun v => forall st, lastIndex st = 0 ->
    doResolve getVariable v st =
      (Fulfilled (substitute_value (cached (foldl step st (value_names v))) v),
       foldl step st (value_names v))) values ->
  forall result st, lastIndex st = 0 ->
    let st' := foldl step st (flat_map value_names values) in
    doResolveArray_loop (doResolve getVariable) values result st =
      (Fulfilled (JsArray (result ++ map (substitute_value (cached st')) values)), st').
Proof.
  induction 1 as [|v values Hv _ IH]; intros result st Hli; simpl.
  - by rewrite app_nil_r.
  - unfold bind. rewrite Hv by done.
    rewrite IH by (by rewrite cache_steps_lastIndex).
    rewrite foldl_app, <- app_assoc. simpl. do 5 f_equal.
    apply substitute_value_ext. intros n Hn. symmetry.
    apply cached_kept. by apply cache_steps_present.
Qed.

Lemma doResolveObject_loop_eq props :
  Forall (fun p => forall st, lastIndex st = 0 ->
    doResolve getVariable (value p) st =
      (Fulfilled (substitute_value (cached (foldl step st (value_names (value p)))) (value p)),
       foldl step st (value_names (value p)))) props ->
  forall result st, lastIndex st = 0 ->
    let st' :=
      foldl step st (flat_map (fun p => visited p (fun _ v' => value_names v') []) props) in
    let result' :=
      foldl (fun result p =>
               visited p (fun name v' =>
                 Object_set JsValue_as_prototype result name
                   (substitute_value (cached st') v'))
                 result) result props in
    doResolveObject_loop (doResolve getVariable) props result st =
      (Fulfilled (JsObject result'.1 None result'.2), st').
Proof.
  induction 1 as [|p props Hp _ IH]; intros result st Hli; [done|].
  destruct p as [[name|id] [|] v]; cbn [doResolveObject_loop visited flat_map foldl app];
    try (by apply IH).
  unfold bind. simpl in Hp. rewrite Hp by done.
  rewrite IH by (by rewrite cache_steps_lastIndex).
  rewrite foldl_app.
  set (st1 := foldl step st (value_names v)).
  set (st2 := foldl step st1 _).
  assert (substitute_value (cached st1) v = substitute_value (cached st2) v) as E.
  { apply substitute_value_ext. intros n Hn. symmetry.
    apply cached_kept. by apply cache_steps_present. }
  by rewrite E.
Qed.

(** The traversal, from a state in which no scan is under way: it asks
    the Context for the token names of the value in the order of the
    traversal, and returns the value with every token replaced by what
    the Context has for its name at the end. *)
Lemma doResolve_eq value st :
  lastIndex st = 0 ->
  let st' := foldl step st (value_names value) in
  doResolve getVariable value st =
    (Fulfilled (substitute_value (cached st') value), st').
Proof.
  revert st.
  induction value as [| | | | | |s|values IH|proto internal props IH]
    using JsValue_nested_ind; intros st Hli; try done.
  - cbn [doResolve value_names substitute_value]. unfold bind.
    rewrite (doResolveString_eq _ _ _ (pieces s) (pieces s)).
    + rewrite <- (cache_steps_lastIndex getVariable st (names (pieces s))) in Hli.
      rewrite <- Hli at 1 2. by rewrite with_lastIndex_same.
    + rewrite Hli. apply Tokens_pieces.
    + apply Tokens_pieces.
  - cbn [doResolve value_names substitute_value]. unfold doResolveArray.
    by rewrite doResolveArray_loop_eq.
  - cbn [doResolve value_names substitute_value]. unfold doResolveObject.
    by rewrite doResolveObject_loop_eq.
Qed.

End TraversalFacts.

(** ** Rebuilding an object, property by property *)

Section ObjectFacts.

Context {V : Type}.
Implicit Types (props : list (Property V)) (es : list (JsString * V)).

Lemma Object_entries_props es : Object_entries (entries_props es) = es.
Proof. induction es as [|[n v] es IH]; simpl; by rewrite ?IH. Qed.

Lemma keys_entries_props es : map key (entries_props es) = map StringKey es.*1.
Proof. induction es as [|[n v] es IH]; simpl; by rewrite ?IH. Qed.

Lemma insert_property_last name (v : V) props :
  Forall (fun p => listed_before (key p) name = true) props ->
  insert_property name v props = props ++ [mkProperty (StringKey name) true v].
Proof.
  induction 1 as [|p props Hp _ IH]; simpl; [done|]. by rewrite Hp, IH.
Qed.

(** Assigning a new name that is not [__proto__], and that
    [[OwnPropertyKeys]] lists after the keys the object has, appends the
    property. *)
Lemma Object_set_last as_prototype es name (v : V) :
  forallb (fun n => listed_before (StringKey n) name) es.*1 = true ->
  name ∉ es.*1 -> name <> PROTO ->
  Object_set as_prototype (ObjectPrototype, entries_props es) name v =
    (ObjectPrototype, entries_props (es ++ [(name, v)])).
Proof.
  intros Hord Hnew Hproto. unfold Object_set, has_own_property.
  rewrite bool_decide_eq_false_2.
  - rewrite decide_False by done. f_equal.
    rewrite insert_property_last.
    + unfold entries_props. by rewrite map_app.
    + apply Forall_forall. intros p Hp.
      apply list_elem_of_fmap in Hp as [[n w] [-> Hin]]. simpl.
      rewrite forallb_forall in Hord. apply Hord, list_elem_of_In.
      apply list_elem_of_fmap. by exists (n, w).
  - rewrite keys_entries_props. intros Hin.
    apply list_elem_of_fmap in Hin as [n [Hn Hin]]. by inversion Hn; subst.
Qed.

End ObjectFacts.

Section RebuildFacts.

Variable f : JsValue -> JsValue.

Lemma foldl_Object_set props :
  forall es,
    ordered_keys es.*1 (Object_keys props) = true ->
    PROTO ∉ Object_keys props ->
    foldl (fun result p =>
             visited p (fun name v' =>
               Object_set JsValue_as_prototype result name (f v')) result)
      (ObjectPrototype, entries_props es) props =
    (ObjectPrototype,
     entries_props (es ++ map (fun e => (e.1, f e.2)) (Object_entries props))).
Proof.
  induction props as [|[[name|id] [|] v] props IH]; intros es Hord Hproto;
    cbn [foldl visited Object_keys Object_entries key enumerable map] in *;
    try (by apply IH).
  - by rewrite app_nil_r.
  - cbn [ordered_keys] in Hord.
    apply andb_prop in Hord as [Hord Hrest]. apply andb_prop in Hord as [Hlb Hnew].
    apply bool_decide_eq_true in Hnew.
    apply not_elem_of_cons in Hproto as [Hne Hproto].
    rewrite Object_set_last by done.
    rewrite IH.
    + by rewrite <- app_assoc.
    + by rewrite fmap_app.
    + done.
Qed.

End RebuildFacts.

(** ** What the substitution keeps *)

Lemma substitute_untouched get s ps :
  Tokens s ps ->
  (forall n, n ∈ names ps -> get n = None) ->
  substitute get ps = s.
Proof.
  induction 1 as [|name rest ps Hn _ IH|c s ps Hno _ IH]; intros H; simpl in *.
  - done.
  - rewrite (H name) by (apply elem_of_cons; by left).
    rewrite IH; [done|]. intros n Hin. apply H, elem_of_cons. by right.
  - by rewrite IH.
Qed.

Lemma substitute_value_copyable get proto internal props :
  ordered_keys [] (Object_keys props) = true ->
  PROTO ∉ Object_keys props ->
  substitute_value get (JsObject proto internal props) =
    JsObject ObjectPrototype None
      (entries_props
         (map (fun e => (e.1, substitute_value get e.2)) (Object_entries props))).
Proof.
  intros Hord Hproto. cbn [substitute_value].
  change (@nil (Property JsValue)) with (@entries_props JsValue []).
  by rewrite (foldl_Object_set (substitute_value get) props []).
Qed.

Lemma copyable_object proto internal props :
  copyable (JsObject proto internal props) = true ->
  ordered_keys [] (Object_keys props) = true /\
  (PROTO ∉ Object_keys props) /\
  Forall (fun e => copyable e.2 = true) (Object_entries props).
Proof.
  cbn [copyable]. intros H.
  apply andb_prop in H as [H Hall]. apply andb_prop in H as [Hord Hproto].
  apply bool_decide_eq_true in Hproto. split; [done|]. split; [done|].
  clear Hord Hproto.
  induction props as [|[[name|id] [|] v] props IH]; simpl in *;
    try apply andb_prop in Hall as [Hv Hall]; try constructor; auto.
Qed.

Lemma Forall_entries (P : JsValue -> Prop) (props : list (Property JsValue)) :
  Forall (fun p => P (value p)) props ->
  Forall (fun e => P e.2) (Object_entries props).
Proof.
  induction 1 as [|[[name|id] [|] v] props Hp _ IH]; simpl; try constructor; auto.
Qed.

(** Where no visited object has a key named [__proto__], the value built
    has the shape of the value given. *)
Lemma same_shape_substitute get v :
  copyable v = true -> same_shape v (substitute_value get v).
Proof.
  induction v as [| | | | | |s|values IH|proto internal props IH]
    using JsValue_nested_ind; intros Hc; try (by constructor).
  - cbn [substitute_value]. constructor.
    cbn [copyable] in Hc. rewrite forallb_forall in Hc.
    induction IH as [|v values Hv _ IHvs]; [constructor|].
    simpl. constructor.
    + apply Hv, Hc. by left.
    + apply IHvs. intros x Hx. apply Hc. by right.
  - destruct (copyable_object _ _ _ Hc) as (Hord & Hproto & Hall).
    rewrite substitute_value_copyable by done. constructor.
    rewrite Object_entries_props.
    apply (Forall_entries
             (fun v => copyable v = true -> same_shape v (substitute_value get v))) in IH.
    induction IH as [|e es He _ IHes]; [constructor|].
    inversion Hall; subst. simpl. constructor; [|by apply IHes].
    split; [done|]. by apply He.
Qed.

Lemma plain_object_props (props : list (Property JsValue)) :
  forallb (fun p => visited p (fun _ v' => plain_data v') false) props = true ->
  entries_props (Object_entries props) = props /\
  Forall (fun e => plain_data e.2 = true) (Object_entries props).
Proof.
  induction props as [|[[name|id] [|] v] props IH]; simpl; intros H; try done.
  apply andb_prop in H as [Hv H]. destruct (IH H) as [-> Hall].
  split; [done|]. by constructor.
Qed.

(** Plain data in which [get] has no value for any token is built again as
    it is. *)
Lemma substitute_value_plain get v :
  plain_data v = true -> copyable v = true ->
  (forall n, n ∈ value_names v -> get n = None) ->
  substitute_value get v = v.
Proof.
  induction v as [| | | | | |s|values IH|proto internal props IH]
    using JsValue_nested_ind; intros Hp Hc Hget; try done.
  - cbn [substitute_value]. f_equal.
    apply substitute_untouched; [apply Tokens_pieces|done].
  - cbn [substitute_value]. f_equal.
    cbn [plain_data copyable value_names] in *.
    rewrite forallb_forall in Hp, Hc.
    induction IH as [|v values Hv _ IHvs]; [done|].
    simpl in *. f_equal.
    + apply Hv; [apply Hp; by left|apply Hc; by left|].
      intros n Hn. apply Hget, elem_of_app. by left.
    + apply IHvs.
      * intros x Hx. apply Hp. by right.
      * intros x Hx. apply Hc. by right.
      * intros n Hn. apply Hget, elem_of_app. by right.
  - destruct (copyable_object _ _ _ Hc) as (Hord & Hproto & Hall).
    rewrite substitute_value_copyable by done.
    destruct proto; try done. destruct internal; [done|].
    cbn [plain_data] in Hp. destruct (plain_object_props _ Hp) as [Hprops Hplain].
    f_equal. rewrite <- Hprops at 2. f_equal.
    cbn [value_names] in Hget. clear Hprops Hord Hproto Hp Hc.
    induction IH as [|[[name|id] [|] v] props Hv _ IHps];
      cbn [Object_entries flat_map visited map app] in *; auto.
    inversion Hall; subst. inversion Hplain; subst. simpl in *. f_equal.
    + f_equal. apply Hv; [done..|].
      intros n Hn. apply Hget, elem_of_app. by left.
    + apply IHps; [|done..]. intros n Hn. apply Hget, elem_of_app. by right.
Qed.

(** ** The traversal from any state *)

Section ReachFacts.

Context {RS Error : Type}.
Variable getVariable :
  JsString -> RS -> Completion Error (option (RegisteredVariable RS Error)) * RS.

Implicit Types (st : State RS Error) (name n : JsString) (ns : list JsString).

Local Abbreviation step := (cache_step getVariable).

Lemma reached_refl st : reached getVariable st st.
Proof. exists (lastIndex st), []. by rewrite with_lastIndex_same. Qed.

Lemma reached_trans st1 st2 st3 :
  reached getVariable st1 st2 -> reached getVariable st2 st3 -> reached getVariable st1 st3.
Proof.
  intros (i & ns & ->) (j & ns' & ->). exists j, (ns ++ ns').
  by rewrite cache_steps_with_lastIndex, with_lastIndex_twice, foldl_app.
Qed.

Lemma doResolveString_reached value st :
  exists value' st',
    doResolveString getVariable value st = (Fulfilled value', st') /\
    reached getVariable st st'.
Proof.
  destruct (Tokens_total (drop (lastIndex st) value)) as [ps0 H0].
  eexists _, _. split.
  - by apply (doResolveString_eq getVariable value st ps0 (pieces value)), Tokens_pieces.
  - by exists 0, (names ps0).
Qed.

(** Whatever the state, the traversal returns. *)
Lemma doResolve_reached value st :
  exists v st',
    doResolve getVariable value st = (Fulfilled v, st') /\ reached getVariable st st'.
Proof.
  revert st.
  induction value as [| | | | | |s|values IH|proto internal props IH]
    using JsValue_nested_ind; intros st;
    try (eexists _, _; split; [reflexivity|apply reached_refl]).
  - destruct (doResolveString_reached s st) as (s' & st' & E & Hr).
    exists (JsStr s'), st'. split; [|done].
    cbn [doResolve]. unfold bind. by rewrite E.
  - cbn [doResolve]. unfold doResolveArray. generalize (@nil JsValue). revert st.
    induction IH as [|v values Hv _ IHvs]; intros st result.
    + eexists _, _. split; [reflexivity|apply reached_refl].
    + cbn [doResolveArray_loop]. unfold bind.
      destruct (Hv st) as (v' & st1 & -> & Hr1).
      destruct (IHvs st1 (result ++ [v'])) as (r & st2 & -> & Hr2).
      exists r, st2. split; [done|]. by apply (reached_trans _ st1).
  - cbn [doResolve]. unfold doResolveObject.
    generalize (@ObjectPrototype JsValue, @nil (Property JsValue)).
    revert st.
    induction IH as [|[[name|id] [|] v] props Hv _ IHps]; intros st result;
      cbn [doResolveObject_loop]; try apply IHps.
    + eexists _, _. split; [reflexivity|apply reached_refl].
    + unfold bind. simpl in Hv.
      destruct (Hv st) as (v' & st1 & -> & Hr1).
      destruct (IHps st1 (Object_set JsValue_as_prototype result name v'))
        as (r & st2 & -> & Hr2).
      exists r, st2. split; [done|]. by apply (reached_trans _ st1).
Qed.

(** An array of strings comes back as an array of as many strings. *)
Lemma doResolveArray_loop_strings (values : list JsString) :
  forall result st,
  exists ss st',
    doResolveArray_loop (doResolve getVariable) (map JsStr values) result st =
      (Fulfilled (JsArray (result ++ map JsStr ss)), st') /\
    length ss = length values.
Proof.
  induction values as [|s values IH]; intros result st.
  - exists [], st. by rewrite app_nil_r.
  - cbn [map doResolveArray_loop doResolve]. unfold bind.
    destruct (doResolveString_reached s st) as (s' & st1 & -> & _).
    unfold ret at 1.
    destruct (IH (result ++ [JsStr s']) st1) as (ss & st2 & -> & Hlen).
    exists (s' :: ss), st2. rewrite <- app_assoc. simpl. by rewrite Hlen.
Qed.

Lemma resolve_unfold value st :
  resolve getVariable value st =
    match doResolve getVariable value (fresh_context st) with
    | (Fulfilled v, st') => (Fulfilled v, st')
    | (Rejected e, st') => (Rejected e, st')
    | (Pending, st') => (Pending, st')
    end.
Proof.
  unfold resolve, bind, Context_new, ret, fresh_context.
  by destruct (doResolve getVariable value _) as [[v|e|] st'].
Qed.

(** [resolve] from a state in which no scan is under way. *)
Lemma resolve_eq value st :
  lastIndex st = 0 ->
  let st' := foldl step (fresh_context st) (value_names value) in
  resolve getVariable value st =
    (Fulfilled (substitute_value (cached st') value), st').
Proof.
  intros Hli st'. rewrite resolve_unfold.
  by rewrite (doResolve_eq getVariable value (fresh_context st)).
Qed.

End ReachFacts.

(** ** The heap *)

Section HeapFacts.

Context {RS Error : Type}.
Variable getVariable :
  JsString -> RS -> Completion Error (option (RegisteredVariable RS Error)) * RS.

Implicit Types (st : State RS Error) (v : Value) (o : HeapObject) (n l : nat).

Lemma kept_refl n st : kept n st st.
Proof. by split; [|split]. Qed.

Lemma kept_trans n st1 st2 st3 : kept n st1 st2 -> kept n st2 st3 -> kept n st1 st3.
Proof.
  intros (Hl1 & Hf1 & Hr1) (Hl2 & Hf2 & Hr2). split; [lia|]. split; [|auto].
  intros l Hl. by rewrite Hf2, Hf1.
Qed.

Lemma kept_same_heap n st st' : heap st' = heap st -> kept n st st'.
Proof.
  intros E. unfold kept, region_above. rewrite E. by split; [|split].
Qed.

Lemma cache_step_heap st name : heap (cache_step getVariable st name) = heap st.
Proof.
  unfold cache_step. destruct (resolved st !! name); [done|].
  by destruct (lookup getVariable name (registry st)) as [[? ?] ?].
Qed.

Lemma reached_heap st st' : reached getVariable st st' -> heap st' = heap st.
Proof.
  intros (i & ns & ->). simpl. revert st.
  induction ns as [|name ns IH]; intros st; [done|].
  simpl. by rewrite IH, cache_step_heap.
Qed.

Lemma above_mono n m v : n <= m -> above m v -> above n v.
Proof. destruct v; simpl; try done. lia. Qed.

Lemma kept_allocate n st o :
  n <= length (heap st) -> object_above n o ->
  kept n st (with_heap (heap st ++ [o]) st).
Proof.
  intros Hn Ho. split; [|split]; simpl.
  - rewrite length_app. lia.
  - intros l Hl. apply lookup_app_l. lia.
  - intros Hr l o' Hl Hlook. simpl in Hlook.
    destruct (decide (l < length (heap st))) as [Hlt|Hge].
    + rewrite lookup_app_l in Hlook by done. by apply (Hr l).
    + rewrite lookup_app_r in Hlook by lia.
      destruct (l - length (heap st)) as [|k]; [|by destruct k].
      simpl in Hlook. by inversion Hlook; subst.
Qed.

Lemma kept_write n st l o :
  n <= l -> (region_above n st -> object_above n o) ->
  kept n st (with_heap (<[l := o]> (heap st)) st).
Proof.
  intros Hn Ho. split; [|split]; simpl.
  - by rewrite length_insert.
  - intros l' Hl'. apply list_lookup_insert_ne. lia.
  - intros Hr l' o' Hl' Hlook. simpl in Hlook.
    destruct (decide (l = l')) as [<-|Hne].
    + destruct (decide (l < length (heap st))) as [Hlt|Hge].
      * rewrite list_lookup_insert_eq in Hlook by done.
        inversion Hlook; subst. by apply Ho.
      * rewrite list_insert_ge in Hlook by lia. by apply (Hr l).
    + rewrite list_lookup_insert_ne in Hlook by done. by apply (Hr l').
Qed.

Lemma insert_property_above n name v (props : list (Property Value)) :
  above n v -> Forall (fun p => above n (value p)) props ->
  Forall (fun p => above n (value p)) (insert_property name v props).
Proof.
  intros Hv. induction 1 as [|p props Hp Hps IH]; simpl.
  - by constructor.
  - destruct (listed_before (key p) name); repeat constructor; auto.
Qed.

Lemma update_property_above n name v (props : list (Property Value)) :
  above n v -> Forall (fun p => above n (value p)) props ->
  Forall (fun p => above n (value p)) (update_property name v props).
Proof.
  intros Hv. induction 1 as [|p props Hp Hps IH]; simpl; constructor; [|done].
  by destruct (decide (key p = StringKey name)).
Qed.

Lemma Object_set_above n proto internal props name v :
  above n v ->
  object_above n (OrdinaryObject proto internal props) ->
  let r := Object_set Heap.as_prototype (proto, props) name v in
  object_above n (OrdinaryObject r.1 internal r.2).
Proof.
  intros Hv [Hproto Hprops]. unfold Object_set.
  destruct (has_own_property props name).
  { split; [done|]. by apply update_property_above. }
  destruct proto as [| |cls|w]; try (split; [done|]; by apply insert_property_above).
  destruct (decide (name = PROTO)); [|split; [done|]; by apply insert_property_above].
  destruct v; simpl; by split.
Qed.

Lemma Array_push_kept n result v st :
  n <= result -> above n v ->
  exists st', Heap.Array_push result v st = (Fulfilled tt, st') /\ kept n st st'.
Proof.
  intros Hn Hv. unfold Heap.Array_push, bind, Heap.read.
  destruct (heap st !! result) as [[elements|proto internal props]|] eqn:E;
    try (eexists; split; [reflexivity|apply kept_refl]).
  eexists. split; [reflexivity|]. apply kept_write; [done|].
  intros Hr. specialize (Hr result _ Hn E). simpl in *.
  apply Forall_app. split; [done|]. by constructor.
Qed.

Lemma Object_assign_kept n result name v st :
  n <= result -> above n v ->
  exists st', Heap.Object_assign result name v st = (Fulfilled tt, st') /\ kept n st st'.
Proof.
  intros Hn Hv. unfold Heap.Object_assign, bind, Heap.read.
  destruct (heap st !! result) as [[elements|proto internal props]|] eqn:E;
    try (eexists; split; [reflexivity|apply kept_refl]).
  eexists. split; [reflexivity|]. apply kept_write; [done|].
  intros Hr. specialize (Hr result _ Hn E). by apply Object_set_above.
Qed.

Section Loops.

Variable doResolve : Value -> @M RS Error Value.
Hypothesis doResolve_kept : forall value st r st',
  doResolve value st = (r, st') ->
  (forall n, n <= length (heap st) -> kept n st st') /\
  (forall v, r = Fulfilled v -> above (length (heap st)) v).

Lemma doResolveArray_loop_kept fuel values i result st n r st' :
  n <= result -> result < length (heap st) ->
  Heap.doResolveArray_loop doResolve fuel values i result st = (r, st') ->
  kept n st st' /\ (forall v, r = Fulfilled v -> v = Ref result).
Proof.
  revert i st. induction fuel as [|fuel IH]; intros i st Hn Hres H.
  { inversion H; subst. split; [apply kept_refl|done]. }
  cbn [Heap.doResolveArray_loop] in H. unfold bind at 1, Heap.read at 1 in H.
  destruct (heap st !! values) as [[elements|proto internal props]|];
    try (inversion H; subst; split; [apply kept_refl|by intros ? [= <-]]).
  destruct (elements !! i) as [value|];
    [|inversion H; subst; split; [apply kept_refl|by intros ? [= <-]]].
  unfold bind at 1 in H.
  destruct (doResolve value st) as [[resolved|e|] st1] eqn:E1;
    destruct (doResolve_kept _ _ _ _ E1) as [Hk Ha];
    try (inversion H; subst; split; [apply Hk; lia|done]).
  specialize (Ha _ eq_refl).
  assert (kept n st st1) as Hk1 by (apply Hk; lia).
  destruct (Array_push_kept n result resolved st1) as (st2 & E2 & Hk2);
    [done|by apply (above_mono _ (length (heap st))); [lia|]|].
  unfold bind at 1 in H. rewrite E2 in H.
  destruct (IH (S i) st2) as [Hk3 Hv3]; [done| |done|].
  { destruct Hk1 as [? _], Hk2 as [? _]. lia. }
  split; [|done].
  by apply (kept_trans _ _ st1), (kept_trans _ _ st2).
Qed.

Lemma doResolveObject_loop_kept names obj result st n r st' :
  n <= result -> result < length (heap st) ->
  Heap.doResolveObject_loop doResolve names obj result st = (r, st') ->
  kept n st st' /\ (forall v, r = Fulfilled v -> v = Ref result).
Proof.
  revert st. induction names as [|name names IH]; intros st Hn Hres H.
  { inversion H; subst. split; [apply kept_refl|by intros ? [= <-]]. }
  cbn [Heap.doResolveObject_loop] in H. unfold bind at 1, Heap.read at 1 in H.
  unfold bind at 1 in H.
  match type of H with
  | context [doResolve ?value st] =>
      destruct (doResolve value st) as [[resolved|e|] st1] eqn:E1
  end;
    destruct (doResolve_kept _ _ _ _ E1) as [Hk Ha];
    try (inversion H; subst; split; [apply Hk; lia|done]).
  specialize (Ha _ eq_refl).
  assert (kept n st st1) as Hk1 by (apply Hk; lia).
  destruct (Object_assign_kept n result name resolved st1) as (st2 & E2 & Hk2);
    [done|by apply (above_mono _ (length (heap st))); [lia|]|].
  unfold bind at 1 in H. rewrite E2 in H.
  destruct (IH st2) as [Hk3 Hv3]; [done| |done|].
  { destruct Hk1 as [? _], Hk2 as [? _]. lia. }
  split; [|done].
  by apply (kept_trans _ _ st1), (kept_trans _ _ st2).
Qed.

End Loops.

(** The traversal writes to no object that was there when it started,
    and what it returns is a scalar, a string or a new object. *)
Lemma doResolve_kept fuel value st r st' :
  Heap.doResolve getVariable fuel value st = (r, st') ->
  (forall n, n <= length (heap st) -> kept n st st') /\
  (forall v, r = Fulfilled v -> above (length (heap st)) v).
Proof.
  revert value st r st'. induction fuel as [|fuel IH]; intros value st r st' H.
  { inversion H; subst. split; [intros; apply kept_refl|done]. }
  destruct value as [| |b|bits|z|id|s|l]; cbn [Heap.doResolve] in H;
    try (inversion H; subst; split; [intros; apply kept_refl|by intros ? [= <-]]).
  - unfold bind in H.
    destruct (doResolveString_reached getVariable s st) as (s' & st1 & E & Hr).
    rewrite E in H. inversion H; subst.
    split; [|by intros ? [= <-]].
    intros n Hn. by apply kept_same_heap, reached_heap.
  - unfold bind at 1, Heap.read at 1 in H.
    destruct (heap st !! l) as [[elements|proto internal props]|] eqn:El;
      [| |inversion H; subst; split; [intros; apply kept_refl|done]].
    + unfold Heap.doResolveArray, bind at 1, Heap.allocate at 1 in H.
      set (st1 := with_heap (heap st ++ [ArrayObject []]) st) in H.
      assert (length (heap st) < length (heap st1)) as Hlen
        by (simpl; rewrite length_app; simpl; lia).
      split.
      * intros n Hn.
        destruct (doResolveArray_loop_kept _ IH _ _ _ _ _ n _ _ Hn Hlen H) as [Hk _].
        apply (kept_trans _ _ st1); [|done].
        apply kept_allocate; [done|]. constructor.
      * intros v ->.
        destruct (doResolveArray_loop_kept _ IH _ _ _ _ _ 0 _ _ (Nat.le_0_l _) Hlen H)
          as [_ Hv].
        rewrite (Hv _ eq_refl). simpl. lia.
    + unfold Heap.doResolveObject, bind at 1, Heap.allocate at 1 in H.
      set (st1 := with_heap (heap st ++ [OrdinaryObject ObjectPrototype None []]) st)
        in H.
      unfold bind at 1, Heap.read at 1 in H.
      assert (length (heap st) < length (heap st1)) as Hlen
        by (simpl; rewrite length_app; simpl; lia).
      split.
      * intros n Hn.
        destruct (doResolveObject_loop_kept _ IH _ _ _ _ n _ _ Hn Hlen H) as [Hk _].
        apply (kept_trans _ _ st1); [|done].
        apply kept_allocate; [done|]. by split.
      * intros v ->.
        destruct (doResolveObject_loop_kept _ IH _ _ _ _ 0 _ _ (Nat.le_0_l _) Hlen H)
          as [_ Hv].
        rewrite (Hv _ eq_refl). simpl. lia.
Qed.

Lemma reachable_above n h v l :
  (forall l' o, n <= l' -> h !! l' = Some o -> object_above n o) ->
  reachable h v l -> above n v -> n <= l.
Proof.
  intros Hr. induction 1 as [l|l elements v l' E Hin _ IH|l proto internal props p l' E Hin _ IH
                            |l v internal props l' E _ IH]; simpl; intros Ha.
  - done.
  - apply IH. specialize (Hr l _ Ha E). simpl in Hr.
    rewrite Forall_forall in Hr. by apply Hr.
  - apply IH. specialize (Hr l _ Ha E). destruct Hr as [_ Hr].
    rewrite Forall_forall in Hr. by apply Hr.
  - apply IH. specialize (Hr l _ Ha E). by destruct Hr as [Hr _].
Qed.

End HeapFacts.


(** ** The heap and the trees *)

Lemma JsValue_full_ind (P : JsValue -> Prop) :
  P JsUndefined -> P JsNull ->
  (forall b, P (JsBoolean b)) -> (forall bits, P (JsNumber bits)) ->
  (forall n, P (JsBigInt n)) -> (forall id, P (JsSymbol id)) ->
  (forall s, P (JsStr s)) ->
  (forall values, Forall P values -> P (JsArray values)) ->
  (forall proto internal props,
     (forall v, proto = ValuePrototype v -> P v) ->
     Forall (fun p => P (value p)) props -> P (JsObject proto internal props)) ->
  forall v, P v.
Proof.
  intros Hu Hn Hb Hnum Hbig Hsym Hs Ha Ho.
  fix IH 1. intros [| |b|bits|n|id|s|values|proto internal props].
  - exact Hu.
  - exact Hn.
  - apply Hb.
  - apply Hnum.
  - apply Hbig.
  - apply Hsym.
  - apply Hs.
  - apply Ha. induction values as [|v values IHv]; constructor; [apply IH|exact IHv].
  - apply Ho.
    + destruct proto as [| |cls|w]; intros v E; try discriminate E.
      injection E as <-. apply IH.
    + induction props as [|[k e v] props IHp]; constructor; [apply IH|exact IHp].
Qed.

Lemma Forall2_Forall_impl {A B} (P : B -> Prop) (R R' : A -> B -> Prop) l k :
  Forall P k -> Forall2 R l k ->
  (forall a b, P b -> R a b -> R' a b) ->
  Forall2 R' l k.
Proof.
  intros HP HR Himpl. revert HP.
  induction HR as [|a b l k Hab _ IH]; intros HP; [constructor|].
  inversion HP; subst. constructor; auto.
Qed.

Lemma Forall2_property_rel_impl {A B} (P : B -> Prop) (R R' : A -> B -> Prop)
    (ps : list (Property A)) (qs : list (Property B)) :
  Forall (fun q => P (value q)) qs -> Forall2 (property_rel R) ps qs ->
  (forall a b, P b -> R a b -> R' a b) ->
  Forall2 (property_rel R') ps qs.
Proof.
  intros HP HR Himpl. revert HP.
  induction HR as [|p q ps qs (Hk & He & Hv) _ IH]; intros HP; [constructor|].
  inversion HP; subst. constructor; [|auto]. split; [done|]. split; [done|]. auto.
Qed.

(** Reading a value depends only on the objects it reaches. *)
Lemma represents_frame lo hi h lo' hi' h' :
  lo' <= lo -> hi <= hi' ->
  (forall l, lo <= l < hi -> h' !! l = h !! l) ->
  forall t v, represents lo hi h v t -> represents lo' hi' h' v t.
Proof.
  intros Hlo Hhi Hagree.
  induction t as [| | | | | |s|values IH|proto' internal props' IHproto IH]
    using JsValue_full_ind; intros v Hrep;
    inversion Hrep; subst; try (by constructor).
  - econstructor; [lia| |].
    + rewrite Hagree by done. eassumption.
    + apply (Forall2_Forall_impl
               (fun t => forall v, represents lo hi h v t -> represents lo' hi' h' v t)
               (represents lo hi h) _ _ _ IH); [done|].
      intros a b Hb Hab. by apply Hb.
  - econstructor; [lia| |done| |].
    + rewrite Hagree by done. eassumption.
    + match goal with H : prototype_rel _ _ _ |- _ => inversion H; subst end;
        constructor. by eapply IHproto.
    + apply (Forall2_property_rel_impl
               (fun t => forall v, represents lo hi h v t -> represents lo' hi' h' v t)
               (represents lo hi h) _ _ _ IH); [done|].
      intros a b Hb Hab. by apply Hb.
Qed.

Section HeapIndependence.

Context {RS Error : Type}.
Variable getVariable :
  JsString -> RS -> Completion Error (option (RegisteredVariable RS Error)) * RS.

Implicit Types (st : State RS Error) (h : list HeapObject).

Lemma cache_step_with_heap h st name :
  cache_step getVariable (with_heap h st) name =
  with_heap h (cache_step getVariable st name).
Proof.
  unfold cache_step, with_heap. simpl.
  destruct (resolved st !! name); [done|].
  by destruct (lookup getVariable name (registry st)) as [[? ?] ?].
Qed.

Lemma cache_steps_with_heap h st ns :
  foldl (cache_step getVariable) (with_heap h st) ns =
  with_heap h (foldl (cache_step getVariable) st ns).
Proof.
  revert st. induction ns as [|n ns IH]; intros st; simpl; [done|].
  by rewrite cache_step_with_heap, IH.
Qed.

(** The methods of the strings neither read nor write the heap. *)
Lemma doResolveString_with_heap h value st s' st' :
  doResolveString getVariable value st = (Fulfilled s', st') ->
  doResolveString getVariable value (with_heap h st) =
    (Fulfilled s', with_heap h st').
Proof.
  destruct (Tokens_total (drop (lastIndex st) value)) as [ps0 H0].
  rewrite (doResolveString_eq getVariable value st ps0 (pieces value))
    by (done || apply Tokens_pieces).
  intros [= <- <-].
  rewrite (doResolveString_eq getVariable value _ ps0 (pieces value))
    by (done || apply Tokens_pieces).
  by rewrite cache_steps_with_heap.
Qed.

End HeapIndependence.

Section ObjectSetRel.

Context {A B : Type} (R : A -> B -> Prop).
Variable asA : A -> option (Prototype A).
Variable asB : B -> option (Prototype B).

Lemma keys_rel (ps : list (Property A)) (qs : list (Property B)) :
  Forall2 (property_rel R) ps qs -> map key ps = map key qs.
Proof.
  induction 1 as [|p q ps qs (Hk & _) _ IH]; simpl; [done|]. by rewrite Hk, IH.
Qed.

Lemma insert_property_rel name a b (ps : list (Property A)) (qs : list (Property B)) :
  R a b -> Forall2 (property_rel R) ps qs ->
  Forall2 (property_rel R) (insert_property name a ps) (insert_property name b qs).
Proof.
  intros Hab. induction 1 as [|p q ps qs Hpq Hrest IH]; simpl.
  - by repeat constructor.
  - destruct Hpq as (Hk & He & Hv). rewrite <- Hk.
    destruct (listed_before (key p) name); repeat constructor; auto.
Qed.

Lemma update_property_rel name a b (ps : list (Property A)) (qs : list (Property B)) :
  R a b -> Forall2 (property_rel R) ps qs ->
  Forall2 (property_rel R) (update_property name a ps) (update_property name b qs).
Proof.
  intros Hab. induction 1 as [|p q ps qs Hpq Hrest IH]; simpl; constructor; [|done].
  destruct Hpq as (Hk & He & Hv). rewrite <- Hk.
  destruct (decide (key p = StringKey name)); by repeat split.
Qed.

Lemma Object_set_rel pa ps pb qs name a b :
  prototype_rel R pa pb ->
  Forall2 (property_rel R) ps qs ->
  R a b ->
  match asA a, asB b with
  | Some p, Some q => prototype_rel R p q
  | None, None => True
  | _, _ => False
  end ->
  prototype_rel R (Object_set asA (pa, ps) name a).1 (Object_set asB (pb, qs) name b).1 /\
  Forall2 (property_rel R) (Object_set asA (pa, ps) name a).2 (Object_set asB (pb, qs) name b).2.
Proof.
  intros Hproto Hprops Hab Has. unfold Object_set, has_own_property.
  rewrite (keys_rel _ _ Hprops).
  destruct (bool_decide (StringKey name ∈ map key qs)).
  { split; [done|]. by apply update_property_rel. }
  destruct Hproto; try (split; [by constructor|]; by apply insert_property_rel).
  destruct (decide (name = PROTO)); [|split; [by constructor|]; by apply insert_property_rel].
  destruct (asA a), (asB b); try done. by split; [constructor|].
Qed.

End ObjectSetRel.

Section InsertFacts.

Context {V : Type}.
Implicit Types (props : list (Property V)).

Lemma keys_insert_property name (v : V) props :
  map key (insert_property name v props) ≡ₚ StringKey name :: map key props.
Proof.
  induction props as [|p props IH]; simpl; [done|].
  destruct (listed_before (key p) name); simpl; [|done].
  rewrite IH. apply Permutation_swap.
Qed.

Lemma keys_update_property name (v : V) props :
  map key (update_property name v props) = map key props.
Proof.
  induction props as [|p props IH]; simpl; [done|].
  rewrite IH. by destruct (decide (key p = StringKey name)).
Qed.

Lemma Object_set_NoDup as_prototype proto props name (v : V) :
  NoDup (map key props) ->
  NoDup (map key (Object_set as_prototype (proto, props) name v).2).
Proof.
  intros Hnd. unfold Object_set, has_own_property.
  destruct (bool_decide (StringKey name ∈ map key props)) eqn:E.
  { simpl. by rewrite keys_update_property. }
  apply bool_decide_eq_false in E.
  assert (NoDup (map key (insert_property name v props))) as Hins.
  { rewrite keys_insert_property. by constructor. }
  destruct proto; try done.
  destruct (decide (name = PROTO)); [|done].
  by destruct (as_prototype v).
Qed.

Lemma Object_get_middle prefix (p : Property V) props name :
  StringKey name ∉ map key prefix ->
  key p = StringKey name ->
  Object_get (prefix ++ p :: props) name = Some (value p).
Proof.
  intros Hnot Hk. induction prefix as [|q prefix IH]; simpl.
  - by rewrite decide_True.
  - simpl in Hnot. apply not_elem_of_cons in Hnot as [Hne Hnot].
    rewrite decide_False by done. by apply IH.
Qed.

End InsertFacts.

Section Refinement.

Context {RS Error : Type}.
Variable getVariable :
  JsString -> RS -> Completion Error (option (RegisteredVariable RS Error)) * RS.

Implicit Types (st : State RS Error) (h : list HeapObject).

Lemma Heap_doResolve_frame fuel v st v' st' :
  Heap.doResolve getVariable fuel v st = (Fulfilled v', st') ->
  length (heap st) <= length (heap st') /\
  (forall l, l < length (heap st) -> heap st' !! l = heap st !! l).
Proof.
  intros H. destruct (doResolve_kept getVariable _ _ _ _ _ H) as [Hk _].
  destruct (Hk _ (Nat.le_refl _)) as (? & ? & _). by split.
Qed.

Lemma drop_lookup_cons {A} (l : list A) i x k :
  drop i l = x :: k -> l !! i = Some x /\ drop (S i) l = k.
Proof.
  intros E. assert (l !! i = Some x) as Hx.
  { rewrite <- (Nat.add_0_r i), <- lookup_drop, E. done. }
  split; [done|]. rewrite (drop_S _ _ _ Hx) in E. by inversion E.
Qed.

Lemma drop_nil_lookup {A} (l : list A) i : drop i l = [] -> l !! i = None.
Proof.
  intros E. apply lookup_ge_None. apply (f_equal length) in E.
  rewrite length_drop in E. simpl in E. lia.
Qed.

Section ArrayLoop.

Variable f : nat.
Variables (l result nin : nat) (elements : list Value) (h0 : list HeapObject).
Hypothesis Hl : l < nin.
Hypothesis Hnin : nin <= result.

Lemma doResolveArray_loop_refines ts :
  Forall (refines getVariable f) ts ->
  forall es i acc_v acc_t st fuel,
    length ts < fuel ->
    result < length (heap st) ->
    heap st !! l = Some (ArrayObject elements) ->
    drop i elements = es ->
    Forall2 (represents 0 nin (heap st)) es ts ->
    heap st !! result = Some (ArrayObject acc_v) ->
    Forall2 (represents (S result) (length (heap st)) (heap st)) acc_v acc_t ->
    exists acc_v' ts' st',
      Heap.doResolveArray_loop (Heap.doResolve getVariable f) fuel l i result st =
        (Fulfilled (Ref result), st') /\
      doResolveArray_loop (doResolve getVariable) ts acc_t (with_heap h0 st) =
        (Fulfilled (JsArray (acc_t ++ ts')), with_heap h0 st') /\
      heap st' !! result = Some (ArrayObject acc_v') /\
      Forall2 (represents (S result) (length (heap st')) (heap st')) acc_v' (acc_t ++ ts') /\
      length (heap st) <= length (heap st').
Proof.
  induction 1 as [|t ts Ht _ IH]; intros es i acc_v acc_t st fuel Hfuel Hres Hlook Hdrop Hes
    Hacc Haccrel.
  - destruct fuel as [|fuel]; [simpl in Hfuel; lia|].
    apply Forall2_nil_inv_r in Hes. rewrite Hes in Hdrop. apply drop_nil_lookup in Hdrop.
    exists acc_v, [], st. cbn [Heap.doResolveArray_loop doResolveArray_loop].
    unfold bind, Heap.read. rewrite Hlook, Hdrop, app_nil_r. done.
  - destruct fuel as [|fuel]; [simpl in Hfuel; lia|].
    apply Forall2_cons_inv_r in Hes as (e & es' & He & Hes' & ->).
    apply drop_lookup_cons in Hdrop as [Hi Hdrop].
    destruct (Ht e st nin h0) as (e' & t' & st1 & E1 & T1 & Hrep1); [lia|done|].
    destruct (Heap_doResolve_frame _ _ _ _ _ E1) as [Hlen1 Hframe1].
    set (h2 := <[result := ArrayObject (acc_v ++ [e'])]> (heap st1)).
    set (st2 := with_heap h2 st1).
    assert (length h2 = length (heap st1)) as Hlen2 by apply length_insert.
    assert (forall l', l' <> result -> h2 !! l' = heap st1 !! l') as Hframe2.
    { intros l' Hne. by apply list_lookup_insert_ne. }
    destruct (IH es' (S i) (acc_v ++ [e']) (acc_t ++ [t']) st2 fuel)
      as (acc_v' & ts' & st' & E & T & Hacc' & Hrel' & Hlen').
    + simpl in Hfuel. lia.
    + simpl. lia.
    + simpl. rewrite Hframe2 by lia. by rewrite Hframe1 by lia.
    + done.
    + eapply Forall2_impl; [exact Hes'|]. intros a b Hab. simpl.
      eapply (represents_frame 0 nin (heap st)); [lia|lia| |done].
      intros l' Hl'. rewrite Hframe2 by lia. apply Hframe1. lia.
    + simpl. apply list_lookup_insert_eq. lia.
    + simpl. apply Forall2_app.
      * eapply Forall2_impl; [exact Haccrel|]. intros a b Hab.
        eapply (represents_frame (S result) (length (heap st)) (heap st)); [lia|lia| |done].
        intros l' Hl'. rewrite Hframe2 by lia. apply Hframe1. lia.
      * constructor; [|constructor].
        eapply (represents_frame (length (heap st)) (length (heap st1)) (heap st1));
          [lia|lia| |done].
        intros l' Hl'. apply Hframe2. lia.
    + exists acc_v', (t' :: ts'), st'.
      split; [|split; [|split; [done|split]]].
      * cbn [Heap.doResolveArray_loop]. unfold bind at 1, Heap.read at 1.
        rewrite Hlook, Hi. unfold bind at 1. rewrite E1.
        unfold bind at 1, Heap.Array_push, bind at 1, Heap.read at 1.
        rewrite Hframe1 by done. rewrite Hacc. unfold Heap.write at 1. exact E.
      * cbn [doResolveArray_loop]. unfold bind at 1. rewrite T1.
        replace (acc_t ++ t' :: ts') with ((acc_t ++ [t']) ++ ts')
          by (by rewrite <- app_assoc).
        exact T.
      * by replace (acc_t ++ t' :: ts') with ((acc_t ++ [t']) ++ ts')
          by (by rewrite <- app_assoc).
      * simpl in Hlen'. lia.
Qed.

End ArrayLoop.

Lemma prototype_rel_impl {A B} (R R' : A -> B -> Prop) p q :
  prototype_rel R p q -> (forall a b, R a b -> R' a b) -> prototype_rel R' p q.
Proof. intros [] Himpl; constructor; auto. Qed.

Lemma properties_rel_impl {A B} (R R' : A -> B -> Prop)
    (ps : list (Property A)) (qs : list (Property B)) :
  Forall2 (property_rel R) ps qs -> (forall a b, R a b -> R' a b) ->
  Forall2 (property_rel R') ps qs.
Proof.
  intros H Himpl. eapply Forall2_impl; [exact H|].
  intros p q (Hk & He & Hv). split; [done|]. split; [done|]. auto.
Qed.

Lemma as_prototype_rel lo hi h v t :
  represents lo hi h v t ->
  match Heap.as_prototype v, JsValue_as_prototype t with
  | Some p, Some q => prototype_rel (represents lo hi h) p q
  | None, None => True
  | _, _ => False
  end.
Proof.
  intros H. inversion H; subst; simpl; try done; by repeat constructor.
Qed.

Section ObjectLoop.

Variable f : nat.
Variables (l result nin : nat) (h0 : list HeapObject).
Variables (proto : Prototype Value) (internal : option nat) (props : list (Property Value)).
Hypothesis Hl : l < nin.
Hypothesis Hnin : nin <= result.
Hypothesis Hnodup : NoDup (map key props).

Lemma doResolveObject_loop_refines qs :
  Forall (fun q => visited q (fun _ t => refines getVariable f t) True) qs ->
  forall prefix ps rproto rprops tproto tprops st,
    props = prefix ++ ps ->
    result < length (heap st) ->
    heap st !! l = Some (OrdinaryObject proto internal props) ->
    Forall2 (property_rel (represents 0 nin (heap st))) ps qs ->
    heap st !! result = Some (OrdinaryObject rproto None rprops) ->
    prototype_rel (represents (S result) (length (heap st)) (heap st)) rproto tproto ->
    Forall2 (property_rel (represents (S result) (length (heap st)) (heap st)))
      rprops tprops ->
    NoDup (map key rprops) ->
    exists rproto' rprops' tproto' tprops' st',
      Heap.doResolveObject_loop (Heap.doResolve getVariable f) (Object_keys ps) l result st =
        (Fulfilled (Ref result), st') /\
      doResolveObject_loop (doResolve getVariable) qs (tproto, tprops)
        (with_heap h0 st) =
        (Fulfilled (JsObject tproto' None tprops'), with_heap h0 st') /\
      heap st' !! result = Some (OrdinaryObject rproto' None rprops') /\
      prototype_rel (represents (S result) (length (heap st')) (heap st')) rproto' tproto' /\
      Forall2 (property_rel (represents (S result) (length (heap st')) (heap st')))
        rprops' tprops' /\
      NoDup (map key rprops') /\
      length (heap st) <= length (heap st').
Proof.
  induction 1 as [|q qs Hq _ IH];
    intros prefix ps rproto rprops tproto tprops st Hprops Hres Hlook Hps Hacc Hrp Hrps Hrnd.
  - apply Forall2_nil_inv_r in Hps. subst ps.
    by exists rproto, rprops, tproto, tprops, st.
  - apply Forall2_cons_inv_r in Hps as (p & ps' & Hpq & Hps' & ->).
    destruct Hpq as (Hk & He & Hv).
    assert (props = (prefix ++ [p]) ++ ps') as Hprops' by (by rewrite <- app_assoc).
    destruct q as [[name|id] [|] tv], p as [pk pe pv]; simpl in Hk, He, Hv; subst pk pe;
      cbn [Object_keys key enumerable doResolveObject_loop];
      try (by eapply IH; [exact Hprops'|..]).
    cbn [visited] in Hq.
    destruct (Hq pv st nin h0) as (e' & t' & st1 & E1 & T1 & Hrep1); [lia|done|].
    destruct (Heap_doResolve_frame _ _ _ _ _ E1) as [Hlen1 Hframe1].
    set (r := Object_set Heap.as_prototype (rproto, rprops) name e').
    set (r' := Object_set JsValue_as_prototype (tproto, tprops) name t').
    set (h2 := <[result := OrdinaryObject r.1 None r.2]> (heap st1)).
    set (st2 := with_heap h2 st1).
    assert (length h2 = length (heap st1)) as Hlen2 by apply length_insert.
    assert (forall l', l' <> result -> h2 !! l' = heap st1 !! l') as Hframe2.
    { intros l' Hne. by apply list_lookup_insert_ne. }
    assert (forall a b,
              represents (S result) (length (heap st)) (heap st) a b ->
              represents (S result) (length h2) h2 a b) as Hold.
    { intros a b Hab.
      eapply (represents_frame (S result) (length (heap st)) (heap st)); [lia|lia| |done].
      intros l' Hl'. rewrite Hframe2 by lia. apply Hframe1. lia. }
    assert (represents (S result) (length h2) h2 e' t') as Hnew.
    { eapply (represents_frame (length (heap st)) (length (heap st1)) (heap st1));
        [lia|lia| |done].
      intros l' Hl'. apply Hframe2. lia. }
    destruct (Object_set_rel (represents (S result) (length h2) h2)
                Heap.as_prototype JsValue_as_prototype
                rproto rprops tproto tprops name e' t') as [Hr1 Hr2].
    { by eapply prototype_rel_impl. }
    { by eapply properties_rel_impl. }
    { done. }
    { by apply as_prototype_rel. }
    destruct (IH (prefix ++ [mkProperty (StringKey name) true pv]) ps' r.1 r.2 r'.1 r'.2 st2)
      as (rproto' & rprops' & tproto' & tprops' & st' & E & T & Hacc' & Hrp' & Hrps' &
          Hnd' & Hlen').
    + done.
    + simpl. lia.
    + simpl. rewrite Hframe2 by lia. by rewrite Hframe1 by lia.
    + eapply properties_rel_impl; [exact Hps'|]. intros a b Hab. simpl.
      eapply (represents_frame 0 nin (heap st)); [lia|lia| |done].
      intros l' Hl'. rewrite Hframe2 by lia. apply Hframe1. lia.
    + simpl. apply list_lookup_insert_eq. lia.
    + done.
    + done.
    + by apply Object_set_NoDup.
    + exists rproto', rprops', tproto', tprops', st'.
      split; [|split; [|split; [done|split; [done|split; [done|split; [done|]]]]]].
      * cbn [Heap.doResolveObject_loop]. unfold bind at 1, Heap.read at 1.
        rewrite Hlook, Hprops.
        rewrite (Object_get_middle prefix (mkProperty (StringKey name) true pv) ps' name);
          [|rewrite Hprops, map_app in Hnodup; simpl in Hnodup;
            apply NoDup_app in Hnodup as (_ & Hdisj & _); intros Hin;
            apply (Hdisj _ Hin), elem_of_cons; by left|done].
        simpl. unfold bind at 1. rewrite E1.
        unfold bind at 1, Heap.Object_assign, bind at 1, Heap.read at 1.
        rewrite Hframe1 by done. rewrite Hacc. unfold Heap.write at 1. exact E.
      * unfold bind at 1. rewrite T1. fold r'. rewrite (surjective_pairing r'). exact T.
      * simpl in Hlen'. lia.
Qed.

End ObjectLoop.

Lemma list_max_le_elem (ns : list nat) n m : list_max ns <= m -> n ∈ ns -> n <= m.
Proof.
  intros H Hin. apply list_max_le in H. rewrite List.Forall_forall in H.
  apply H. by apply list_elem_of_In.
Qed.

(** The traversal of the heap does what the traversal of the trees does. *)
Theorem heap_refines_tree t : forall fuel, fuel_for t <= fuel -> refines getVariable fuel t.
Proof.
  induction t as [| | | | | |s|values IH|proto' internal props' IH]
    using JsValue_nested_ind; intros fuel Hfuel v st nin h0 Hnin Hrep;
    inversion Hrep; subst; (destruct fuel as [|f]; [simpl in Hfuel; lia|]);
    try (eexists _, _, _; split; [reflexivity|]; split; [reflexivity|constructor]).
  - destruct (doResolveString_reached getVariable s st) as (s' & st' & E & Hr).
    exists (Str s'), (JsStr s'), st'. split; [|split; [|constructor]].
    + cbn [Heap.doResolve]. unfold bind. by rewrite E.
    + cbn [doResolve]. unfold bind.
      by rewrite (doResolveString_with_heap getVariable h0 _ _ _ _ E).
  - cbn [fuel_for] in Hfuel.
    set (result := length (heap st)).
    set (st1 := with_heap (heap st ++ [ArrayObject []]) st).
    destruct (doResolveArray_loop_refines f l result nin elements h0
                ltac:(lia) ltac:(unfold result; lia) values) with
      (es := elements) (i := 0) (acc_v := @nil Value) (acc_t := @nil JsValue)
      (st := st1) (fuel := f)
      as (acc_v' & ts' & st' & E & T & Hacc' & Hrel' & Hlen').
    + rewrite Forall_forall in IH. apply Forall_forall. intros t Ht.
      apply IH; [done|].
      apply (list_max_le_elem (map fuel_for values)); [lia|].
      apply list_elem_of_fmap. by exists t.
    + lia.
    + simpl. rewrite length_app. simpl. unfold result. lia.
    + simpl. rewrite lookup_app_l by lia. done.
    + done.
    + eapply Forall2_impl; [eassumption|]. intros a b Hab. simpl.
      eapply (represents_frame 0 nin (heap st)); [lia|lia| |done].
      intros l' Hl'. rewrite lookup_app_l by lia. done.
    + simpl. by rewrite list_lookup_middle.
    + constructor.
    + exists (Ref result), (JsArray ts'), st'. split; [|split].
      * cbn [Heap.doResolve]. unfold bind at 1, Heap.read at 1.
        match goal with H : heap st !! l = _ |- _ => rewrite H end.
        unfold Heap.doResolveArray, bind at 1, Heap.allocate at 1. exact E.
      * cbn [doResolve]. unfold doResolveArray. exact T.
      * simpl in Hlen'. rewrite length_app in Hlen'. simpl in Hlen'.
        econstructor; [unfold result; lia|exact Hacc'|].
        eapply Forall2_impl; [exact Hrel'|]. intros a b Hab.
        eapply (represents_frame (S result) (length (heap st')) (heap st'));
          [unfold result; lia|lia|done|done].
  - cbn [fuel_for] in Hfuel.
    set (result := length (heap st)).
    set (st1 := with_heap (heap st ++ [OrdinaryObject ObjectPrototype None []]) st).
    destruct (doResolveObject_loop_refines f l result nin h0 proto internal props
                ltac:(lia) ltac:(unfold result; lia) ltac:(done) props') with
      (prefix := @nil (Property Value)) (ps := props)
      (rproto := @ObjectPrototype Value) (rprops := @nil (Property Value))
      (tproto := @ObjectPrototype JsValue) (tprops := @nil (Property JsValue))
      (st := st1)
      as (rproto' & rprops' & tproto' & tprops' & st' & E & T & Hacc' & Hrp' & Hrps' &
          Hnd' & Hlen').
    + rewrite Forall_forall in IH. apply Forall_forall. intros q Hq.
      destruct q as [[name|id] [|] tv]; cbn [visited]; try done.
      apply (IH _ Hq).
      apply (list_max_le_elem
               (map (fun p => visited p (fun _ v => fuel_for v) 0) props')); [lia|].
      apply list_elem_of_fmap. by eexists; split; [|exact Hq].
    + done.
    + simpl. rewrite length_app. simpl. unfold result. lia.
    + simpl. rewrite lookup_app_l by lia. done.
    + eapply properties_rel_impl; [eassumption|]. intros a b Hab. simpl.
      eapply (represents_frame 0 nin (heap st)); [lia|lia| |done].
      intros l' Hl'. rewrite lookup_app_l by lia. done.
    + simpl. by rewrite list_lookup_middle.
    + constructor.
    + constructor.
    + constructor.
    + exists (Ref result), (JsObject tproto' None tprops'), st'. split; [|split].
      * cbn [Heap.doResolve]. unfold bind at 1, Heap.read at 1.
        match goal with H : heap st !! l = _ |- _ => rewrite H end.
        unfold Heap.doResolveObject, bind at 1, Heap.allocate at 1.
        unfold bind at 1, Heap.read at 1. fold st1.
        replace (heap st1 !! l) with (Some (OrdinaryObject proto internal props)).
        -- exact E.
        -- simpl. rewrite lookup_app_l by lia. done.
      * cbn [doResolve]. unfold doResolveObject. exact T.
      * simpl in Hlen'. rewrite length_app in Hlen'. simpl in Hlen'.
        econstructor; [unfold result; lia|exact Hacc'|done| |].
        -- eapply prototype_rel_impl; [exact Hrp'|]. intros a b Hab.
           eapply (represents_frame (S result) (length (heap st')) (heap st'));
             [unfold result; lia|lia|done|done].
        -- eapply properties_rel_impl; [exact Hrps'|]. intros a b Hab.
           eapply (represents_frame (S result) (length (heap st')) (heap st'));
             [unfold result; lia|lia|done|done].
Qed.

End Refinement.

(** ** The call stack *)

Lemma bind_congr {RS Error A B} (m : @M RS Error A) (k1 k2 : A -> @M RS Error B) st :
  (forall a st1, m st = (Fulfilled a, st1) -> k1 a st1 = k2 a st1) ->
  bind m k1 st = bind m k2 st.
Proof. intros H. unfold bind. destruct (m st) as [[a|e|] st1]; auto. Qed.

Lemma bind_congr2 {RS Error A B} (m1 m2 : @M RS Error A) (k1 k2 : A -> @M RS Error B) st :
  m1 st = m2 st ->
  (forall a st1, m2 st = (Fulfilled a, st1) -> k1 a st1 = k2 a st1) ->
  bind m1 k1 st = bind m2 k2 st.
Proof. intros E H. unfold bind. rewrite E. destruct (m2 st) as [[a|e|] st1]; auto. Qed.

Lemma nesting_pos t : 1 <= nesting t.
Proof. destruct t; simpl; lia. Qed.

Lemma Object_keys_keys {V} (props : list (Property V)) name :
  name ∈ Object_keys props -> StringKey name ∈ map key props.
Proof.
  induction props as [|[[n|id] [|] v] props IH]; simpl; intros H;
    try (apply elem_of_cons; right; by apply IH).
  - by apply elem_of_nil in H.
  - apply elem_of_cons in H as [->|H]; apply elem_of_cons; [by left|right; by apply IH].
Qed.

(** What [obj[name]] reads for a name [Object.keys] lists is the value of
    an enumerable property, and so is what it reads as. *)
Lemma Object_get_listed {A B} (R : A -> B -> Prop) (d : A)
    (props : list (Property A)) (props' : list (Property B)) name :
  NoDup (map key props) ->
  Forall2 (property_rel R) props props' ->
  name ∈ Object_keys props ->
  exists p',
    p' ∈ props' /\ key p' = StringKey name /\ enumerable p' = true /\
    R (default d (Object_get props name)) (value p').
Proof.
  intros Hnd HR. induction HR as [|p q ps qs (Hk & He & Hv) _ IH]; intros Hin;
    [by apply elem_of_nil in Hin|].
  simpl in Hnd. apply NoDup_cons in Hnd as [Hp Hnd]. simpl.
  destruct (decide (key p = StringKey name)) as [E|Hne].
  - destruct (enumerable p) eqn:Een.
    + exists q. split; [apply elem_of_cons; by left|]. by rewrite <- Hk, <- He.
    + destruct Hp. rewrite E. apply Object_keys_keys.
      simpl in Hin. by rewrite E, Een in Hin.
  - assert (name ∈ Object_keys ps) as Hin'.
    { simpl in Hin. destruct (key p) as [n|id]; [|done].
      destruct (enumerable p); [|done].
      apply elem_of_cons in Hin as [->|?]; [done|done]. }
    destruct (IH Hnd Hin') as (p' & Hp' & ?). exists p'.
    split; [apply elem_of_cons; by right|done].
Qed.

Section StackFacts.

Context {RS Error : Type}.
Variable getVariable :
  JsString -> RS -> Completion Error (option (RegisteredVariable RS Error)) * RS.
Variable limit : nat.
Variable RangeError : Error.

Implicit Types (st : State RS Error) (v : Value) (t : JsValue).

Section Loops.

Variable dS : nat -> Value -> @M RS Error Value.
Variable dH : Value -> @M RS Error Value.
Variable nin : nat.

Hypothesis agree : forall d v st t,
  represents 0 nin (heap st) v t -> nin <= length (heap st) ->
  1 <= d -> d + nesting t <= S limit ->
  dS d v st = dH v st.

Hypothesis dH_kept : forall value st r st',
  dH value st = (r, st') ->
  (forall n, n <= length (heap st) -> kept n st st') /\
  (forall v, r = Fulfilled v -> above (length (heap st)) v).

Lemma doResolveArray_loop_stack values elements ts result :
  values < nin -> nin <= result ->
  forall fuel calls i st,
    result < length (heap st) ->
    heap st !! values = Some (ArrayObject elements) ->
    Forall2 (represents 0 nin (heap st)) elements ts ->
    Forall (fun t => S calls + nesting t <= S limit) ts ->
    Stack.doResolveArray_loop dS fuel calls values i result st =
    Heap.doResolveArray_loop dH fuel values i result st.
Proof.
  intros Hv Hn. induction fuel as [|fuel IH]; intros calls i st Hres Hlook Hrep Hb; [done|].
  cbn [Stack.doResolveArray_loop Heap.doResolveArray_loop].
  apply bind_congr. intros o st0 [= <- <-]. rewrite Hlook.
  destruct (elements !! i) as [e|] eqn:Ei; [|done].
  destruct (Forall2_lookup_l _ _ _ _ _ Hrep Ei) as (t & Ht & Het).
  apply bind_congr2.
  { apply (agree (S calls) e st t); [done|lia|lia|].
    rewrite Forall_forall in Hb. apply Hb. by eapply list_elem_of_lookup_2. }
  intros resolved st1 E1.
  destruct (dH_kept _ _ _ _ E1) as [Hk Ha]. specialize (Ha _ eq_refl).
  assert (kept nin st st1) as Hk1 by (apply Hk; lia).
  destruct (Array_push_kept nin result resolved st1) as (st2 & E2 & Hk2);
    [done|by apply (above_mono _ (length (heap st))); [lia|]|].
  apply bind_congr. intros [] st2' E2'. rewrite E2 in E2'. injection E2' as <-.
  assert (kept nin st st2) as (Hl2 & Hf2 & _) by (by apply (kept_trans _ _ st1)).
  apply IH.
  - lia.
  - by rewrite Hf2 by lia.
  - eapply Forall2_impl; [exact Hrep|]. intros a b Hab.
    eapply (represents_frame 0 nin (heap st)); [lia|lia| |done].
    intros l Hl. apply Hf2. lia.
  - eapply Forall_impl; [exact Hb|]. simpl. intros ? ?. lia.
Qed.

Lemma doResolveObject_loop_stack obj proto internal props result :
  obj < nin -> nin <= result ->
  forall keys calls st,
    result < length (heap st) ->
    heap st !! obj = Some (OrdinaryObject proto internal props) ->
    (forall name, name ∈ keys ->
       exists t,
         represents 0 nin (heap st) (default Undefined (Object_get props name)) t /\
         S calls + nesting t <= S limit) ->
    Stack.doResolveObject_loop dS keys calls obj result st =
    Heap.doResolveObject_loop dH keys obj result st.
Proof.
  intros Ho Hn. induction keys as [|name keys IH]; intros calls st Hres Hlook Hrep; [done|].
  cbn [Stack.doResolveObject_loop Heap.doResolveObject_loop].
  apply bind_congr. intros o st0 [= <- <-]. rewrite Hlook.
  destruct (Hrep name) as (t & Ht & Hb); [apply elem_of_cons; by left|].
  apply bind_congr2; [by apply (agree (S calls) _ st t); [|lia|lia|]|].
  intros resolved st1 E1.
  destruct (dH_kept _ _ _ _ E1) as [Hk Ha]. specialize (Ha _ eq_refl).
  assert (kept nin st st1) as Hk1 by (apply Hk; lia).
  destruct (Object_assign_kept nin result name resolved st1) as (st2 & E2 & Hk2);
    [done|by apply (above_mono _ (length (heap st))); [lia|]|].
  apply bind_congr. intros [] st2' E2'. rewrite E2 in E2'. injection E2' as <-.
  assert (kept nin st st2) as (Hl2 & Hf2 & _) by (by apply (kept_trans _ _ st1)).
  apply IH.
  - lia.
  - by rewrite Hf2 by lia.
  - intros name' Hin. destruct (Hrep name') as (t' & Ht' & Hb');
      [apply elem_of_cons; by right|].
    exists t'. split; [|lia].
    eapply (represents_frame 0 nin (heap st)); [lia|lia| |done].
    intros l Hl. apply Hf2. lia.
Qed.

End Loops.

(** Where the nesting of the value leaves room on the stack, the
    traversal is the traversal on a stack without end. *)
Lemma Stack_doResolve_eq fuel :
  forall depth v st t nin,
    represents 0 nin (heap st) v t -> nin <= length (heap st) ->
    1 <= depth -> depth + nesting t <= S limit ->
    Stack.doResolve getVariable limit RangeError fuel depth v st =
    Heap.doResolve getVariable fuel v st.
Proof.
  induction fuel as [|fuel IH]; intros depth v st t nin Hrep Hnin Hd Hb; [done|].
  cbn [Stack.doResolve Heap.doResolve].
  pose proof (nesting_pos t). rewrite decide_False by lia.
  inversion Hrep as [| | | | | | |l elements values Hl Hlook Hall
                    |l proto internal props proto' props' Hl Hlook Hnd Hproto Hall];
    subst; try done.
  - apply bind_congr. intros o st0 [= <- <-]. rewrite Hlook.
    unfold Stack.doResolveArray, Heap.doResolveArray.
    apply bind_congr. intros result st1 [= <- <-].
    apply (doResolveArray_loop_stack _ _ nin (fun d v st t => IH d v st t nin)
             (doResolve_kept getVariable fuel) l elements values).
    + lia.
    + done.
    + simpl. rewrite length_app. simpl. lia.
    + simpl. by rewrite lookup_app_l by lia.
    + eapply Forall2_impl; [exact Hall|]. intros a b Hab. simpl.
      eapply (represents_frame 0 nin (heap st)); [lia|lia| |done].
      intros l' Hl'. by rewrite lookup_app_l by lia.
    + apply Forall_forall. intros t Ht. cbn [nesting] in Hb.
      assert (nesting t <= list_max (map nesting values)); [|lia].
      apply (list_max_le_elem (map nesting values)); [lia|].
      apply list_elem_of_fmap. by exists t.
  - apply bind_congr. intros o st0 [= <- <-]. rewrite Hlook.
    unfold Stack.doResolveObject, Heap.doResolveObject.
    apply bind_congr. intros result st1 [= <- <-].
    apply bind_congr. intros o st0 [= <- <-].
    assert (heap (with_heap (heap st ++ [OrdinaryObject ObjectPrototype None []]) st) !! l
            = Some (OrdinaryObject proto internal props)) as Hlook1
      by (simpl; by rewrite lookup_app_l by lia).
    simpl in Hlook1. simpl. rewrite Hlook1.
    apply (doResolveObject_loop_stack _ _ nin (fun d v st t => IH d v st t nin)
             (doResolve_kept getVariable fuel) l proto internal props).
    + lia.
    + done.
    + simpl. rewrite length_app. simpl. lia.
    + done.
    + intros name Hin.
      destruct (Object_get_listed (represents 0 nin (heap st)) Undefined
                  props props' name Hnd Hall Hin) as (p' & Hp' & Hk & He & Hv).
      exists (value p'). split.
      * eapply (represents_frame 0 nin (heap st)); [lia|lia| |done].
        intros l' Hl'. simpl. by rewrite lookup_app_l by lia.
      * cbn [nesting] in Hb.
        assert (nesting (value p') <=
                  list_max (map (fun p => visited p (fun _ w => nesting w) 0) props'));
          [|lia].
        apply (list_max_le_elem
                 (map (fun p => visited p (fun _ w => nesting w) 0) props')); [lia|].
        apply list_elem_of_fmap. exists p'. split; [|done].
        destruct p' as [k e w]. simpl in *. by subst.
Qed.

Lemma Stack_resolve_eq fuel v st t :
  represents 0 (length (heap st)) (heap st) v t ->
  nesting t <= limit ->
  Stack.resolve getVariable limit RangeError fuel v st = Heap.resolve getVariable fuel v st.
Proof.
  intros Hrep Hb. unfold Stack.resolve, Heap.resolve.
  apply bind_congr. intros [] st1 [= <-].
  apply bind_congr2; [|done].
  by apply (Stack_doResolve_eq fuel 1 v _ t (length (heap st))); [| |lia|lia].
Qed.

End StackFacts.

Lemma nested_arrays_length n : length (nested_arrays n) = S n.
Proof. unfold nested_arrays. rewrite length_app, length_map, length_seq. simpl. lia. Qed.

Lemma nested_arrays_lookup n i :
  i < n -> nested_arrays n !! i = Some (ArrayObject [Ref (S i)]).
Proof.
  intros Hi. unfold nested_arrays.
  rewrite lookup_app_l by (by rewrite length_map, length_seq).
  rewrite list_lookup_fmap, lookup_seq_lt by done. done.
Qed.

Lemma nested_arrays_last n : nested_arrays n !! n = Some (ArrayObject []).
Proof.
  unfold nested_arrays.
  rewrite lookup_app_r by (by rewrite length_map, length_seq).
  by rewrite length_map, length_seq, Nat.sub_diag.
Qed.

(** [nested_arrays n] reads as [nested_tree n], which is nested [S n] deep. *)
Lemma nested_arrays_represents n m :
  forall i, i + m = n -> represents 0 (S n) (nested_arrays n) (Ref i) (nested_tree m).
Proof.
  induction m as [|m IH]; intros i Hi.
  - replace i with n by lia.
    apply (represents_array _ _ _ n []); [lia|apply nested_arrays_last|constructor].
  - apply (represents_array _ _ _ i [Ref (S i)]);
      [lia|apply nested_arrays_lookup; lia|].
    constructor; [apply IH; lia|constructor].
Qed.

Lemma nesting_nested_tree n : nesting (nested_tree n) = S n.
Proof. induction n as [|n IH]; simpl; [done|]. rewrite IH. lia. Qed.

Section Overflow.

Context {RS Error : Type}.
Variable getVariable :
  JsString -> RS -> Completion Error (option (RegisteredVariable RS Error)) * RS.
Variable limit : nat.
Variable RangeError : Error.

Implicit Types (st : State RS Error).

(** The object that is its own property: each call of [doResolve] makes
    the next on the same stack, until the stack is full. *)
Lemma Stack_doResolve_self k :
  forall depth fuel st,
    heap st !! 0 = Some self_object ->
    depth + k = S limit -> k < fuel ->
    exists st',
      Stack.doResolve getVariable limit RangeError fuel depth (Ref 0) st =
        (Rejected RangeError, st').
Proof.
  induction k as [|k IH]; intros depth [|fuel] st Hlook Hd Hfuel; try lia;
    cbn [Stack.doResolve].
  - rewrite decide_True by lia. by eexists.
  - rewrite decide_False by lia.
    pose proof (lookup_lt_Some _ _ _ Hlook) as Hlen.
    assert (forall o : HeapObject, (heap st ++ [o]) !! 0 = Some self_object) as Hlook1
      by (intros o; by rewrite lookup_app_l).
    unfold bind at 1, Heap.read at 1. rewrite Hlook. unfold self_object at 1.
    unfold Stack.doResolveObject, bind at 1, Heap.allocate at 1.
    unfold bind at 1, Heap.read at 1.
    cbn [heap with_heap]. rewrite Hlook1. unfold self_object at 1.
    cbn [Object_keys key enumerable Stack.doResolveObject_loop].
    unfold bind at 1, Heap.read at 1.
    cbn [heap with_heap]. rewrite Hlook1. unfold self_object at 1.
    cbn [Object_get key value]. rewrite decide_True by done. cbn [default].
    unfold bind at 1.
    match goal with
    | |- context [Stack.doResolve _ _ _ fuel (S depth) _ ?st1] =>
        destruct (IH (S depth) fuel st1) as [st' E]; [apply Hlook1|lia|lia|]
    end.
    unfold id. rewrite E. by eexists.
Qed.

(** Arrays nested deeper than the stack has room for. *)
Lemma Stack_doResolve_nested n k :
  forall depth i fuel st,
    (forall j, j <= n -> heap st !! j = nested_arrays n !! j) ->
    depth + k = S limit -> i + k <= n -> k < fuel ->
    exists st',
      Stack.doResolve getVariable limit RangeError fuel depth (Ref i) st =
        (Rejected RangeError, st').
Proof.
  induction k as [|k IH]; intros depth i [|fuel] st Hheap Hd Hi Hfuel; try lia;
    cbn [Stack.doResolve].
  - rewrite decide_True by lia. by eexists.
  - rewrite decide_False by lia.
    assert (heap st !! i = Some (ArrayObject [Ref (S i)])) as Hlook
      by (rewrite Hheap by lia; apply nested_arrays_lookup; lia).
    unfold bind at 1, Heap.read at 1. rewrite Hlook.
    unfold Stack.doResolveArray, bind at 1, Heap.allocate at 1.
    destruct fuel as [|fuel']; [lia|].
    cbn [Stack.doResolveArray_loop]. unfold bind at 1, Heap.read at 1.
    pose proof (lookup_lt_Some _ _ _ Hlook) as Hlen.
    cbn [heap with_heap]. rewrite lookup_app_l, Hlook by done.
    change ([Ref (S i)] !! 0) with (Some (Ref (S i))). cbv beta iota. unfold bind at 1.
    match goal with
    | |- context [Stack.doResolve _ _ _ (S fuel') (S depth) _ ?st1] =>
        destruct (IH (S depth) (S i) (S fuel') st1) as [st' E]; [|lia|lia|lia|]
    end.
    + intros j Hj. simpl. rewrite lookup_app_l; [by apply Hheap|].
      apply (lookup_lt_is_Some_1). rewrite Hheap by done.
      apply lookup_lt_is_Some_2. rewrite nested_arrays_length. lia.
    + rewrite E. by eexists.
Qed.

End Overflow.

(** * The statements of the specification *)

Section Claims.

Context {RS Error : Type}.
Variable getVariable :
  JsString -> RS -> Completion Error (option (RegisteredVariable RS Error)) * RS.

Implicit Types (st : State RS Error) (name n X V : JsString) (ns : list JsString).

Local Abbreviation step := (cache_step getVariable).

Lemma resolveVariables_eq value ps st :
  lastIndex st = 0 -> Tokens value ps ->
  resolveVariables getVariable value st = (Fulfilled tt, foldl step st (names ps)).
Proof.
  intros Hli HT. unfold resolveVariables.
  rewrite (resolveVariables_loop_eq getVariable _ _ _ ps).
  - rewrite <- (cache_steps_lastIndex getVariable st (names ps)) in Hli.
    by rewrite <- Hli, with_lastIndex_same.
  - by rewrite Hli.
  - apply Tokens_names_length in HT. lia.
Qed.

Lemma resolves_to_lookup X V :
  resolves_to getVariable X V -> forall rs, (lookup getVariable X rs).1.1 = Some V.
Proof.
  intros H rs. destruct (H rs) as (var & rs1 & rs2 & E1 & E2).
  unfold lookup. by rewrite E1, E2.
Qed.

(** A call for a string that ends at or before [lastIndex]: the scan
    finds no token and asks for nothing, and the string comes back as it
    is. *)
Lemma resolve_string_skipped (s : JsString) st :
  length s <= lastIndex st ->
  resolve getVariable (JsStr s) st =
    (Fulfilled (JsStr s), with_lastIndex 0 (fresh_context st)).
Proof.
  intros Hlen. rewrite resolve_unfold. cbn [doResolve]. unfold bind.
  rewrite (doResolveString_eq getVariable s (fresh_context st) [] (pieces s)).
  - cbn [names foldl]. unfold ret. do 3 f_equal.
    apply substitute_untouched; [apply Tokens_pieces|].
    intros n _. unfold cached. simpl. by rewrite lookup_empty.
  - simpl. rewrite drop_ge by done. constructor.
  - apply Tokens_pieces.
Qed.

(** C1: for a string with a token [${X}], when the registry resolves [X]
    to ["V"].  A call of [resolve] that no other call overlaps, so that
    [VAR_REGEXP.lastIndex] is 0 when it starts, leaves every name of the
    string in the cache of the Context, [X] with the value ["V"], and
    returns the input with every token [${X}] replaced by ["V"].  But
    [VAR_REGEXP] is one object for all calls, and a scan leaves its
    [lastIndex] at the end of its last match while it awaits the Context
    (lines 99 to 101): a call made then, for a string that ends at or
    before that position, finds no token, asks the registry for nothing
    and returns the string as it is, the token [${X}] in it. *)
Theorem C1_token_replaced_unless_scans_overlap (s : JsString) ps X V st :
  Tokens s ps ->
  X ∈ names ps ->
  resolves_to getVariable X V ->
  (lastIndex st = 0 ->
   exists st',
     resolveVariables getVariable s (fresh_context st) = (Fulfilled tt, st') /\
     (forall n, n ∈ names ps -> is_Some (resolved st' !! n)) /\
     cached st' X = Some V /\
     resolve getVariable (JsStr s) st =
       (Fulfilled (JsStr (substitute (cached st') ps)), st') /\
     (forall rest,
        substitute (cached st') (Tok X :: rest) = V ++ substitute (cached st') rest)) /\
  (length s <= lastIndex st ->
   exists st',
     resolve getVariable (JsStr s) st = (Fulfilled (JsStr s), st') /\
     lookups st' = lookups st /\
     resolved st' = ∅).
Proof.
  intros HT HX HV. split.
  - intros Hli.
    exists (foldl step (fresh_context st) (names ps)).
    assert (cached (foldl step (fresh_context st) (names ps)) X = Some V) as HXV.
    { apply cache_steps_value; [apply lookup_empty|done|].
      by apply resolves_to_lookup. }
    split; [by apply resolveVariables_eq|].
    split; [intros n Hn; by apply cache_steps_present|].
    split; [done|]. split.
    + rewrite resolve_eq by done. cbn [value_names substitute_value].
      by rewrite <- (Tokens_pieces_eq _ _ HT).
    + intros rest. simpl. by rewrite HXV.
  - intros Hlen. eexists. split; [by apply resolve_string_skipped|].
    done.
Qed.

Lemma Context_resolve_failure name e st :
  resolved st !! name = None ->
  fails getVariable name (registry st) e ->
  exists st',
    Context_resolve getVariable name st = (Fulfilled tt, st') /\
    console st' = console st ++ [(name, e)] /\
    resolved st' !! name = Some None.
Proof.
  intros Hnone Hf. rewrite Context_resolve_eq. eexists. split; [done|].
  unfold cache_step, lookup. rewrite Hnone.
  destruct Hf as [(rs1 & ->)|(var & rs1 & rs2 & -> & ->)]; simpl;
    by rewrite lookup_insert_eq.
Qed.

(** C4: in a call of [resolve], [getVariable] is never called twice with
    the same name, and [Context.resolve] returns at once, the state as it
    was, for a name that is in the cache, be it with no value.  In a call
    that no other call overlaps, so that [VAR_REGEXP.lastIndex] is 0 when
    it starts, [getVariable] is called once for each distinct token name
    of the input; for [${X}${X}] it is called once, with [X], and both
    tokens get the same replacement, which is the value of [X] where the
    registry resolves it.  But a call for [${X}${X}] made while the scan
    of another call is suspended at or beyond the end of that string makes
    no lookup at all, and returns the string as it is. *)
Theorem C4_one_lookup_unless_scans_overlap (value : JsValue) st :
  (exists v st' new,
     resolve getVariable value st = (Fulfilled v, st') /\
     lookups st' = lookups st ++ new /\
     NoDup new /\
     (lastIndex st = 0 -> forall n, n ∈ new <-> n ∈ value_names value)) /\
  (forall X, token_name X ->
     (lastIndex st = 0 ->
      exists r st',
        resolve getVariable (JsStr (token_text X ++ token_text X)) st =
          (Fulfilled (JsStr (r ++ r)), st') /\
        lookups st' = lookups st ++ [X] /\
        (forall V, resolves_to getVariable X V -> r = V)) /\
     (length (token_text X ++ token_text X) <= lastIndex st ->
      exists st',
        resolve getVariable (JsStr (token_text X ++ token_text X)) st =
          (Fulfilled (JsStr (token_text X ++ token_text X)), st') /\
        lookups st' = lookups st)) /\
  (forall name (cached_value : option JsString),
     resolved st !! name = Some cached_value ->
     Context_resolve getVariable name st = (Fulfilled tt, st)).
Proof.
  split; [|split].
  - rewrite resolve_unfold.
    destruct (doResolve_reached getVariable value (fresh_context st))
      as (v & st' & E & (i & ns & ->)).
    destruct (cache_steps_lookups getVariable (fresh_context st) ns)
      as (new & Hl & Hnd & _).
    exists v, (with_lastIndex i (foldl step (fresh_context st) ns)), new.
    rewrite E. split; [done|]. split; [done|]. split; [done|].
    intros Hli.
    destruct (cache_steps_lookups getVariable (fresh_context st) (value_names value))
      as (new' & Hl' & _ & Hin).
    pose proof (resolve_eq getVariable value st Hli) as E'.
    rewrite resolve_unfold, E in E'. cbv zeta in E'.
    injection E' as _ Hst. rewrite <- Hst in Hl'. simpl in Hl, Hl'.
    rewrite Hl in Hl'. apply app_inv_head in Hl'. subst new'.
    intros n. rewrite Hin. simpl. rewrite lookup_empty. tauto.
  - intros X HX.
    assert (Tokens (token_text X ++ token_text X) [Tok X; Tok X]) as HT.
    { constructor; [done|]. rewrite <- (app_nil_r (token_text X)).
      constructor; [done|]. constructor. }
    split.
    + intros Hli.
      rewrite resolve_eq by done. cbn [value_names substitute_value].
      rewrite <- (Tokens_pieces_eq _ _ HT). cbn [names foldl substitute].
      set (st1 := step (fresh_context st) X).
      assert (step st1 X = st1) as ->.
      { destruct (cache_step_present getVariable (fresh_context st) X) as [x Hx].
        unfold cache_step at 1. fold st1 in Hx. by rewrite Hx. }
      eexists _, st1. split; [by rewrite app_nil_r|]. split.
      * unfold st1, cache_step. simpl. rewrite lookup_empty.
        by destruct (lookup getVariable X (registry st)) as [[? ?] ?].
      * intros V HV.
        assert (cached st1 X = Some V) as ->; [|done].
        apply (cache_steps_value getVariable (fresh_context st) [X]);
          [apply lookup_empty|apply elem_of_cons; by left|].
        by apply resolves_to_lookup.
    + intros Hlen. eexists. by split; [apply resolve_string_skipped|].
  - intros name cached_value Hc. rewrite Context_resolve_eq.
    unfold cache_step. by rewrite Hc.
Qed.

(** C5: a token whose name the Context could not resolve is written back
    as it stands, delimiters included, where it stood; a string all of
    whose tokens are such is returned as it is. *)
Theorem C5_unresolved_token_kept (s : JsString) ps st :
  lastIndex st = 0 ->
  Tokens s ps ->
  exists st',
    resolve getVariable (JsStr s) st =
      (Fulfilled (JsStr (substitute (cached st') ps)), st') /\
    (forall X, X ∈ names ps -> unresolvable getVariable X -> cached st' X = None) /\
    (forall X rest, cached st' X = None ->
       substitute (cached st') (Tok X :: rest) =
         token_text X ++ substitute (cached st') rest) /\
    ((forall X, X ∈ names ps -> unresolvable getVariable X) ->
       substitute (cached st') ps = s).
Proof.
  intros Hli HT.
  exists (foldl step (fresh_context st) (names ps)).
  assert (forall X, X ∈ names ps -> unresolvable getVariable X ->
            cached (foldl step (fresh_context st) (names ps)) X = None) as Hnone.
  { intros X HX HU. apply cache_steps_value; [apply lookup_empty|done|done]. }
  split; [|split; [done|split]].
  - rewrite resolve_eq by done. cbn [value_names substitute_value].
    by rewrite <- (Tokens_pieces_eq _ _ HT).
  - intros X rest HX. simpl. by rewrite HX.
  - intros HU. apply substitute_untouched; [done|]. intros n Hn. by apply Hnone, HU.
Qed.

(** C7: [resolveArray] returns what [resolve] returns for the same
    sequence, which is a sequence of as many strings. *)
Theorem C7_resolveArray_is_resolve (values : list JsString) st :
  resolveArray getVariable values st = resolve getVariable (JsArray (map JsStr values)) st /\
  exists ss st',
    resolveArray getVariable values st = (Fulfilled (JsArray (map JsStr ss)), st') /\
    length ss = length values.
Proof.
  split; [done|]. unfold resolveArray. rewrite resolve_unfold.
  cbn [doResolve]. unfold doResolveArray.
  destruct (doResolveArray_loop_strings getVariable values [] (fresh_context st))
    as (ss & st' & -> & Hlen).
  by exists ss, st'.
Qed.


End Claims.

Section ShapeClaims.

Context {RS Error : Type}.
Variable getVariable :
  JsString -> RS -> Completion Error (option (RegisteredVariable RS Error)) * RS.

Implicit Types (st : State RS Error) (value : JsValue).

(** Between two calls that do not overlap no scan is under way. *)
Lemma resolve_lastIndex value st :
  lastIndex st = 0 -> lastIndex (resolve getVariable value st).2 = 0.
Proof.
  intros Hli. rewrite resolve_eq by done. simpl.
  by rewrite cache_steps_lastIndex.
Qed.

(** Where no visited object has an own enumerable property named
    [__proto__], the value returned has the shape of the input. *)
Lemma resolve_same_shape value st :
  lastIndex st = 0 -> copyable value = true ->
  exists v st',
    resolve getVariable value st = (Fulfilled v, st') /\ same_shape value v.
Proof.
  intros Hli Hc. eexists _, _. split; [by apply resolve_eq|].
  by apply same_shape_substitute.
Qed.

(** Where an object has no own enumerable property named [__proto__], what
    is returned for it is an object with the prototype of [{}], no
    internal state, and the own enumerable string-keyed properties of the
    input, each with its value resolved. *)
Lemma resolve_object_flattened proto internal props st :
  lastIndex st = 0 ->
  ordered_keys [] (Object_keys props) = true ->
  PROTO ∉ Object_keys props ->
  exists st',
    resolve getVariable (JsObject proto internal props) st =
      (Fulfilled
         (JsObject ObjectPrototype None
            (entries_props
               (map (fun e => (e.1, substitute_value (cached st') e.2))
                  (Object_entries props)))), st').
Proof.
  intros Hli Hord Hproto. eexists. rewrite resolve_eq by done.
  by rewrite substitute_value_copyable.
Qed.

(** C6, amended: when no string the traversal visits has a token,
    [getVariable] is not called and the registry is left alone; when
    moreover the input is plain data, made of scalars, strings, arrays and
    objects with the prototype of [{}], no internal state and only
    enumerable string-keyed properties, none named [__proto__], the value
    returned equals the input. *)
Theorem C6_token_free_input_unchanged value st :
  lastIndex st = 0 ->
  value_names value = [] ->
  exists v st',
    resolve getVariable value st = (Fulfilled v, st') /\
    lookups st' = lookups st /\
    registry st' = registry st /\
    (plain_data value = true -> copyable value = true -> v = value).
Proof.
  intros Hli Hnames. eexists _, _. split; [by apply resolve_eq|].
  rewrite Hnames. simpl. split; [done|]. split; [done|].
  intros Hp Hc. apply substitute_value_plain; [done..|].
  intros n Hn. rewrite Hnames in Hn. by apply elem_of_nil in Hn.
Qed.

End ShapeClaims.

Section HeapClaims.

Context {RS Error : Type}.
Variable getVariable :
  JsString -> RS -> Completion Error (option (RegisteredVariable RS Error)) * RS.

Implicit Types (st : State RS Error) (v : Value) (o : HeapObject) (n l : nat).

Lemma Heap_resolve_unfold fuel value st :
  Heap.resolve getVariable fuel value st =
    match Heap.doResolve getVariable fuel value (fresh_context st) with
    | (Fulfilled v, st') => (Fulfilled v, st')
    | (Rejected e, st') => (Rejected e, st')
    | (Pending, st') => (Pending, st')
    end.
Proof.
  unfold Heap.resolve, bind, Context_new, ret, fresh_context.
  by destruct (Heap.doResolve getVariable fuel value _) as [[v|e|] st'].
Qed.

(** [resolve] over the heap and [resolve] over the trees: for a value that
    reads as the tree [t], with fuel enough for [t], the first returns a
    value that reads as what the second returns for [t], and the states
    differ by the heap only. *)
Theorem Heap_resolve_refines fuel value t st :
  represents 0 (length (heap st)) (heap st) value t ->
  fuel_for t <= fuel ->
  exists v' t' st',
    Heap.resolve getVariable fuel value st = (Fulfilled v', st') /\
    resolve getVariable t st = (Fulfilled t', with_heap (heap st) st') /\
    represents (length (heap st)) (length (heap st')) (heap st') v' t'.
Proof.
  intros Hrep Hfuel.
  destruct (heap_refines_tree getVariable t fuel Hfuel value (fresh_context st)
              (length (heap st)) (heap st)) as (v' & t' & st' & E & T & Hrep');
    [done|done|].
  exists v', t', st'. rewrite Heap_resolve_unfold, resolve_unfold, E.
  replace (fresh_context st) with (with_heap (heap st) (fresh_context st))
    by (by destruct st).
  by rewrite T.
Qed.

(** C9: [resolve] writes to no array and to no object that existed when
    it was called, so its argument reads afterwards as it read before;
    every array and object reached from what it returns was allocated
    during the call; hence a write to one of them changes nothing that
    existed before the call.  For an argument that reads as a tree the
    call returns, given fuel for the tree. *)
Theorem C9_resolve_leaves_its_argument fuel (value : Value) st r st' :
  Heap.resolve getVariable fuel value st = (r, st') ->
  (forall l, l < length (heap st) -> heap st' !! l = heap st !! l) /\
  (forall t,
     represents 0 (length (heap st)) (heap st) value t ->
     represents 0 (length (heap st)) (heap st') value t /\
     (fuel_for t <= fuel -> exists v, r = Fulfilled v)) /\
  (forall v l, r = Fulfilled v -> reachable (heap st') v l -> length (heap st) <= l) /\
  (forall v l o l0,
     r = Fulfilled v -> reachable (heap st') v l -> l0 < length (heap st) ->
     <[l := o]> (heap st') !! l0 = heap st !! l0).
Proof.
  intros H. pose proof H as H'. rewrite Heap_resolve_unfold in H.
  destruct (Heap.doResolve getVariable fuel value (fresh_context st))
    as [r1 st1] eqn:E.
  destruct (doResolve_kept getVariable _ _ _ _ _ E) as [Hk Ha]. simpl in Hk, Ha.
  destruct (Hk (length (heap st)) (Nat.le_refl _)) as (Hlen & Hframe & Hregion).
  assert (st1 = st') as -> by (destruct r1; by inversion H).
  assert (forall v l, r = Fulfilled v -> reachable (heap st') v l -> length (heap st) <= l)
    as Hfresh.
  { intros v l -> Hreach.
    apply (reachable_above _ _ _ _ (Hregion ltac:(
      intros l' o' Hl' Hlook; simpl in Hlook;
      apply lookup_lt_Some in Hlook; lia)) Hreach).
    apply Ha. destruct r1; by inversion H. }
  split; [done|]. split; [|split; [done|]].
  - intros t Hrep. split.
    + eapply (represents_frame 0 (length (heap st)) (heap st)); [lia|lia| |done].
      intros l Hl. apply Hframe. lia.
    + intros Hfuel.
      destruct (Heap_resolve_refines fuel value t st Hrep Hfuel) as (v' & _ & st2 & E2 & _).
      rewrite E2 in H'. inversion H'; subst. by exists v'.
  - intros v l o l0 Hr Hreach Hl0.
    rewrite list_lookup_insert_ne; [by apply Hframe|].
    specialize (Hfresh _ _ Hr Hreach). lia.
Qed.


End HeapClaims.

(** * The statements at concrete inputs *)

(** The second of [Promise.all([resolve("${X}"), resolve("${X}")])]: the
    first call has matched its token, called [getVariable] and awaits;
    [lastIndex] is 4, the end of the match. *)
Lemma C1_witness :
  let first_call :=
    bind (RegExp_exec (js "${X}"))
      (fun _ => registry_getVariable sample_getVariable (js "X")) in
  let suspended := (first_call (fresh_context initial_state)).2 in
  lastIndex suspended = 4 /\
  (exists st',
     resolve sample_getVariable (JsStr (js "${X}")) initial_state =
       (Fulfilled (JsStr (js "V")), st')) /\
  (exists st',
     resolve sample_getVariable (JsStr (js "${X}")) suspended =
       (Fulfilled (JsStr (js "${X}")), st') /\
     lookups st' = lookups suspended /\
     resolved st' = ∅).
Proof.
  intros first_call suspended. split; [reflexivity|].
  assert (Tokens (js "${X}") (pieces (js "${X}"))) as HT by apply Tokens_pieces.
  assert (js "X" ∈ names (pieces (js "${X}"))) as HX
    by (vm_compute; apply elem_of_cons; by left).
  assert (resolves_to sample_getVariable (js "X") (js "V")) as HV
    by (intros rs; vm_compute; eauto).
  split.
  - destruct (C1_token_replaced_unless_scans_overlap sample_getVariable (js "${X}")
                (pieces (js "${X}")) (js "X") (js "V") initial_state HT HX HV)
      as [H _].
    destruct (H eq_refl) as (st' & _ & _ & Hc & E & _).
    exists st'. rewrite E. do 2 f_equal.
    change (pieces (js "${X}")) with [Tok (js "X")]. simpl. by rewrite Hc.
  - destruct (C1_token_replaced_unless_scans_overlap sample_getVariable (js "${X}")
                (pieces (js "${X}")) (js "X") (js "V") suspended HT HX HV)
      as [_ H].
    apply H. vm_compute. lia.
Defined.


(** The second of [Promise.all([resolve("0123456789${Y}"),
    resolve("${X}${X}")])]: the first call awaits with [lastIndex] at
    14. *)
Lemma C4_witness :
  let first_call :=
    bind (RegExp_exec (js "0123456789${Y}"))
      (fun _ => registry_getVariable sample_getVariable (js "Y")) in
  let suspended := (first_call (fresh_context initial_state)).2 in
  lastIndex suspended = 14 /\
  (exists r st',
     resolve sample_getVariable (JsStr (js "${X}${X}")) initial_state =
       (Fulfilled (JsStr (r ++ r)), st') /\
     lookups st' = lookups initial_state ++ [js "X"] /\
     r = js "V") /\
  (exists st',
     resolve sample_getVariable (JsStr (js "${X}${X}")) suspended =
       (Fulfilled (JsStr (js "${X}${X}")), st') /\
     lookups st' = lookups suspended).
Proof.
  intros first_call suspended. split; [reflexivity|].
  assert (token_name (js "X")) as HX by (repeat constructor; by vm_compute).
  split.
  - destruct (C4_one_lookup_unless_scans_overlap sample_getVariable JsNull initial_state)
      as (_ & H & _).
    destruct (H (js "X") HX) as [H0 _].
    destruct (H0 eq_refl) as (r & st' & E & Hl & Hr).
    exists r, st'. split; [exact E|]. split; [exact Hl|].
    apply Hr. intros rs. vm_compute. eauto.
  - destruct (C4_one_lookup_unless_scans_overlap sample_getVariable JsNull suspended)
      as (_ & H & _).
    destruct (H (js "X") HX) as [_ H1].
    apply H1. vm_compute. lia.
Defined.

Lemma C5_witness :
  exists st',
    resolve sample_getVariable (JsStr (js "a${Y}b${fail}")) initial_state =
      (Fulfilled (JsStr (js "a${Y}b${fail}")), st').
Proof.
  destruct (C5_unresolved_token_kept sample_getVariable (js "a${Y}b${fail}")
              (pieces (js "a${Y}b${fail}")) initial_state)
    as (st' & E & _ & _ & Hall).
  - reflexivity.
  - apply Tokens_pieces.
  - exists st'. rewrite E, Hall; [reflexivity|].
    intros X HX rs. vm_compute in HX.
    repeat (apply elem_of_cons in HX as [->|HX]; [by vm_compute|]).
    by apply elem_of_nil in HX.
Defined.

Lemma C6_witness :
  let input :=
    object_literal [("a", JsStr (js "$ {X}")); ("b", JsArray [JsNumber 42; JsNull])] in
  exists st',
    resolve sample_getVariable input initial_state = (Fulfilled input, st') /\
    lookups st' = lookups initial_state /\
    registry st' = registry initial_state.
Proof.
  intros input.
  destruct (C6_token_free_input_unchanged sample_getVariable input initial_state)
    as (v & st' & E & Hl & Hr & Hv).
  - reflexivity.
  - reflexivity.
  - exists st'. rewrite <- (Hv eq_refl eq_refl) at 2. by split.
Defined.


(** C2: an own enumerable property named [__proto__], as [JSON.parse] makes
    one, is not in the object [resolve] returns: the assignment
    [result[name] = resolved] runs the setter of [Object.prototype] and
    creates no property.  The value returned has not the keys of the
    input. *)
Theorem C2_proto_key_dropped :
  let input := object_literal [("__proto__", JsStr (js "x")); ("a", JsStr (js "${X}"))] in
  let output := object_literal [("a", JsStr (js "V"))] in
  (resolve sample_getVariable input initial_state).1 = Fulfilled output /\
  ~ same_shape input output.
Proof.
  split; [by vm_compute|].
  intros H. inversion H as [v Hs| | |? ? ? ? ? ? Hall]; subst.
  simpl in Hall. inversion Hall as [|? ? ? ? [Hk _] Hrest]; subst.
  by vm_compute in Hk.
Qed.

(** C6 as stated fails on an object that is not plain: a Date has no token
    and comes back as [{}]. *)
Lemma C6_counterexample :
  let date := JsObject (ClassPrototype "Date") (Some 1) [] in
  value_names date = [] /\
  resolve sample_getVariable date initial_state =
    (Fulfilled (JsObject ObjectPrototype None []), initial_state) /\
  JsObject ObjectPrototype None [] <> date.
Proof. split; [done|]. split; [by vm_compute|done]. Qed.


(** C10: an instance of a class with an own enumerable property named
    [__proto__] whose value is an object, as
    [Object.setPrototypeOf(JSON.parse(text), Settings.prototype)] makes one:
    the object [resolve] returns has not that key, and its prototype is the
    resolved value, not the prototype of [{}]. *)
Theorem C10_proto_key_replaces_prototype :
  let input :=
    JsObject (ClassPrototype "Settings") None
      [mkProperty (StringKey PROTO) true (object_literal [("b", JsStr (js "${X}"))]);
       mkProperty (StringKey (js "a")) true (JsStr (js "${X}"))] in
  let output :=
    JsObject (ValuePrototype (object_literal [("b", JsStr (js "V"))])) None
      [mkProperty (StringKey (js "a")) true (JsStr (js "V"))] in
  (resolve sample_getVariable input initial_state).1 = Fulfilled output.
Proof. by vm_compute. Qed.


Lemma C9_witness :
  let run := Heap.resolve sample_getVariable 8 (Ref 0) sample_heap_state in
  run.1 = Fulfilled (Ref 2) /\
  (forall l, l < length (heap sample_heap_state) ->
     heap run.2 !! l = heap sample_heap_state !! l) /\
  (forall t,
     represents 0 (length (heap sample_heap_state)) (heap sample_heap_state) (Ref 0) t ->
     represents 0 (length (heap sample_heap_state)) (heap run.2) (Ref 0) t /\
     (fuel_for t <= 8 -> exists v, run.1 = Fulfilled v)) /\
  (forall v l, run.1 = Fulfilled v -> reachable (heap run.2) v l ->
     length (heap sample_heap_state) <= l) /\
  (forall v l o l0,
     run.1 = Fulfilled v -> reachable (heap run.2) v l ->
     l0 < length (heap sample_heap_state) ->
     <[l := o]> (heap run.2) !! l0 = heap sample_heap_state !! l0).
Proof.
  intros run. split; [by vm_compute|].
  apply (C9_resolve_leaves_its_argument sample_getVariable 8 (Ref 0) sample_heap_state
           run.1 run.2).
  by vm_compute.
Defined.

(** * The examples of the specification *)

(** [{a: "${X}", b: ["${X}", "${Y}"]}] with [X] known and [Y] unknown. *)
Example resolve_object_example :
  (resolve sample_getVariable
     (object_literal
        [("a", JsStr (js "${X}"));
         ("b", JsArray [JsStr (js "${X}"); JsStr (js "${Y}")])])
     initial_state).1 =
  Fulfilled
    (object_literal
       [("a", JsStr (js "V"));
        ("b", JsArray [JsStr (js "V"); JsStr (js "${Y}")])]).
Proof. by vm_compute. Qed.

(** [["${X}", 42, null, {c: "${X}"}]] *)
Example resolve_array_example :
  (resolve sample_getVariable
     (JsArray [JsStr (js "${X}"); JsNumber 42; JsNull;
               object_literal [("c", JsStr (js "${X}"))]])
     initial_state).1 =
  Fulfilled
    (JsArray [JsStr (js "V"); JsNumber 42; JsNull;
              object_literal [("c", JsStr (js "V"))]]).
Proof. by vm_compute. Qed.

(** A variable whose [resolve] rejects, and a registry that throws: the
    tokens stay, the failures are reported, the call is fulfilled. *)
Example resolve_failure_example :
  let run := resolve sample_getVariable (JsStr (js "${fail}-${broken}-${X}")) initial_state in
  run.1 = Fulfilled (JsStr (js "${fail}-${broken}-V")) /\
  console run.2 = [(js "fail", js "rejected"); (js "broken", js "thrown")] /\
  lookups run.2 = [js "fail"; js "broken"; js "X"].
Proof. by vm_compute. Qed.

(** [resolveArray(["${X}"])] *)
Example resolveArray_example :
  (resolveArray sample_getVariable [js "${X}"] initial_state).1 =
  Fulfilled (JsArray [JsStr (js "V")]).
Proof. by vm_compute. Qed.

(** [a = {}; a.self = a; resolve(a)]: on a stack without end the
    traversal has not returned when the fuel is spent; on a stack with
    room for 10 calls the promise is rejected. *)
Example resolve_cycle_example :
  (Heap.resolve sample_getVariable 50 (Ref 0) (with_heap self_heap initial_state)).1
    = Pending /\
  (Stack.resolve sample_getVariable 10 (js "RangeError") 50 (Ref 0)
     (with_heap self_heap initial_state)).1 = Rejected (js "RangeError").
Proof. by vm_compute. Qed.

(** [Promise.all([resolve(["${X}", "a"]), resolve(["${X}", "${X}"])])]:
    the second call starts while the first awaits [X] with [lastIndex] at
    4.  Its first string comes back as it is; the scan of its second
    string starts at 0, puts [X] in the cache, and the token is
    replaced. *)
Example resolve_overlap_example :
  let first_call :=
    bind (RegExp_exec (js "${X}"))
      (fun _ => registry_getVariable sample_getVariable (js "X")) in
  let suspended := (first_call (fresh_context initial_state)).2 in
  (resolve sample_getVariable (JsArray [JsStr (js "${X}"); JsStr (js "${X}")])
     suspended).1 =
  Fulfilled (JsArray [JsStr (js "${X}"); JsStr (js "V")]).
Proof. by vm_compute. Qed.

(** * Further properties of the code *)

(** ** The requests of a call, in order *)

Section CacheOrder.

Context {RS Error : Type}.
Variable getVariable :
  JsString -> RS -> Completion Error (option (RegisteredVariable RS Error)) * RS.

Implicit Types (st : State RS Error) (name n : JsString) (ns seen : list JsString).

Local Abbreviation step := (cache_step getVariable).

Lemma cache_step_cached st n x : resolved st !! n = Some x -> step st n = st.
Proof. intros H. unfold cache_step. by rewrite H. Qed.

Lemma cache_steps_dom st ns n :
  is_Some (resolved (foldl step st ns) !! n) <-> is_Some (resolved st !! n) \/ n ∈ ns.
Proof.
  revert st. induction ns as [|n' ns IH]; intros st; simpl.
  - rewrite elem_of_nil. tauto.
  - rewrite IH, elem_of_cons. split.
    + intros [H|H]; [|tauto]. destruct (decide (n = n')) as [->|Hne]; [tauto|].
      left. destruct (resolved st !! n) eqn:E; [eauto|].
      rewrite (cache_step_absent getVariable) in H by done. by destruct H.
    + intros [[x Hx]|[->|H]].
      * left. exists x. by apply cache_step_kept.
      * left. apply cache_step_present.
      * by right.
Qed.

Lemma cache_steps_heap st ns : heap (foldl step st ns) = heap st.
Proof.
  revert st. induction ns as [|n ns IH]; intros st; [done|].
  simpl. by rewrite IH, cache_step_heap.
Qed.

(** The calls a sequence of requests makes, and what they leave of the
    registry: one lookup for each name that is not in the cache, at its
    first occurrence. *)
Lemma cache_steps_order st ns seen :
  (forall n, n ∈ seen <-> is_Some (resolved st !! n)) ->
  lookups (foldl step st ns) = lookups st ++ first_occurrences seen ns /\
  registry (foldl step st ns) =
    foldl (fun rs n => (lookup getVariable n rs).2) (registry st)
      (first_occurrences seen ns).
Proof.
  revert st seen. induction ns as [|n ns IH]; intros st seen Hseen; simpl.
  - by rewrite app_nil_r.
  - destruct (decide (n ∈ seen)) as [Hin|Hnin].
    + apply Hseen in Hin as [x Hx]. rewrite (cache_step_cached _ _ _ Hx). by apply IH.
    + assert (resolved st !! n = None) as Hnone.
      { destruct (resolved st !! n) eqn:E; [|done]. destruct Hnin. apply Hseen. eauto. }
      destruct (IH (step st n) (n :: seen)) as [Hl Hr].
      { intros m. rewrite elem_of_cons, Hseen. unfold cache_step. rewrite Hnone.
        destruct (lookup getVariable n (registry st)) as [[v errs] rs]. simpl.
        destruct (decide (m = n)) as [->|Hne].
        - rewrite lookup_insert_eq. split; eauto.
        - rewrite lookup_insert_ne by done. split; [intros [?|?]; done|tauto]. }
      assert (lookups (step st n) = lookups st ++ [n] /\
              registry (step st n) = (lookup getVariable n (registry st)).2) as [El Er].
      { unfold cache_step. rewrite Hnone.
        by destruct (lookup getVariable n (registry st)) as [[? ?] ?]. }
      rewrite Hl, Hr, El, Er. simpl. by rewrite <- app_assoc.
Qed.

Lemma lookup_errors n rs :
  (lookup getVariable n rs).1.2 = [] \/
  exists e, (lookup getVariable n rs).1.2 = [e] /\ fails getVariable n rs e.
Proof.
  unfold lookup, fails.
  destruct (getVariable n rs) as [[[var|]|e] rs1] eqn:E; simpl.
  - destruct (Variable_resolve var rs1) as [[v|e] rs2] eqn:E2; simpl; [by left|].
    right. exists e. split; [done|]. right. eauto 10.
  - by left.
  - right. exists e. split; [done|]. left. eauto.
Qed.

(** What a sequence of requests reports: at most one failure for a name,
    and only failures of lookups that were made. *)
Lemma cache_steps_console st ns :
  exists new,
    console (foldl step st ns) = console st ++ new /\
    NoDup new.*1 /\
    forall n e, (n, e) ∈ new ->
      n ∈ ns /\ resolved st !! n = None /\ exists rs, fails getVariable n rs e.
Proof.
  revert st. induction ns as [|n' ns IH]; intros st; simpl.
  - exists []. rewrite app_nil_r. split; [done|]. split; [constructor|].
    intros n e H. by apply elem_of_nil in H.
  - destruct (IH (step st n')) as (new & Hc & Hnd & Hin).
    destruct (resolved st !! n') as [x|] eqn:E.
    + rewrite (cache_step_cached _ _ _ E) in *. exists new.
      split; [done|]. split; [done|]. intros n e H.
      destruct (Hin n e H) as (? & ? & ?). split; [apply elem_of_cons; tauto|done].
    + assert (forall n e, (n, e) ∈ new -> n <> n' /\ resolved st !! n = None) as Hold.
      { intros n e H. destruct (Hin n e H) as (_ & Hnone & _).
        destruct (cache_step_present getVariable st n') as [x Hx].
        split; [intros ->; congruence|].
        destruct (resolved st !! n) as [y|] eqn:En; [|done].
        by rewrite (cache_step_kept getVariable _ _ _ _ En) in Hnone. }
      assert (console (step st n') =
                console st ++ map (pair n') (lookup getVariable n' (registry st)).1.2) as Hstep.
      { unfold cache_step. rewrite E.
        by destruct (lookup getVariable n' (registry st)) as [[? ?] ?]. }
      rewrite Hc, Hstep, <- app_assoc.
      destruct (lookup_errors n' (registry st)) as [->|(e' & -> & Hf)]; simpl.
      * exists new. split; [done|]. split; [done|]. intros n e H.
        destruct (Hin n e H) as (? & _ & ?), (Hold n e H) as [_ ?].
        split; [apply elem_of_cons; tauto|done].
      * exists ((n', e') :: new). split; [done|]. split.
        -- simpl. constructor; [|done]. intros H.
           apply list_elem_of_fmap in H as [[n e] [-> H]]. by destruct (Hold n e H).
        -- intros n e H. apply elem_of_cons in H as [[= -> ->]|H].
           ++ split; [apply elem_of_cons; tauto|]. split; [done|]. eauto.
           ++ destruct (Hin n e H) as (? & _ & ?), (Hold n e H) as [_ ?].
              split; [apply elem_of_cons; tauto|done].
Qed.

End CacheOrder.

(** ** The pattern, match by match *)

Lemma search_Some s i m e :
  search s i = Some (m, e) ->
  exists k,
    index m = i + k /\
    (forall j, j < k -> match_at (drop j s) = None) /\
    token_name (group1 m) /\
    matched m = token_text (group1 m) /\
    take (length (matched m)) (drop k s) = matched m /\
    e = index m + length (matched m) /\
    k + length (matched m) <= length s.
Proof.
  revert i. induction s as [|c s IH]; intros i; rewrite search_unfold.
  - done.
  - destruct (match_at (c :: s)) as [[name rest]|] eqn:E.
    + clear IH. apply match_at_Some in E as [Hn E]. rewrite E.
      rewrite <- length_token_text, take_app_length.
      intros H. injection H as <- <-. cbn [index matched group1]. exists 0.
      split; [lia|]. split; [lia|]. split; [done|]. split; [done|].
      split; [by rewrite drop_0, take_app_length|]. split; [done|].
      rewrite length_app, length_token_text. lia.
    + intros H. apply IH in H as (k & Hi & Hno & Hn & Hm & Ht & He & Hlen).
      exists (S k). split; [lia|]. split.
      { intros [|j] Hj; [by rewrite drop_0|]. apply Hno. lia. }
      split; [done|]. split; [done|]. split; [done|]. split; [done|]. simpl. lia.
Qed.

Lemma search_None s i : search s i = None -> forall j, match_at (drop j s) = None.
Proof.
  revert i. induction s as [|c s IH]; intros i; rewrite search_unfold.
  - intros _ j. by rewrite drop_nil.
  - destruct (match_at (c :: s)) as [[name rest]|] eqn:E; [done|].
    intros H [|j]; [done|]. by apply (IH (S i)).
Qed.

(** ** Rebuilding any object *)

Section RebuildAny.

Variable f : JsValue -> JsValue.

Lemma ordered_keys_new seen names n :
  ordered_keys seen names = true -> n ∈ names -> n ∉ seen.
Proof.
  revert seen. induction names as [|name names IH]; intros seen Hord Hin;
    [by apply elem_of_nil in Hin|].
  cbn [ordered_keys] in Hord.
  apply andb_prop in Hord as [Hord Hrest]. apply andb_prop in Hord as [_ Hnew].
  apply bool_decide_eq_true in Hnew.
  apply elem_of_cons in Hin as [->|Hin]; [done|].
  intros Hs. apply (IH _ Hrest Hin). apply elem_of_app. by left.
Qed.

Lemma entries_keys (props : list (Property JsValue)) n (v : JsValue) :
  (n, v) ∈ Object_entries props -> n ∈ Object_keys props.
Proof.
  induction props as [|[[name|id] [|] w] props IH]; simpl; intros H; auto.
  - by apply elem_of_nil in H.
  - apply elem_of_cons in H as [[= -> ->]|H]; apply elem_of_cons; auto.
Qed.

(** Assigning a name that is not [__proto__], that the object has not, and
    that [[OwnPropertyKeys]] lists last: the property is appended, whatever
    the prototype. *)
Lemma Object_set_append proto (es : list (JsString * JsValue)) name v :
  Forall (fun n => listed_before (StringKey n) name = true) es.*1 ->
  name ∉ es.*1 -> name <> PROTO ->
  Object_set JsValue_as_prototype (proto, entries_props es) name v =
    (proto, entries_props (es ++ [(name, v)])).
Proof.
  intros Hord Hnew Hproto. unfold Object_set, has_own_property.
  rewrite bool_decide_eq_false_2.
  - assert (insert_property name v (entries_props es) = entries_props (es ++ [(name, v)]))
      as ->.
    { rewrite insert_property_last; [unfold entries_props; by rewrite map_app|].
      apply Forall_forall. intros p Hp.
      apply list_elem_of_fmap in Hp as [[n w] [-> Hin]]. simpl.
      rewrite Forall_forall in Hord. apply Hord.
      apply list_elem_of_fmap. by exists (n, w). }
    destruct proto; try done. by rewrite decide_False.
  - rewrite keys_entries_props. intros Hin.
    apply list_elem_of_fmap in Hin as [n [Hn Hin]]. by inversion Hn; subst.
Qed.

(** Assigning [__proto__] to an object that still has the prototype [{}]
    gave it: no property is made. *)
Lemma Object_set_proto (es : list (JsString * JsValue)) v :
  PROTO ∉ es.*1 ->
  Object_set JsValue_as_prototype (ObjectPrototype, entries_props es) PROTO v =
    (default ObjectPrototype (JsValue_as_prototype v), entries_props es).
Proof.
  intros Hnew. unfold Object_set, has_own_property.
  rewrite bool_decide_eq_false_2.
  - rewrite decide_True by done. by destruct (JsValue_as_prototype v).
  - rewrite keys_entries_props. intros Hin.
    apply list_elem_of_fmap in Hin as [n [Hn Hin]]. by inversion Hn; subst.
Qed.

Lemma foldl_Object_set_any props :
  forall proto seen es,
    ordered_keys seen (Object_keys props) = true ->
    es.*1 = filter (fun n => n <> PROTO) seen ->
    proto = ObjectPrototype \/ PROTO ∈ seen ->
    let r :=
      foldl (fun result p =>
               visited p (fun name v' =>
                 Object_set JsValue_as_prototype result name (f v')) result)
        (proto, entries_props es) props in
    r.2 = entries_props
            (es ++ map (fun e => (e.1, f e.2))
                     (filter (fun e => e.1 <> PROTO) (Object_entries props))) /\
    (PROTO ∉ Object_keys props -> r.1 = proto) /\
    (forall v, (PROTO, v) ∈ Object_entries props ->
       r.1 = default ObjectPrototype (JsValue_as_prototype (f v))).
Proof.
  induction props as [|[[name|id] [|] v] props IH]; intros proto seen es Hord Hes Hproto;
    cbn [foldl visited Object_keys Object_entries key enumerable] in *;
    try (by apply (IH proto seen es)).
  - rewrite filter_nil. simpl. rewrite app_nil_r. split; [done|]. split; [done|].
    intros v H. by apply elem_of_nil in H.
  - pose proof Hord as Hord0. cbn [ordered_keys] in Hord.
    apply andb_prop in Hord as [Hord Hrest]. apply andb_prop in Hord as [Hlb Hnew].
    apply bool_decide_eq_true in Hnew.
    assert (forall n, n ∈ es.*1 -> n ∈ seen /\ n <> PROTO) as Hsub.
    { intros n. rewrite Hes, list_elem_of_filter. tauto. }
    destruct (decide (name = PROTO)) as [->|Hne].
    + destruct Hproto as [->|?]; [|done].
      rewrite Object_set_proto by (intros H; by apply Hsub in H as [_ ?]).
      assert (PROTO ∉ Object_keys props) as Hlast.
      { intros H. apply (ordered_keys_new _ _ _ Hrest H), elem_of_app.
        right. apply elem_of_cons. by left. }
      destruct (IH (default ObjectPrototype (JsValue_as_prototype (f v)))
                  (seen ++ [PROTO]) es) as (H2 & H1 & _).
      * done.
      * rewrite filter_app, Hes, filter_cons_False, filter_nil, app_nil_r; [done|].
        by intros H.
      * right. apply elem_of_app. right. apply elem_of_cons. by left.
      * rewrite filter_cons_False by (by intros H). split; [done|]. split.
        -- intros H. destruct H. apply elem_of_cons. by left.
        -- intros v' H. apply elem_of_cons in H as [[= ->]|H]; [by apply H1|].
           by apply entries_keys in H.
    + rewrite Object_set_append; [| |by intros H; apply Hsub in H as [? _]|done].
      2: { apply Forall_forall. intros n Hn. apply Hsub in Hn as [Hn _].
           rewrite forallb_forall in Hlb. by apply Hlb, list_elem_of_In. }
      destruct (IH proto (seen ++ [name]) (es ++ [(name, f v)])) as (H2 & H1 & H3).
      * done.
      * rewrite fmap_app, filter_app, Hes, filter_cons_True, filter_nil; done.
      * destruct Hproto as [?|?]; [by left|]. right. apply elem_of_app. by left.
      * rewrite filter_cons_True by done. cbn [map fst snd].
        split; [by rewrite H2, <- app_assoc|]. split.
        -- intros H. apply H1. intros Hin. apply H, elem_of_cons. by right.
        -- intros v' H. apply elem_of_cons in H as [[= ? ?]|H]; [done|]. by apply H3.
Qed.

End RebuildAny.

Lemma substitute_value_object get proto internal props :
  ordered_keys [] (Object_keys props) = true ->
  exists proto',
    substitute_value get (JsObject proto internal props) =
      JsObject proto' None
        (entries_props
           (map (fun e => (e.1, substitute_value get e.2))
              (filter (fun e => e.1 <> PROTO) (Object_entries props)))) /\
    (PROTO ∉ Object_keys props -> proto' = ObjectPrototype) /\
    (forall v, (PROTO, v) ∈ Object_entries props ->
       proto' = default ObjectPrototype (JsValue_as_prototype (substitute_value get v))).
Proof.
  intros Hord. cbn [substitute_value].
  destruct (foldl_Object_set_any (substitute_value get) props ObjectPrototype [] [])
    as (H2 & H1 & H3); [done|done|by left|].
  eexists. split; [|split; [exact H1|exact H3]].
  change (@nil (Property JsValue)) with (@entries_props JsValue []). by rewrite H2.
Qed.

(** What is not an own enumerable string-keyed property is not read. *)
Section EntriesOnly.

Context {RS Error : Type}.
Variable doResolve : JsValue -> @M RS Error JsValue.

Lemma doResolveObject_loop_entries props :
  forall result st,
    doResolveObject_loop doResolve props result st =
    doResolveObject_loop doResolve (entries_props (Object_entries props)) result st.
Proof.
  induction props as [|[[name|id] [|] v] props IH]; intros result st;
    cbn [Object_entries entries_props map doResolveObject_loop fst snd]; try done.
  unfold bind. destruct (doResolve v st) as [[w|e|] st1]; [|done..].
  apply IH.
Qed.

End EntriesOnly.

(** ** The traversal of a heap that holds a cycle *)

Section CycleFacts.

Context {RS Error : Type}.
Variable getVariable :
  JsString -> RS -> Completion Error (option (RegisteredVariable RS Error)) * RS.

Implicit Types (st : State RS Error) (v w : Value) (h : list HeapObject) (n l : nat).

Lemma child_frame h h' v v' :
  (forall l, l < length h -> h' !! l = h !! l) -> child h v v' -> child h' v v'.
Proof.
  intros Hf [l elements w E Hin|l proto internal props name w E Hk Hg].
  - eapply child_element; [|done]. rewrite Hf; [done|]. by eapply lookup_lt_Some.
  - eapply child_property; [|done..]. rewrite Hf; [done|]. by eapply lookup_lt_Some.
Qed.

Section Loops.

Variable doResolve : Value -> @M RS Error Value.
Hypothesis doResolve_kept : forall value st r st',
  doResolve value st = (r, st') ->
  (forall n, n <= length (heap st) -> kept n st st') /\
  (forall v, r = Fulfilled v -> above (length (heap st)) v).

(** When the loop of [doResolveArray] returns, [doResolve] has returned
    for every element from [i] on. *)
Lemma doResolveArray_loop_descent fuel values elements n result :
  values < n -> n <= result ->
  forall i st r st',
    result < length (heap st) ->
    heap st !! values = Some (ArrayObject elements) ->
    Heap.doResolveArray_loop doResolve fuel values i result st = (Fulfilled r, st') ->
    forall j v', i <= j -> elements !! j = Some v' ->
      exists st1 w st2, doResolve v' st1 = (Fulfilled w, st2) /\ kept n st st1.
Proof.
  intros Hvalues Hn. induction fuel as [|fuel IH]; intros i st r st' Hres Hlook H j v' Hj Hv';
    [done|].
  cbn [Heap.doResolveArray_loop] in H. unfold bind at 1, Heap.read at 1 in H.
  rewrite Hlook in H.
  destruct (elements !! i) as [value|] eqn:Hi.
  2: { apply lookup_ge_None in Hi. apply lookup_lt_Some in Hv'. lia. }
  unfold bind at 1 in H.
  destruct (doResolve value st) as [[resolved|e|] st1] eqn:E1; [|done..].
  destruct (doResolve_kept _ _ _ _ E1) as [Hk Ha]. specialize (Ha _ eq_refl).
  assert (kept n st st1) as Hk1 by (apply Hk; lia).
  destruct (Array_push_kept n result resolved st1) as (st2 & E2 & Hk2);
    [done|by apply (above_mono _ (length (heap st))); [lia|]|].
  unfold bind at 1 in H. rewrite E2 in H.
  destruct (decide (j = i)) as [->|Hne].
  - rewrite Hi in Hv'. injection Hv' as <-. exists st, resolved, st1.
    split; [done|apply kept_refl].
  - assert (kept n st st2) as Hk12 by (by apply (kept_trans _ _ st1)).
    destruct (IH (S i) st2 r st') with (j := j) (v' := v') as (st3 & w & st4 & E & Hk3).
    + destruct Hk12 as [? _]. lia.
    + destruct Hk12 as (_ & Hf & _). by rewrite Hf by lia.
    + done.
    + lia.
    + done.
    + exists st3, w, st4. split; [done|]. by apply (kept_trans _ _ st2).
Qed.

(** When the loop of [doResolveObject] returns, [doResolve] has returned
    for the value of every name of the list. *)
Lemma doResolveObject_loop_descent obj proto internal props n result :
  obj < n -> n <= result ->
  forall keys st r st',
    result < length (heap st) ->
    heap st !! obj = Some (OrdinaryObject proto internal props) ->
    Heap.doResolveObject_loop doResolve keys obj result st = (Fulfilled r, st') ->
    forall name, name ∈ keys ->
      exists st1 w st2,
        doResolve (default Undefined (Object_get props name)) st1 = (Fulfilled w, st2) /\
        kept n st st1.
Proof.
  intros Hobj Hn. induction keys as [|name' keys IH];
    intros st r st' Hres Hlook H name Hin; [by apply elem_of_nil in Hin|].
  cbn [Heap.doResolveObject_loop] in H. unfold bind at 1, Heap.read at 1 in H.
  rewrite Hlook in H. unfold bind at 1 in H.
  destruct (doResolve (default Undefined (Object_get props name')) st)
    as [[resolved|e|] st1] eqn:E1; [|done..].
  destruct (doResolve_kept _ _ _ _ E1) as [Hk Ha]. specialize (Ha _ eq_refl).
  assert (kept n st st1) as Hk1 by (apply Hk; lia).
  destruct (Object_assign_kept n result name' resolved st1) as (st2 & E2 & Hk2);
    [done|by apply (above_mono _ (length (heap st))); [lia|]|].
  unfold bind at 1 in H. rewrite E2 in H.
  apply elem_of_cons in Hin as [->|Hin].
  - exists st, resolved, st1. split; [done|apply kept_refl].
  - assert (kept n st st2) as Hk12 by (by apply (kept_trans _ _ st1)).
    destruct (IH st2 r st') with (name := name) as (st3 & w & st4 & E & Hk3).
    + destruct Hk12 as [? _]. lia.
    + destruct Hk12 as (_ & Hf & _). by rewrite Hf by lia.
    + done.
    + done.
    + exists st3, w, st4. split; [done|]. by apply (kept_trans _ _ st2).
Qed.

End Loops.

(** When the traversal of [v] returns, the traversal of each value it
    descends into has returned, with one unit of fuel less, in a state
    where the objects that were there are as they were. *)
Lemma Heap_doResolve_descent fuel v v' st w st' :
  Heap.doResolve getVariable (S fuel) v st = (Fulfilled w, st') ->
  child (heap st) v v' ->
  exists st1 w1 st2,
    Heap.doResolve getVariable fuel v' st1 = (Fulfilled w1, st2) /\
    (forall l, l < length (heap st) -> heap st1 !! l = heap st !! l).
Proof.
  intros H Hchild.
  destruct Hchild as [l elements x El Hin|l proto internal props name x El Hk Hg];
    cbn [Heap.doResolve] in H; unfold bind at 1, Heap.read at 1 in H; rewrite El in H.
  - unfold Heap.doResolveArray, bind at 1, Heap.allocate at 1 in H.
    set (st0 := with_heap (heap st ++ [ArrayObject []]) st) in H.
    apply list_elem_of_lookup in Hin as [j Hj].
    pose proof (lookup_lt_Some _ _ _ El) as Hl.
    destruct (doResolveArray_loop_descent _ (doResolve_kept getVariable fuel)
                fuel l elements (length (heap st)) (length (heap st)) Hl (Nat.le_refl _)
                0 st0 w st') with (j := j) (v' := x) as (st1 & w1 & st2 & E & Hkept).
    + simpl. rewrite length_app. simpl. lia.
    + simpl. by rewrite lookup_app_l.
    + done.
    + lia.
    + done.
    + exists st1, w1, st2. split; [done|]. intros l' Hl'.
      destruct Hkept as (_ & Hf & _). rewrite Hf by done. simpl. by rewrite lookup_app_l.
  - unfold Heap.doResolveObject, bind at 1, Heap.allocate at 1 in H.
    set (st0 := with_heap (heap st ++ [OrdinaryObject ObjectPrototype None []]) st) in H.
    unfold bind at 1, Heap.read at 1 in H.
    pose proof (lookup_lt_Some _ _ _ El) as Hl.
    assert (heap st0 !! l = Some (OrdinaryObject proto internal props)) as El0
      by (simpl; by rewrite lookup_app_l).
    rewrite El0 in H.
    destruct (doResolveObject_loop_descent _ (doResolve_kept getVariable fuel)
                l proto internal props (length (heap st)) (length (heap st)) Hl
                (Nat.le_refl _) (Object_keys props) st0 w st') with (name := name)
      as (st1 & w1 & st2 & E & Hkept).
    + simpl. rewrite length_app. simpl. lia.
    + done.
    + done.
    + done.
    + rewrite Hg in E. exists st1, w1, st2. split; [done|]. intros l' Hl'.
      destruct Hkept as (_ & Hf & _). rewrite Hf by done. simpl. by rewrite lookup_app_l.
Qed.

Lemma agree_trans h st st1 :
  (forall l, l < length h -> heap st !! l = h !! l) ->
  (forall l, l < length (heap st) -> heap st1 !! l = heap st !! l) ->
  forall l, l < length h -> heap st1 !! l = h !! l.
Proof.
  intros H1 H2 l Hl. rewrite <- H1 by done. apply H2.
  destruct (lookup_lt_is_Some_2 h l Hl) as [o Ho].
  apply (lookup_lt_Some _ _ o). by rewrite H1.
Qed.

(** Along a path of the heap [h] the fuel goes down. *)
Lemma Heap_doResolve_descent_tc h x y :
  tc (child h) x y ->
  forall fuel st w st',
    (forall l, l < length h -> heap st !! l = h !! l) ->
    Heap.doResolve getVariable fuel x st = (Fulfilled w, st') ->
    exists fuel' st1 w1 st2,
      fuel' < fuel /\
      (forall l, l < length h -> heap st1 !! l = h !! l) /\
      Heap.doResolve getVariable fuel' y st1 = (Fulfilled w1, st2).
Proof.
  induction 1 as [x y Hxy|x y z Hxy _ IH]; intros [|fuel] st w st' Hagree H; try done.
  - destruct (Heap_doResolve_descent _ _ y _ _ _ H) as (st1 & w1 & st2 & E & Hf).
    { by apply (child_frame h). }
    exists fuel, st1, w1, st2. split; [lia|]. split; [|done]. by apply (agree_trans h st).
  - destruct (Heap_doResolve_descent _ _ y _ _ _ H) as (st1 & w1 & st2 & E & Hf).
    { by apply (child_frame h). }
    destruct (IH fuel st1 w1 st2) as (fuel' & st3 & w3 & st4 & Hlt & Hagree' & E');
      [by apply (agree_trans h st)|done|].
    exists fuel', st3, w3, st4. split; [lia|done].
Qed.

(** The traversal of a value that lies on a cycle does not return. *)
Lemma Heap_doResolve_cycle h x :
  tc (child h) x x ->
  forall fuel st w st',
    (forall l, l < length h -> heap st !! l = h !! l) ->
    Heap.doResolve getVariable fuel x st <> (Fulfilled w, st').
Proof.
  intros Hcycle fuel. induction fuel as [fuel IH] using lt_wf_ind.
  intros st w st' Hagree H.
  destruct (Heap_doResolve_descent_tc h x x Hcycle fuel st w st' Hagree H)
    as (fuel' & st1 & w1 & st2 & Hlt & Hagree' & E).
  by apply (IH fuel' Hlt st1 w1 st2).
Qed.

End CycleFacts.

(** ** What the containers returned refer to *)

Lemma refs_app vs ws : refs (vs ++ ws) = refs vs ++ refs ws.
Proof. apply omap_app. Qed.

Lemma refs_cons_Permutation v vs ws : ws ≡ₚ v :: vs -> refs ws ≡ₚ refs [v] ++ refs vs.
Proof. intros H. unfold refs at 1. rewrite H. by destruct v. Qed.

Lemma values_insert_property name (v : Value) props :
  map value (insert_property name v props) ≡ₚ v :: map value props.
Proof.
  induction props as [|p props IH]; simpl; [done|].
  destruct (listed_before (key p) name); simpl; [|done].
  rewrite IH. apply Permutation_swap.
Qed.

Lemma update_property_split name (v : Value) props :
  NoDup (map key props) ->
  StringKey name ∈ map key props ->
  exists pre p post,
    props = pre ++ p :: post /\
    update_property name v props =
      pre ++ mkProperty (StringKey name) (enumerable p) v :: post.
Proof.
  induction props as [|p props IH]; intros Hnd Hin; [by apply elem_of_nil in Hin|].
  simpl in Hnd. apply NoDup_cons in Hnd as [Hp Hnd]. unfold update_property. simpl.
  destruct (decide (key p = StringKey name)) as [E|Hne].
  - exists [], p, props. split; [done|]. simpl. rewrite E. f_equal.
    rewrite <- (map_id props) at 2. apply map_ext_in. intros q Hq.
    rewrite decide_False; [done|]. intros Eq. apply Hp. rewrite E, <- Eq.
    apply list_elem_of_fmap. exists q. split; [done|]. by apply list_elem_of_In.
  - simpl in Hin. apply elem_of_cons in Hin as [?|Hin]; [done|].
    destruct (IH Hnd Hin) as (pre & q & post & -> & E).
    exists (p :: pre), q, post. split; [done|]. simpl. f_equal. exact E.
Qed.

Lemma refs_cons v vs : refs (v :: vs) = refs [v] ++ refs vs.
Proof. by destruct v. Qed.

Lemma submseteq_fresh (P Q : nat -> Prop) (new old now : list nat) :
  NoDup old -> Forall P old ->
  NoDup new -> Forall Q new ->
  (forall x, P x -> Q x) ->
  (forall x, x ∈ new -> ~ P x) ->
  now ⊆+ new ++ old ->
  NoDup now /\ Forall Q now.
Proof.
  intros Hold HP Hnew HQ HPQ Hfresh Hsub. split.
  - apply submseteq_sublist_l in Hsub as (k & Hk & Hperm).
    apply (sublist_NoDup _ k); [|done]. rewrite Hperm.
    apply NoDup_app. split; [done|]. split; [|done].
    intros x Hx Hx'. rewrite Forall_forall in HP. by apply (Hfresh x Hx), HP.
  - apply Forall_forall. intros x Hx.
    apply (elem_of_submseteq _ _ _ Hx) in Hsub. apply elem_of_app in Hsub as [H|H].
    + rewrite Forall_forall in HQ. by apply HQ.
    + rewrite Forall_forall in HP. by apply HPQ, HP.
Qed.

(** After [result[name] = v] the object refers to [v] and to what it
    referred to before, or to less. *)
Lemma Object_set_refs proto props name v :
  NoDup (map key props) ->
  let r := Object_set Heap.as_prototype (proto, props) name v in
  object_refs r.1 r.2 ⊆+ refs [v] ++ object_refs proto props.
Proof.
  intros Hnd. unfold Object_set, has_own_property.
  destruct (bool_decide (StringKey name ∈ map key props)) eqn:E.
  { apply bool_decide_eq_true in E.
    destruct (update_property_split name v props Hnd E) as (pre & p & post & -> & ->).
    unfold object_refs. cbn [fst snd].
    rewrite !map_app, !refs_app. cbn [map value]. rewrite !(refs_cons _ (map value post)).
    set (P := match proto with ValuePrototype w => refs [w] | _ => [] end).
    rewrite !(app_assoc P), (Permutation_app_swap_app (refs [v])).
    by apply submseteq_skips_l, submseteq_skips_l, submseteq_inserts_l. }
  assert (object_refs proto (insert_property name v props)
            ⊆+ refs [v] ++ object_refs proto props) as Hins.
  { unfold object_refs.
    rewrite (refs_cons_Permutation v (map value props)) by apply values_insert_property.
    by rewrite !app_assoc, (Permutation_app_comm (refs [v])). }
  destruct proto as [| |cls|w]; try exact Hins.
  destruct (decide (name = PROTO)); [|exact Hins].
  destruct v; simpl; try (by apply submseteq_inserts_l); done.
Qed.

Section FreshFacts.

Context {RS Error : Type}.
Variable getVariable :
  JsString -> RS -> Completion Error (option (RegisteredVariable RS Error)) * RS.

Implicit Types (st : State RS Error) (v w : Value) (l : nat).

(** What the traversal returns for an array or an object is an object
    allocated during the traversal. *)
Lemma Heap_doResolve_result fuel v st w st' :
  Heap.doResolve getVariable fuel v st = (Fulfilled w, st') ->
  (forall l, l < length (heap st) -> heap st' !! l = heap st !! l) /\
  length (heap st) <= length (heap st') /\
  forall l, w = Ref l -> length (heap st) <= l < length (heap st').
Proof.
  intros H. destruct (doResolve_kept getVariable _ _ _ _ _ H) as [Hk Ha].
  destruct (Hk _ (Nat.le_refl _)) as (Hlen & Hf & _). specialize (Ha _ eq_refl).
  split; [done|]. split; [done|]. intros l ->. simpl in Ha. split; [done|].
  destruct fuel as [|fuel]; [done|].
  destruct v as [| |b|bits|z|id|s|l0]; cbn [Heap.doResolve] in H; try (by inversion H).
  - unfold bind in H. by destruct (doResolveString getVariable s st) as [[?|?|] ?].
  - unfold bind at 1, Heap.read at 1 in H.
    destruct (heap st !! l0) as [[elements|proto internal props]|] eqn:El; [| |done].
    + unfold Heap.doResolveArray, bind at 1, Heap.allocate at 1 in H.
      set (st0 := with_heap (heap st ++ [ArrayObject []]) st) in H.
      assert (length (heap st) < length (heap st0)) as Hlen0
        by (simpl; rewrite length_app; simpl; lia).
      destruct (doResolveArray_loop_kept _ (doResolve_kept getVariable fuel)
                  _ _ _ _ _ 0 _ _ (Nat.le_0_l _) Hlen0 H) as [[Hl0 _] Hv].
      specialize (Hv _ eq_refl). injection Hv as ->. lia.
    + unfold Heap.doResolveObject, bind at 1, Heap.allocate at 1 in H.
      set (st0 := with_heap (heap st ++ [OrdinaryObject ObjectPrototype None []]) st) in H.
      unfold bind at 1, Heap.read at 1 in H.
      assert (length (heap st) < length (heap st0)) as Hlen0
        by (simpl; rewrite length_app; simpl; lia).
      destruct (doResolveObject_loop_kept _ (doResolve_kept getVariable fuel)
                  _ _ _ _ 0 _ _ (Nat.le_0_l _) Hlen0 H) as [[Hl0 _] Hv].
      specialize (Hv _ eq_refl). injection Hv as ->. lia.
Qed.

Section Loops.

Variable doResolve : Value -> @M RS Error Value.
Hypothesis doResolve_result : forall value st w st',
  doResolve value st = (Fulfilled w, st') ->
  (forall l, l < length (heap st) -> heap st' !! l = heap st !! l) /\
  length (heap st) <= length (heap st') /\
  forall l, w = Ref l -> length (heap st) <= l < length (heap st').

(** The array [doResolveArray] fills: as long as the array given, and no
    two of its elements refer to one object. *)
Lemma doResolveArray_loop_fresh fuel values elements result :
  values < result ->
  forall i st acc r st',
    result < length (heap st) ->
    heap st !! values = Some (ArrayObject elements) ->
    heap st !! result = Some (ArrayObject acc) ->
    length acc = i -> i <= length elements ->
    NoDup (refs acc) ->
    Forall (fun l => result < l < length (heap st)) (refs acc) ->
    Heap.doResolveArray_loop doResolve fuel values i result st = (Fulfilled r, st') ->
    exists out,
      r = Ref result /\
      heap st' !! result = Some (ArrayObject out) /\
      length out = length elements /\
      NoDup (refs out) /\
      Forall (fun l => result < l < length (heap st')) (refs out).
Proof.
  intros Hvr. induction fuel as [|fuel IH];
    intros i st acc r st' Hres Hvals Hacc Hlen Hi Hnd Hall H; [done|].
  cbn [Heap.doResolveArray_loop] in H. unfold bind at 1, Heap.read at 1 in H.
  rewrite Hvals in H.
  destruct (elements !! i) as [value|] eqn:Ei.
  2: { injection H as <- <-. exists acc. apply lookup_ge_None in Ei.
       split; [done|]. split; [done|]. split; [lia|done]. }
  unfold bind at 1 in H.
  destruct (doResolve value st) as [[resolved|e|] st1] eqn:E1; [|done..].
  destruct (doResolve_result _ _ _ _ E1) as (Hf & Hl & Hw).
  unfold bind at 1, Heap.Array_push, bind at 1, Heap.read at 1 in H.
  rewrite Hf, Hacc in H by done. unfold Heap.write at 1 in H.
  apply lookup_lt_Some in Ei.
  apply (IH (S i) _ (acc ++ [resolved])) in H; [done|..].
  - simpl. rewrite length_insert. lia.
  - simpl. rewrite list_lookup_insert_ne by lia. by rewrite Hf by lia.
  - simpl. apply list_lookup_insert_eq. lia.
  - rewrite length_app. simpl. lia.
  - lia.
  - rewrite refs_app. apply NoDup_app. split; [done|]. split.
    + intros x Hx Hx'. rewrite Forall_forall in Hall. specialize (Hall x Hx).
      destruct resolved; simpl in Hx'; try (by apply elem_of_nil in Hx').
      apply list_elem_of_singleton in Hx' as ->. specialize (Hw _ eq_refl). lia.
    + destruct resolved; simpl; try constructor; [by intros ?%elem_of_nil|constructor].
  - simpl. rewrite length_insert, refs_app. apply Forall_app. split.
    + eapply Forall_impl; [exact Hall|]. simpl. intros x ?. lia.
    + destruct resolved; simpl; try constructor; [|constructor].
      specialize (Hw _ eq_refl). lia.
Qed.

(** The object [doResolveObject] fills refers to no object twice. *)
Lemma doResolveObject_loop_fresh obj result :
  forall keys st rproto rprops r st',
    result < length (heap st) ->
    heap st !! result = Some (OrdinaryObject rproto None rprops) ->
    NoDup (map key rprops) ->
    NoDup (object_refs rproto rprops) ->
    Forall (fun l => result < l < length (heap st)) (object_refs rproto rprops) ->
    Heap.doResolveObject_loop doResolve keys obj result st = (Fulfilled r, st') ->
    exists rproto' rprops',
      r = Ref result /\
      heap st' !! result = Some (OrdinaryObject rproto' None rprops') /\
      NoDup (object_refs rproto' rprops') /\
      Forall (fun l => result < l < length (heap st')) (object_refs rproto' rprops').
Proof.
  induction keys as [|name keys IH];
    intros st rproto rprops r st' Hres Hacc Hkeys Hnd Hall H.
  { injection H as <- <-. by exists rproto, rprops. }
  cbn [Heap.doResolveObject_loop] in H. unfold bind at 1, Heap.read at 1 in H.
  unfold bind at 1 in H.
  match type of H with
  | context [doResolve ?value st] =>
      destruct (doResolve value st) as [[resolved|e|] st1] eqn:E1; [|done..]
  end.
  destruct (doResolve_result _ _ _ _ E1) as (Hf & Hl & Hw).
  unfold bind at 1, Heap.Object_assign, bind at 1, Heap.read at 1 in H.
  rewrite Hf, Hacc in H by done. unfold Heap.write at 1 in H.
  set (r1 := Object_set Heap.as_prototype (rproto, rprops) name resolved) in H.
  destruct (submseteq_fresh
              (fun l => result < l < length (heap st))
              (fun l => result < l < length (heap st1))
              (refs [resolved]) (object_refs rproto rprops) (object_refs r1.1 r1.2))
    as [Hnd1 Hall1]; [done|done| | | | |by apply Object_set_refs|].
  - destruct resolved; simpl; constructor; [by intros ?%elem_of_nil|constructor].
  - destruct resolved; simpl; constructor; [|constructor].
    specialize (Hw _ eq_refl). lia.
  - intros x ?. lia.
  - intros x Hx. destruct resolved; simpl in Hx; try (by apply elem_of_nil in Hx).
    apply list_elem_of_singleton in Hx as ->. specialize (Hw _ eq_refl). lia.
  - apply (IH _ r1.1 r1.2) in H; [done|..].
    + simpl. rewrite length_insert. lia.
    + simpl. apply list_lookup_insert_eq. lia.
    + by apply Object_set_NoDup.
    + done.
    + simpl. by rewrite length_insert.
Qed.

End Loops.

(** What the traversal returns for an array or an object allocated
    before it started. *)
Lemma Heap_doResolve_fresh fuel l st r st' :
  Heap.doResolve getVariable fuel (Ref l) st = (Fulfilled r, st') ->
  r = Ref (length (heap st)) /\
  match heap st' !! length (heap st) with
  | Some (ArrayObject out) =>
      (exists elements,
         heap st !! l = Some (ArrayObject elements) /\ length out = length elements) /\
      NoDup (refs out) /\
      Forall (fun l' => length (heap st) < l' < length (heap st')) (refs out)
  | Some (OrdinaryObject proto' internal' props') =>
      (exists proto internal props,
         heap st !! l = Some (OrdinaryObject proto internal props)) /\
      internal' = None /\
      NoDup (object_refs proto' props') /\
      Forall (fun l' => length (heap st) < l' < length (heap st')) (object_refs proto' props')
  | None => False
  end.
Proof.
  intros H. destruct fuel as [|fuel]; [done|].
  cbn [Heap.doResolve] in H. unfold bind at 1, Heap.read at 1 in H.
  destruct (heap st !! l) as [[elements|proto internal props]|] eqn:El; [| |done].
  - unfold Heap.doResolveArray, bind at 1, Heap.allocate at 1 in H.
    pose proof (lookup_lt_Some _ _ _ El) as Hl.
    apply (doResolveArray_loop_fresh _ (Heap_doResolve_result fuel)
             fuel l elements (length (heap st)) Hl 0 _ []) in H
      as (out & -> & Hout & Hlen & Hnd & Hall).
    + split; [done|]. rewrite Hout. split; [by exists elements|done].
    + simpl. rewrite length_app. simpl. lia.
    + simpl. by rewrite lookup_app_l.
    + simpl. by rewrite list_lookup_middle.
    + done.
    + lia.
    + constructor.
    + constructor.
  - unfold Heap.doResolveObject, bind at 1, Heap.allocate at 1 in H.
    unfold bind at 1, Heap.read at 1 in H.
    match type of H with
    | Heap.doResolveObject_loop _ ?names _ _ _ = _ =>
        apply (doResolveObject_loop_fresh _ (Heap_doResolve_result fuel)
                 l (length (heap st)) names _ ObjectPrototype []) in H
          as (rproto' & rprops' & -> & Hout & Hnd & Hall)
    end.
    + split; [done|]. rewrite Hout. split; [by exists proto, internal, props|done].
    + simpl. rewrite length_app. simpl. lia.
    + simpl. by rewrite list_lookup_middle.
    + constructor.
    + constructor.
    + constructor.
Qed.

End FreshFacts.

(** * What else the code guarantees *)

Section Coverage.

Context {RS Error : Type}.
Variable getVariable :
  JsString -> RS -> Completion Error (option (RegisteredVariable RS Error)) * RS.

Implicit Types (st : State RS Error) (name n X V : JsString) (ns : list JsString).
Implicit Types (value : JsValue).

Local Abbreviation step := (cache_step getVariable).

(** X1: a call of [resolve] that no other call overlaps, so that
    [VAR_REGEXP.lastIndex] is 0 when it starts, returns the value with
    every token of every string it visits replaced by what the Context
    holds for the name of the token when the call ends, and kept where the
    Context holds nothing: a name has one replacement for the whole value.
    The Context then holds the token names of the value and no other name,
    and [lastIndex] is 0 again. *)
Theorem X1_one_replacement_per_name value st :
  lastIndex st = 0 ->
  exists st',
    resolve getVariable value st =
      (Fulfilled (substitute_value (cached st') value), st') /\
    (forall n, is_Some (resolved st' !! n) <-> n ∈ value_names value) /\
    lastIndex st' = 0.
Proof.
  intros Hli. eexists. split; [by apply resolve_eq|]. split.
  - intros n. rewrite cache_steps_dom. simpl. rewrite lookup_empty.
    split; [intros [[? ?]|?]; done|by right].
  - by rewrite cache_steps_lastIndex.
Qed.

(** X2: in a call of [resolve] that no other call overlaps, so that
    [VAR_REGEXP.lastIndex] is 0 when it starts, [getVariable] is called
    with the token names of the value in the order in which they first
    occur in the traversal, depth first and left to right, and the
    registry is left as these lookups, made in that order, leave it. *)
Theorem X2_lookups_in_order_of_first_occurrence value st :
  lastIndex st = 0 ->
  exists v st',
    resolve getVariable value st = (Fulfilled v, st') /\
    lookups st' = lookups st ++ first_occurrences [] (value_names value) /\
    registry st' =
      foldl (fun rs n => (lookup getVariable n rs).2) (registry st)
        (first_occurrences [] (value_names value)).
Proof.
  intros Hli. eexists _, _. split; [by apply resolve_eq|].
  apply (cache_steps_order getVariable (fresh_context st)).
  intros n. simpl. rewrite lookup_empty, elem_of_nil. split; [done|by intros [? ?]].
Qed.

(** X3: in one call of [resolve], [console.error] is called at most once
    for a name, and only for a token name of the value whose lookup failed,
    [getVariable] or the variable's [resolve] having thrown: an unknown
    variable and a variable that resolves to [undefined] are not reported. *)
Theorem X3_only_failures_are_reported value st :
  lastIndex st = 0 ->
  exists v st' new,
    resolve getVariable value st = (Fulfilled v, st') /\
    console st' = console st ++ new /\
    NoDup new.*1 /\
    (forall n e, (n, e) ∈ new ->
       n ∈ value_names value /\ exists rs, fails getVariable n rs e) /\
    ((forall n rs e, n ∈ value_names value -> ~ fails getVariable n rs e) -> new = []).
Proof.
  intros Hli.
  destruct (cache_steps_console getVariable (fresh_context st) (value_names value))
    as (new & Hc & Hnd & Hin).
  eexists _, _, new. split; [by apply resolve_eq|]. split; [done|]. split; [done|].
  assert (forall n e, (n, e) ∈ new ->
            n ∈ value_names value /\ exists rs, fails getVariable n rs e) as Hnew.
  { intros n e H. destruct (Hin n e H) as (? & _ & ?). by split. }
  split; [done|]. intros Hquiet.
  destruct new as [|[n e] new]; [done|].
  destruct (Hnew n e) as [Hn [rs Hf]]; [apply elem_of_cons; by left|].
  by destruct (Hquiet n rs e).
Qed.


(** X5: what [VAR_REGEXP.exec(str)] returns.  A match is the leftmost
    token [${name}] that starts at [lastIndex] or after it: [match[0]] is
    that token as it stands in [str] at [match.index], [match[1]] its name,
    and [lastIndex] moves to the end of the match, by three code units at
    least and not beyond the end of [str].  Without a match no token starts
    at [lastIndex] or after it, and [lastIndex] becomes 0. *)
Theorem X5_exec_finds_the_next_token (str : JsString) st :
  exists r st',
    RegExp_exec str st = (Fulfilled r, st') /\
    st' = with_lastIndex (lastIndex st') st /\
    match r with
    | Some m =>
        token_name (group1 m) /\
        matched m = token_text (group1 m) /\
        substring (index m) (index m + length (matched m)) str = matched m /\
        lastIndex st <= index m /\
        (forall j, lastIndex st <= j < index m -> match_at (drop j str) = None) /\
        lastIndex st' = index m + length (matched m) /\
        lastIndex st + 3 <= lastIndex st' <= length str
    | None =>
        lastIndex st' = 0 /\
        forall j, lastIndex st <= j -> match_at (drop j str) = None
    end.
Proof.
  unfold RegExp_exec.
  destruct (search (drop (lastIndex st) str) (lastIndex st)) as [[m e]|] eqn:E.
  - exists (Some m), (with_lastIndex e st). split; [done|]. split; [done|].
    apply search_Some in E as (k & Hi & Hno & Hn & Hm & Ht & -> & Hlen).
    rewrite length_drop in Hlen.
    assert (3 <= length (matched m)) as H3 by (rewrite Hm, length_token_text; lia).
    split; [done|]. split; [done|]. split.
    { unfold substring. rewrite Hi, <- drop_drop.
      by replace (lastIndex st + k + length (matched m) - (lastIndex st + k))
        with (length (matched m)) by lia. }
    split; [lia|]. split.
    { intros j Hj. replace j with (lastIndex st + (j - lastIndex st)) by lia.
      rewrite <- drop_drop. apply Hno. lia. }
    split; [done|]. simpl. lia.
  - exists None, (with_lastIndex 0 st). split; [done|]. split; [done|]. split; [done|].
    intros j Hj. replace j with (lastIndex st + (j - lastIndex st)) by lia.
    rewrite <- drop_drop. by apply (search_None _ _ E).
Qed.

(** X6: the cache lives for one call.  What a call of [resolve] returns
    and does is the same whatever Context an earlier call left behind.
    Of two calls on the same value that no other call overlaps, the
    second made when the first has returned, so that
    [VAR_REGEXP.lastIndex] is 0 when each starts, the second asks the
    registry for every name again. *)
Theorem X6_no_cache_across_calls value st :
  lastIndex st = 0 ->
  (forall cache,
     resolve getVariable value (with_resolved cache st) = resolve getVariable value st) /\
  exists v1 st1 v2 st2,
    resolve getVariable value st = (Fulfilled v1, st1) /\
    resolve getVariable value st1 = (Fulfilled v2, st2) /\
    lookups st2 =
      lookups st ++ first_occurrences [] (value_names value)
                 ++ first_occurrences [] (value_names value).
Proof.
  intros Hli. split; [done|].
  assert (forall st0 : State RS Error, forall n,
            n ∈ @nil JsString <-> is_Some (resolved (fresh_context st0) !! n)) as Hfresh.
  { intros st0 n. simpl. rewrite lookup_empty, elem_of_nil. split; [done|by intros [? ?]]. }
  set (st1 := foldl step (fresh_context st) (value_names value)).
  assert (lastIndex st1 = 0) as Hli1 by (unfold st1; by rewrite cache_steps_lastIndex).
  eexists _, st1, _, _. split; [by apply resolve_eq|]. split; [by apply resolve_eq|].
  destruct (cache_steps_order getVariable (fresh_context st1) (value_names value) []
              (Hfresh st1)) as [-> _].
  destruct (cache_steps_order getVariable (fresh_context st) (value_names value) []
              (Hfresh st)) as [Hl _].
  simpl. fold st1 in Hl. simpl in Hl. by rewrite Hl, <- app_assoc.
Qed.

(** X7: what the Context holds for a name is final.  Whatever value is
    traversed next, from whatever state, the entry of a name that is in the
    cache stays as it is, [get] returns the same value for it, and
    [getVariable] is not called with that name. *)
Theorem X7_cache_entry_is_final value st n (x : option JsString) :
  resolved st !! n = Some x ->
  exists v st' new,
    doResolve getVariable value st = (Fulfilled v, st') /\
    resolved st' !! n = Some x /\
    Context_get n st' = (Fulfilled x, st') /\
    lookups st' = lookups st ++ new /\
    n ∉ new.
Proof.
  intros Hx.
  destruct (doResolve_reached getVariable value st) as (v & st' & E & (i & ns & ->)).
  destruct (cache_steps_lookups getVariable st ns) as (new & Hl & _ & Hin).
  pose proof (cache_steps_kept getVariable st ns n x Hx) as Hkept.
  exists v, (with_lastIndex i (foldl step st ns)), new. split; [done|]. split; [done|]. split.
  { unfold Context_get. simpl. by rewrite Hkept. }
  split; [done|]. rewrite Hin. intros [_ Hnone]. congruence.
Qed.

(** X8: what [doResolveObject] returns for an object, whatever its class:
    an object without internal state whose own properties are the own
    enumerable string-keyed properties of the input other than [__proto__],
    in the same order and enumerable, each with its value resolved.  No
    object returned has an own property named [__proto__]: where the input
    has one, its resolved value becomes the prototype of the result when it
    is an object or [null], and is dropped otherwise; where the input has
    none, the result has the prototype of [{}]. *)
Theorem X8_object_rebuilt_without_proto_key proto internal props st :
  lastIndex st = 0 ->
  ordered_keys [] (Object_keys props) = true ->
  exists proto' st',
    resolve getVariable (JsObject proto internal props) st =
      (Fulfilled
         (JsObject proto' None
            (entries_props
               (map (fun e => (e.1, substitute_value (cached st') e.2))
                  (filter (fun e => e.1 <> PROTO) (Object_entries props))))), st') /\
    (PROTO ∉ Object_keys props -> proto' = ObjectPrototype) /\
    (forall v, (PROTO, v) ∈ Object_entries props ->
       proto' =
         default ObjectPrototype
           (JsValue_as_prototype (substitute_value (cached st') v))).
Proof.
  intros Hli Hord.
  set (st' := foldl step (fresh_context st) (value_names (JsObject proto internal props))).
  destruct (substitute_value_object (cached st') proto internal props Hord)
    as (proto' & E & H1 & H2).
  exists proto', st'. split; [|done].
  rewrite resolve_eq by done. fold st'. by rewrite E.
Qed.

(** X9: of an object, [resolve] reads the own enumerable string-keyed
    properties and nothing else: the prototype, the internal state, the
    properties that are not enumerable and those with a symbol for key
    change neither what is returned nor what is asked of the registry. *)
Theorem X9_only_enumerable_string_keys_are_read proto internal props st :
  resolve getVariable (JsObject proto internal props) st =
  resolve getVariable
    (JsObject ObjectPrototype None (entries_props (Object_entries props))) st.
Proof.
  unfold resolve, bind, Context_new. cbn [doResolve]. unfold doResolveObject.
  by rewrite doResolveObject_loop_entries.
Qed.

(** X10: cyclic input.  When the value given, read through the heap,
    leads through array elements and through the values [Object.keys]
    lists to an array or an object that leads back to itself, the
    traversal does not return: with no amount of fuel is the call
    fulfilled. *)
Theorem X10_cyclic_input_never_returns fuel (value : Value) l st :
  rtc (child (heap st)) value (Ref l) ->
  tc (child (heap st)) (Ref l) (Ref l) ->
  forall v st', Heap.resolve getVariable fuel value st <> (Fulfilled v, st').
Proof.
  intros Hpath Hcycle v st' H. rewrite Heap_resolve_unfold in H.
  destruct (Heap.doResolve getVariable fuel value (fresh_context st))
    as [[w|e|] st1] eqn:E; try done.
  assert (forall l0, l0 < length (heap st) ->
            heap (fresh_context st) !! l0 = heap st !! l0) as Hagree by done.
  apply rtc_tc in Hpath as [->|Hpath].
  - by apply (Heap_doResolve_cycle getVariable (heap st) (Ref l) Hcycle
                fuel (fresh_context st) w st1).
  - destruct (Heap_doResolve_descent_tc getVariable (heap st) value (Ref l) Hpath
                fuel (fresh_context st) w st1 Hagree E)
      as (fuel' & st2 & w2 & st3 & _ & Hagree' & E').
    by apply (Heap_doResolve_cycle getVariable (heap st) (Ref l) Hcycle fuel' st2 w2 st3).
Qed.

(** X11: where no object the traversal visits has an own enumerable
    property named [__proto__], the value returned has the shape of the
    input: the same kind, the same keys in the same order, the same length,
    and the same scalars. *)
Theorem X11_shape_kept_without_proto_key value st :
  lastIndex st = 0 ->
  copyable value = true ->
  exists v st',
    resolve getVariable value st = (Fulfilled v, st') /\ same_shape value v.
Proof. apply resolve_same_shape. Qed.

(** X12: the text a variable resolves to is written into the result as it
    is and is not scanned: in a call that no other call overlaps, so that
    [VAR_REGEXP.lastIndex] is 0 when it starts, for the string [${X}] the
    result is the value of [X] even where that value has tokens of its
    own, [getVariable] is called with [X] alone, and the Context holds [X]
    alone. *)
Theorem X12_replacement_is_not_scanned X V st :
  lastIndex st = 0 ->
  token_name X ->
  resolves_to getVariable X V ->
  exists st',
    resolve getVariable (JsStr (token_text X)) st = (Fulfilled (JsStr V), st') /\
    lookups st' = lookups st ++ [X] /\
    resolved st' = {[X := Some V]}.
Proof.
  intros Hli HX HV.
  assert (Tokens (token_text X) [Tok X]) as HT.
  { rewrite <- (app_nil_r (token_text X)). constructor; [done|constructor]. }
  rewrite resolve_eq by done. cbn [value_names substitute_value].
  rewrite <- (Tokens_pieces_eq _ _ HT). cbn [names foldl substitute].
  destruct (HV (registry st)) as (var & rs1 & rs2 & E1 & E2).
  assert (step (fresh_context st) X =
            mkState (heap st) (lastIndex st) {[X := Some V]} rs2 (lookups st ++ [X])
              (console st)) as ->.
  { unfold cache_step, lookup. simpl. rewrite lookup_empty, E1, E2. simpl.
    by rewrite app_nil_r, insert_empty. }
  eexists. split.
  - unfold cached. simpl. by rewrite lookup_singleton_eq, app_nil_r.
  - done.
Qed.

(** X13: over the heap, what the traversal returns for an array or an
    object is the object it allocated first.  A returned array has as many
    elements as the array given.  No two elements of a returned array, and
    no two of the property values and the prototype of a returned object,
    refer to one object, even where the input refers to one object twice;
    each refers to an object allocated during the call, after the container
    that holds it. *)
Theorem X13_result_refers_to_no_object_twice fuel l st (r : Value) st' :
  Heap.resolve getVariable fuel (Ref l) st = (Fulfilled r, st') ->
  r = Ref (length (heap st)) /\
  match heap st' !! length (heap st) with
  | Some (ArrayObject out) =>
      (exists elements,
         heap st !! l = Some (ArrayObject elements) /\ length out = length elements) /\
      NoDup (refs out) /\
      Forall (fun l' => length (heap st) < l' < length (heap st')) (refs out)
  | Some (OrdinaryObject proto' internal' props') =>
      (exists proto internal props,
         heap st !! l = Some (OrdinaryObject proto internal props)) /\
      internal' = None /\
      NoDup (object_refs proto' props') /\
      Forall (fun l' => length (heap st) < l' < length (heap st')) (object_refs proto' props')
  | None => False
  end.
Proof.
  intros H. rewrite Heap_resolve_unfold in H.
  destruct (Heap.doResolve getVariable fuel (Ref l) (fresh_context st))
    as [[w|e|] st1] eqn:E; try done.
  injection H as -> ->. by apply Heap_doResolve_fresh in E.
Qed.

(** X14: input held by reference.  When the value given reads, through
    the heap, as a finite tree, in which one object may occur more than
    once, the traversal of the heap returns, given fuel for the tree, and
    what it returns reads as the value the traversal of the tree returns;
    the calls to the registry, the cache and what is reported are the
    same. *)
Theorem X14_traversal_by_reference_agrees fuel (value : Value) (t : JsValue) st :
  represents 0 (length (heap st)) (heap st) value t ->
  fuel_for t <= fuel ->
  exists v' t' st',
    Heap.resolve getVariable fuel value st = (Fulfilled v', st') /\
    resolve getVariable t st = (Fulfilled t', with_heap (heap st) st') /\
    represents (length (heap st)) (length (heap st')) (heap st') v' t'.
Proof. apply Heap_resolve_refines. Qed.

(** X15: plain data all of whose token names the registry cannot resolve,
    the variable being unknown, resolving to [undefined] or failing, is
    returned as it is. *)
Theorem X15_unresolvable_input_comes_back value st :
  lastIndex st = 0 ->
  plain_data value = true ->
  copyable value = true ->
  (forall n, n ∈ value_names value -> unresolvable getVariable n) ->
  exists st', resolve getVariable value st = (Fulfilled value, st').
Proof.
  intros Hli Hp Hc Hun. eexists. rewrite resolve_eq by done.
  rewrite substitute_value_plain; [done|done|done|].
  intros n Hn. apply cache_steps_value; [apply lookup_empty|done|by apply Hun].
Qed.

End Coverage.

(** * These statements at concrete inputs *)

Lemma X1_witness :
  let input :=
    JsArray [JsStr (js "${X}-${Y}"); object_literal [("k", JsStr (js "${Y}${X}"))]] in
  exists st',
    resolve sample_getVariable input initial_state =
      (Fulfilled (substitute_value (cached st') input), st') /\
    (forall n, is_Some (resolved st' !! n) <-> n ∈ value_names input) /\
    lastIndex st' = 0.
Proof.
  intros input. apply (X1_one_replacement_per_name sample_getVariable input initial_state).
  reflexivity.
Defined.

Lemma X2_witness :
  let input :=
    JsArray [JsStr (js "${Y}${X}"); object_literal [("k", JsStr (js "${X}${Z}${Y}"))]] in
  exists v st',
    resolve sample_getVariable input initial_state = (Fulfilled v, st') /\
    lookups st' = [js "Y"; js "X"; js "Z"] /\
    registry st' = 4.
Proof.
  intros input.
  destruct (X2_lookups_in_order_of_first_occurrence sample_getVariable input initial_state)
    as (v & st' & E & Hl & Hr).
  - reflexivity.
  - exists v, st'. split; [exact E|]. split; [exact Hl|exact Hr].
Defined.

Lemma X3_witness :
  let input := JsArray [JsStr (js "${X}${Y}${undef}"); JsStr (js "${fail}${fail}")] in
  exists v st' new,
    resolve sample_getVariable input initial_state = (Fulfilled v, st') /\
    console st' = console initial_state ++ new /\
    NoDup new.*1 /\
    (forall n e, (n, e) ∈ new ->
       n ∈ value_names input /\ exists rs, fails sample_getVariable n rs e) /\
    ((forall n rs e, n ∈ value_names input -> ~ fails sample_getVariable n rs e) ->
     new = []).
Proof.
  intros input. apply (X3_only_failures_are_reported sample_getVariable input initial_state).
  reflexivity.
Defined.

Lemma X6_witness :
  let input := JsArray [JsStr (js "${X}${Y}"); JsStr (js "${X}")] in
  (forall cache,
     resolve sample_getVariable input (with_resolved cache initial_state) =
     resolve sample_getVariable input initial_state) /\
  exists v1 st1 v2 st2,
    resolve sample_getVariable input initial_state = (Fulfilled v1, st1) /\
    resolve sample_getVariable input st1 = (Fulfilled v2, st2) /\
    lookups st2 = [js "X"; js "Y"; js "X"; js "Y"].
Proof.
  intros input.
  destruct (X6_no_cache_across_calls sample_getVariable input initial_state)
    as (Hany & v1 & st1 & v2 & st2 & E1 & E2 & Hl).
  - reflexivity.
  - split; [exact Hany|]. exists v1, st1, v2, st2.
    split; [exact E1|]. split; [exact E2|exact Hl].
Defined.

Lemma X7_witness :
  let st := with_resolved {[js "X" := Some (js "kept")]} initial_state in
  exists v st' new,
    doResolve sample_getVariable (JsArray [JsStr (js "${X}${Y}")]) st = (Fulfilled v, st') /\
    resolved st' !! js "X" = Some (Some (js "kept")) /\
    Context_get (js "X") st' = (Fulfilled (Some (js "kept")), st') /\
    lookups st' = lookups st ++ new /\
    js "X" ∉ new.
Proof.
  intros st.
  apply (X7_cache_entry_is_final sample_getVariable (JsArray [JsStr (js "${X}${Y}")]) st
           (js "X") (Some (js "kept"))).
  apply lookup_singleton_eq.
Defined.

Lemma X8_witness :
  let props :=
    [mkProperty (StringKey (js "1")) true (JsStr (js "${X}"));
     mkProperty (StringKey PROTO) true JsNull;
     mkProperty (StringKey (js "a")) true (JsStr (js "${X}"));
     mkProperty (SymbolKey 0) true (JsStr (js "${X}"))] in
  exists proto' st',
    resolve sample_getVariable (JsObject (ClassPrototype "Settings") (Some 1) props)
      initial_state =
      (Fulfilled
         (JsObject proto' None
            (entries_props
               (map (fun e => (e.1, substitute_value (cached st') e.2))
                  (filter (fun e => e.1 <> PROTO) (Object_entries props))))), st') /\
    (PROTO ∉ Object_keys props -> proto' = ObjectPrototype) /\
    (forall v, (PROTO, v) ∈ Object_entries props ->
       proto' =
         default ObjectPrototype
           (JsValue_as_prototype (substitute_value (cached st') v))).
Proof.
  intros props.
  apply (X8_object_rebuilt_without_proto_key sample_getVariable
           (ClassPrototype "Settings") (Some 1) props initial_state).
  - reflexivity.
  - reflexivity.
Defined.

Lemma X10_witness :
  let st := with_heap cyclic_heap initial_state in
  rtc (child (heap st)) (Ref 0) (Ref 1) /\
  tc (child (heap st)) (Ref 1) (Ref 1) /\
  forall fuel v st', Heap.resolve sample_getVariable fuel (Ref 0) st <> (Fulfilled v, st').
Proof.
  intros st.
  assert (child (heap st) (Ref 0) (Ref 1)) as H01.
  { apply (child_element _ 0 [Str (js "${X}"); Ref 1]); [reflexivity|].
    apply elem_of_cons. right. apply elem_of_cons. by left. }
  assert (child (heap st) (Ref 1) (Ref 0)) as H10.
  { apply (child_property _ 1 ObjectPrototype None
             [mkProperty (StringKey (js "self")) true (Ref 0)] (js "self"));
      [reflexivity| |reflexivity].
    apply elem_of_cons. by left. }
  split; [by apply rtc_once|]. split; [by apply (tc_l _ _ (Ref 0)), tc_once|].
  intros fuel.
  apply (X10_cyclic_input_never_returns sample_getVariable fuel (Ref 0) 1 st).
  - by apply rtc_once.
  - by apply (tc_l _ _ (Ref 0)), tc_once.
Defined.

Lemma X11_witness :
  let input :=
    JsArray [JsStr (js "${X}"); JsNumber 42; JsNull;
             JsObject (ClassPrototype "Date") (Some 1)
               [mkProperty (StringKey (js "c")) true (JsStr (js "${X}"))]] in
  exists v st',
    resolve sample_getVariable input initial_state = (Fulfilled v, st') /\
    same_shape input v.
Proof.
  intros input.
  apply (X11_shape_kept_without_proto_key sample_getVariable input initial_state).
  - reflexivity.
  - reflexivity.
Defined.

(** The variable [nested] resolves to the text [${X}]. *)
Lemma X12_witness :
  let getVariable name (calls : nat) :=
    if decide (name = js "nested") then
      (Normal (Some (mkVariable (fun calls => (@Normal JsString _ (Some (js "${X}")), S calls)))),
       S calls)
    else sample_getVariable name calls in
  exists st',
    resolve getVariable (JsStr (js "${nested}")) initial_state =
      (Fulfilled (JsStr (js "${X}")), st') /\
    lookups st' = lookups initial_state ++ [js "nested"] /\
    resolved st' = {[js "nested" := Some (js "${X}")]}.
Proof.
  intros getVariable.
  apply (X12_replacement_is_not_scanned getVariable (js "nested") (js "${X}") initial_state).
  - reflexivity.
  - repeat constructor; by vm_compute.
  - intros rs. by eexists _, _, _.
Defined.

Lemma X13_witness :
  let run := Heap.resolve sample_getVariable 8 (Ref 0) sample_heap_state in
  run.1 = Fulfilled (Ref 2) /\
  Ref 2 = Ref (length (heap sample_heap_state)) /\
  match heap run.2 !! length (heap sample_heap_state) with
  | Some (ArrayObject out) =>
      (exists elements,
         heap sample_heap_state !! 0 = Some (ArrayObject elements) /\
         length out = length elements) /\
      NoDup (refs out) /\
      Forall (fun l' => length (heap sample_heap_state) < l' < length (heap run.2)) (refs out)
  | Some (OrdinaryObject proto' internal' props') =>
      (exists proto internal props,
         heap sample_heap_state !! 0 = Some (OrdinaryObject proto internal props)) /\
      internal' = None /\
      NoDup (object_refs proto' props') /\
      Forall (fun l' => length (heap sample_heap_state) < l' < length (heap run.2))
        (object_refs proto' props')
  | None => False
  end.
Proof.
  intros run. split; [by vm_compute|].
  apply (X13_result_refers_to_no_object_twice sample_getVariable 8 0 sample_heap_state
           (Ref 2) run.2).
  by vm_compute.
Defined.

Lemma X14_witness :
  let shared := JsArray [JsStr (js "${X}"); JsStr (js "${Y}"); JsNumber 42; JsNull] in
  let t := object_literal [("a", JsStr (js "${X}")); ("b", shared); ("c", shared)] in
  exists v' t' st',
    Heap.resolve sample_getVariable 8 (Ref 0) sample_heap_state = (Fulfilled v', st') /\
    resolve sample_getVariable t sample_heap_state =
      (Fulfilled t', with_heap (heap sample_heap_state) st') /\
    represents (length (heap sample_heap_state)) (length (heap st')) (heap st') v' t'.
Proof.
  intros shared t.
  apply (X14_traversal_by_reference_agrees sample_getVariable 8 (Ref 0) t sample_heap_state).
  - assert (represents 0 2 sample_heap (Ref 1) shared) as Hshared.
    { apply (represents_array 0 2 sample_heap 1
               [Str (js "${X}"); Str (js "${Y}"); Number 42; Null]);
        [lia|reflexivity|repeat constructor]. }
    apply (represents_object 0 2 sample_heap 0 ObjectPrototype None
             [mkProperty (StringKey (js "a")) true (Str (js "${X}"));
              mkProperty (StringKey (js "b")) true (Ref 1);
              mkProperty (StringKey (js "c")) true (Ref 1)]);
      [lia|reflexivity|apply (bool_decide_unpack _); by vm_compute|constructor|].
    repeat (constructor; [repeat split; try done; constructor|]). constructor.
  - vm_compute. lia.
Defined.

Lemma X15_witness :
  let input :=
    object_literal [("a", JsStr (js "${Y}")); ("b", JsArray [JsStr (js "-${fail}-"); JsNumber 42])] in
  exists st', resolve sample_getVariable input initial_state = (Fulfilled input, st').
Proof.
  intros input.
  apply (X15_unresolvable_input_comes_back sample_getVariable input initial_state).
  - reflexivity.
  - reflexivity.
  - reflexivity.
  - intros n Hn rs. vm_compute in Hn.
    repeat (apply elem_of_cons in Hn as [->|Hn]; [by vm_compute|]).
    by apply elem_of_nil in Hn.
Defined.
